(** * Elementwise GPU loops (ATen/native/cuda/Loops.cuh) and the pickle
    entry points (torch/csrc/jit/pickle.cpp): a shallow embedding.

    Device memory is byte addressed; integers of fixed width are [Z] with the
    wrap-around written out; host code runs in a small state-and-failure
    monad whose state holds the memory, the log of memory accesses and the
    kernels enqueued on the stream.  The threads of a launch run one after
    another, in an order given by a schedule; what is proved about the
    memory after a launch holds for every schedule that runs each thread of
    the grid once. *)

From Stdlib Require Import ZArith List Bool Lia Permutation FinFun.
Import ListNotations.
Local Open Scope Z_scope.

(** ** Scalar types *)

(** The integral members of [c10::ScalarType].  Floating-point, complex and
    boolean element types are outside this embedding. *)
Inductive ScalarType : Type := Byte | Char | Short | Int | Long.

Definition ScalarType_eqb (a b : ScalarType) : bool :=
  match a, b with
  | Byte, Byte | Char, Char | Short, Short | Int, Int | Long, Long => true
  | _, _ => false
  end.

(** [elementSize]: [sizeof] of the C++ type behind the tag, as a count of bytes. *)
Definition elementSizeNat (t : ScalarType) : nat :=
  match t with
  | Byte => 1 | Char => 1 | Short => 2 | Int => 4 | Long => 8
  end%nat.

Definition elementSize (t : ScalarType) : Z := Z.of_nat (elementSizeNat t).

Definition is_signed (t : ScalarType) : bool :=
  match t with Byte => false | _ => true end.

Definition bits (t : ScalarType) : Z := 8 * elementSize t.

(** Two's complement wrap-around to [w] bits. *)
Definition wrap_unsigned (w v : Z) : Z := v mod 2 ^ w.
Definition wrap_signed (w v : Z) : Z := (v + 2 ^ (w - 1)) mod 2 ^ w - 2 ^ (w - 1).

Definition to_int32 (v : Z) : Z := wrap_signed 32 v.
Definition to_uint32 (v : Z) : Z := wrap_unsigned 32 v.

Definition INT32_MAX : Z := 2147483647.

(** [static_cast<dst>(v)] between the integral types: the value modulo
    [2^bits], read back in the signedness of [dst]. *)
Definition static_cast (dst : ScalarType) (v : Z) : Z :=
  if is_signed dst then wrap_signed (bits dst) v else wrap_unsigned (bits dst) v.

(** ** Byte-addressed memory

    One address space for host and device pointers (unified virtual
    addressing); where an operand lives is a flag of its descriptor.  Bytes
    are little-endian, as on the device. *)

Definition memory : Type := Z -> Z.

Definition upd (m : memory) (a b : Z) : memory :=
  fun x => if x =? a then b else m x.

(** Little-endian read of [n] bytes starting at [a]. *)
Fixpoint le_decode (m : memory) (a : Z) (n : nat) : Z :=
  match n with
  | O => 0
  | S n' => m a mod 256 + 256 * le_decode m (a + 1) n'
  end.

(** Little-endian write of the [n] low bytes of [v] starting at [a]. *)
Fixpoint le_encode (m : memory) (a : Z) (n : nat) (v : Z) : memory :=
  match n with
  | O => m
  | S n' => le_encode (upd m a (v mod 256)) (a + 1) n' (v / 256)
  end.

(** [*(T* )p] as an rvalue and [*(T* )p = v]. *)
Definition load (t : ScalarType) (m : memory) (p : Z) : Z :=
  static_cast t (le_decode m p (elementSizeNat t)).

Definition store (t : ScalarType) (m : memory) (p v : Z) : memory :=
  le_encode m p (elementSizeNat t) v.

(** Two byte ranges [p, p+n) and [q, q+k) do not meet. *)
Definition disjoint (p n q k : Z) : Prop := p + n <= q \/ q + k <= p.

Definition disjointb (p n q k : Z) : bool := (p + n <=? q) || (q + k <=? p).

(** ** Host and device state *)

Inductive Access : Type :=
| Rd (p : Z) (t : ScalarType)
| Wr (p : Z) (t : ScalarType).

(** One kernel enqueued on the current stream: [<<<grid, block>>>] and the
    element count passed to it. *)
Record Launch : Type := mkLaunch { l_grid : Z; l_block : Z; l_N : Z }.

Record State : Type := mkState {
  mem : memory;
  trace : list Access;
  stream : list Launch
}.

(** Computations: [None] is a failed assertion ([TORCH_INTERNAL_ASSERT]),
    which leaves the state as it was when the assertion was reached. *)
Definition M (A : Type) : Type := State -> option A * State.

Definition ret {A} (a : A) : M A := fun s => (Some a, s).

Definition bind {A B} (c : M A) (k : A -> M B) : M B :=
  fun s => match c s with
           | (Some a, s') => k a s'
           | (None, s') => (None, s')
           end.

Definition assert (b : bool) : M unit :=
  fun s => if b then (Some tt, s) else (None, s).

Notation "x <- c ;; k" := (bind c (fun x => k))
  (at level 61, c at next level, right associativity).
Notation "c ;;; k" := (bind c (fun _ => k))
  (at level 61, right associativity).

Definition load_m (t : ScalarType) (p : Z) : M Z :=
  fun s => (Some (load t (mem s) p),
            mkState (mem s) (trace s ++ [Rd p t]) (stream s)).

Definition store_m (t : ScalarType) (p v : Z) : M unit :=
  fun s => (Some tt,
            mkState (store t (mem s) p v) (trace s ++ [Wr p t]) (stream s)).

Definition enqueue (l : Launch) : M unit :=
  fun s => (Some tt, mkState (mem s) (trace s) (stream s ++ [l])).

(** Sequencing a list of computations: used for unrolled loops and for the
    threads of a launch. *)
Fixpoint for_each {A} (l : list A) (body : A -> M unit) : M unit :=
  match l with
  | [] => ret tt
  | a :: l' => body a ;;; for_each l' body
  end.

Fixpoint map_m {A B} (l : list A) (body : A -> M B) : M (list B) :=
  match l with
  | [] => ret []
  | a :: l' => b <- body a ;; bs <- map_m l' body ;; ret (b :: bs)
  end.

(** ** Function signature traits

    [function_traits<func_t>]: the static argument types, the static result
    type, and the callable itself on mathematical integers.  A call converts
    what the body computes to the static result type. *)
Record func_t : Type := mkFunc {
  arg_types : list ScalarType;
  result_type : ScalarType;
  body : list Z -> Z
}.

Definition arity (f : func_t) : nat := length (arg_types f).

Definition arg (f : func_t) (I : nat) : ScalarType := nth I (arg_types f) Byte.

Definition call (f : func_t) (args : list Z) : Z :=
  static_cast (result_type f) (body f args).

(** Modelled from the spec: [c10::fetch_and_cast] and [c10::cast_and_store]
    (c10/util/TypeCast.h) are not part of the sources at hand.  Section 4.2
    gives them the conversion semantics of a static cast between the two
    scalar types, the stored type being selected by the runtime tag. *)
Definition fetch_and_cast (dest_t src_type : ScalarType) (p : Z) : M Z :=
  v <- load_m src_type p ;; ret (static_cast dest_t v).

Definition cast_and_store (src_t dest_type : ScalarType) (p value : Z) : M unit :=
  store_m dest_type p (static_cast dest_type (static_cast src_t value)).

(** The integer type of strides and offsets handed to [invoke]: [int] for
    the collapsed one-dimensional profile, [uint32_t] for the offsets of the
    offset calculator. *)
Inductive index_t : Type := int_t | uint32_t.

Definition index_wrap (ix : index_t) (v : Z) : Z :=
  match ix with int_t => to_int32 v | uint32_t => to_uint32 v end.

(** ** The iterator descriptor

    [TensorIterator] (ATen/native/TensorIterator.h) is an external
    collaborator; its sources are not at hand.  The record holds what the
    dispatch code reads from it, and each query below follows the iterator
    interface of section 6 of the specification. *)
Record OperandInfo : Type := mkOperand {
  op_data : Z;                 (* data_ptr: address of element 0 *)
  stride_bytes : list Z;       (* byte stride per dimension *)
  op_dtype : ScalarType;       (* tensor(i).scalar_type() *)
  op_is_cuda : bool            (* device(i).is_cuda() *)
}.

(** Dimension 0 is the fastest-varying one.  Whether dynamic casting is
    required is decided by the type-promotion rules of the iterator, which
    are out of scope: it is a field of the descriptor. *)
Record TensorIterator : Type := mkIter {
  shape : list Z;
  operands : list OperandInfo;
  needs_dynamic_casting : bool
}.

Definition dummy_operand : OperandInfo := mkOperand 0 [] Byte false.

Definition ntensors (it : TensorIterator) : nat := length (operands it).
Definition ndim (it : TensorIterator) : nat := length (shape it).
Definition numel (it : TensorIterator) : Z := fold_right Z.mul 1 (shape it).
Definition operand (it : TensorIterator) (i : nat) : OperandInfo :=
  nth i (operands it) dummy_operand.
Definition data_ptr (it : TensorIterator) (i : nat) : Z := op_data (operand it i).
Definition strides (it : TensorIterator) (i : nat) : list Z :=
  stride_bytes (operand it i).
Definition dtype (it : TensorIterator) (i : nat) : ScalarType :=
  op_dtype (operand it i).

(** Modelled from the spec: [is_one_dimensional()], the iteration space has
    exactly one dimension. *)
Definition is_trivial_1d (it : TensorIterator) : bool := Nat.eqb (ndim it) 1.

(** Modelled from the spec: the per-operand scalar strides of the collapsed
    one-dimensional profile, the byte stride along dimension 0. *)
Definition get_inner_strides (it : TensorIterator) : list Z :=
  map (fun op => nth 0%nat (stride_bytes op) 0) (operands it).

(** Modelled from the spec: [has_contiguous_first_dimension()], "the first
    dimension is contiguous and fully packed for every operand": the byte
    stride along it equals the element size. *)
Definition has_contiguous_first_dim (it : TensorIterator) : bool :=
  forallb (fun op => nth 0%nat (stride_bytes op) 0 =? elementSize (op_dtype op))
          (operands it).

(** Largest byte offset of an operand, plus one. *)
Fixpoint max_offset (sh st : list Z) : Z :=
  match sh, st with
  | n :: sh', s :: st' => (n - 1) * s + max_offset sh' st'
  | _, _ => 1
  end.

(** Modelled from the spec: [fits_native_index_width()], "the total element
    count fits the signed 32-bit range". *)
Definition can_use_32bit_indexing (it : TensorIterator) : bool :=
  numel it <=? INT32_MAX.

(** Modelled from the spec: [is_host_resident_scalar(operand)]: the operand
    lives on the host and is broadcast along every dimension. *)
Definition is_cpu_scalar (it : TensorIterator) (i : nat) : bool :=
  negb (op_is_cuda (operand it i))
  && forallb (fun ns => (fst ns =? 1) || (snd ns =? 0))
             (combine (shape it) (strides it i)).

(** Modelled from the spec: [read_scalar_value(operand)], the value of the
    scalar converted to the requested static type. *)
Definition scalar_value (T : ScalarType) (it : TensorIterator) (i : nat) : M Z :=
  fetch_and_cast T (dtype it i) (data_ptr it i).

Fixpoint remove_nth {A} (i : nat) (l : list A) : list A :=
  match i, l with
  | _, [] => []
  | O, _ :: l' => l'
  | S i', a :: l' => a :: remove_nth i' l'
  end.

(** Modelled from the spec: [drop_operand(operand)]. *)
Definition remove_operand (it : TensorIterator) (i : nat) : TensorIterator :=
  mkIter (shape it) (remove_nth i (operands it)) (needs_dynamic_casting it).

(** ** Offset calculator *)

(** Modelled from the spec: [OffsetCalculator]
    (ATen/cuda/detail/OffsetCalculator.cuh) is not part of the sources at
    hand.  Section 4.1: the linear index is decomposed into one coordinate
    per dimension using the extents, and every operand accumulates
    [coordinate[d] * stride[operand][d]] over the dimensions.  The first
    dimension is the fastest-varying one (section 4.5 and the glossary), so
    it takes the remainder first; the table entries and the offsets have the
    native unsigned 32-bit index type. *)
Record OffsetCalculator : Type := mkOffsetCalculator {
  oc_sizes : list Z;            (* extent per dimension *)
  oc_strides : list (list Z)    (* per dimension, the stride of every operand *)
}.

Fixpoint offset_loop (sizes : list Z) (strs : list (list Z))
    (linear_idx : Z) (offsets : list Z) : list Z :=
  match sizes, strs with
  | sz :: sizes', st :: strs' =>
      offset_loop sizes' strs' (linear_idx / sz)
        (map (fun os => to_uint32 (fst os + to_uint32 (linear_idx mod sz * snd os)))
             (combine offsets st))
  | _, _ => offsets
  end.

Definition offset_get (oc : OffsetCalculator) (nargs : nat) (linear_idx : Z) : list Z :=
  offset_loop (oc_sizes oc) (oc_strides oc) (to_uint32 linear_idx) (repeat 0 nargs).

(** The order in which the device runs the threads of a launch:
    [sched grid block] lists the pairs (blockIdx.x, threadIdx.x).  Threads
    are run one after another; CUDA promises no particular order. *)
Definition Schedule : Type := Z -> Z -> list (Z * Z).

Definition zseq (n : Z) : list Z := map Z.of_nat (seq 0 (Z.to_nat n)).

Definition threads (grid block : Z) : list (Z * Z) :=
  flat_map (fun b => map (fun t => (b, t)) (zseq block)) (zseq grid).

(** [kernel<<<grid, block, 0, stream>>>(...)]: the launch is recorded on the
    stream and every thread of the grid runs the kernel body.

    The CUDA runtime is not part of the sources at hand, and the state has
    no error status for it: the runtime is taken to accept every launch.
    [AT_CUDA_CHECK(cudaGetLastError())], which follows the launch in both
    [launch_kernel]s and throws what the runtime reports, therefore has no
    counterpart below.  What is proved about a normal return is proved of
    the assertions of this file, under a runtime that reports no error. *)
Definition run_grid (sched : Schedule) (grid block N : Z)
    (kernel : Z -> Z -> M unit) : M unit :=
  enqueue (mkLaunch grid block N) ;;;
  for_each (sched grid block) (fun bt => kernel (fst bt) (snd bt)).

Definition launch_size_1d : Z := 512.
Definition launch_size_nd : Z := 128.
Definition launch_bound2 : Z := 4.

(** [C10_WARP_SIZE] (c10/macros/Macros.h) for CUDA devices. *)
Definition C10_WARP_SIZE : Z := 32.

(** ** namespace legacy *)
Module legacy.

(** The unrolled loop of [elementwise_kernel]: [idx] advances by [nt] only
    after an element below [N] was processed. *)
Fixpoint elementwise_kernel_loop (nt N : Z) (f : Z -> M unit)
    (vt : nat) (idx : Z) : M unit :=
  match vt with
  | O => ret tt
  | S vt' =>
      if idx <? N
      then f idx ;;; elementwise_kernel_loop nt N f vt' (to_int32 (idx + nt))
      else elementwise_kernel_loop nt N f vt' idx
  end.

Definition elementwise_kernel (nt vt N : Z) (f : Z -> M unit)
    (blockIdx threadIdx : Z) : M unit :=
  let tid := threadIdx in
  let nv := to_int32 (nt * vt) in
  let idx := to_int32 (to_uint32 (nv * blockIdx + tid)) in
  elementwise_kernel_loop nt N f (Z.to_nat vt) idx.

Definition launch_kernel (sched : Schedule) (nt vt N : Z)
    (f : Z -> M unit) : M unit :=
  assert ((0 <=? N) && (N <=? INT32_MAX)) ;;;
  if N =? 0 then ret tt
  else
    let block := nt in
    let grid := to_uint32 ((N + to_uint32 (block * vt) - 1) / to_uint32 (block * vt)) in
    run_grid sched grid block N (elementwise_kernel nt vt (to_int32 N) f).

(** [invoke] without casting: argument [I] is read at
    [data[I] + i * strides[I]] as the static type of the argument.

    The reads are the operands of the one call [f(...)], and C++ does not
    fix the order in which they are evaluated.  Here, and in the three
    adapters that follow, they are listed in argument order; the values do
    not depend on the order, and what is stated about the accesses of a
    thread or of a dispatch is stated up to it. *)
Definition invoke (ix : index_t) (f : func_t) (data strides : list Z)
    (i : Z) : M Z :=
  args <- map_m (seq 0 (arity f))
            (fun I => load_m (arg f I)
                        (nth I data 0 + index_wrap ix (i * nth I strides 0))) ;;
  ret (call f args).

(** [invoke] with dynamic casting: argument [I] is fetched as the stored
    type [dtypes[I]] and converted to the static type of the argument. *)
Definition invoke_cast (ix : index_t) (f : func_t) (data strides : list Z)
    (dtypes : list ScalarType) (i : Z) : M Z :=
  args <- map_m (seq 0 (arity f))
            (fun I => fetch_and_cast (arg f I) (nth I dtypes Byte)
                        (nth I data 0 + index_wrap ix (i * nth I strides 0))) ;;
  ret (call f args).

(** [invoke_with_index]: the last argument of [f] is the linear index. *)
Definition invoke_with_index (ix : index_t) (f : func_t) (data strides : list Z)
    (i idx : Z) : M Z :=
  args <- map_m (seq 0 (arity f - 1))
            (fun I => load_m (arg f I)
                        (nth I data 0 + index_wrap ix (i * nth I strides 0))) ;;
  ret (call f (args ++ [static_cast (arg f (arity f - 1)) idx])).

Definition invoke_with_index_cast (ix : index_t) (f : func_t)
    (data strides : list Z) (dtypes : list ScalarType) (i idx : Z) : M Z :=
  args <- map_m (seq 0 (arity f - 1))
            (fun I => fetch_and_cast (arg f I) (nth I dtypes Byte)
                        (nth I data 0 + index_wrap ix (i * nth I strides 0))) ;;
  ret (call f (args ++ [static_cast (arg f (arity f - 1)) idx])).

(** [legacy::make_offset_calculator<N>]. *)
Definition make_offset_calculator (N : nat) (it : TensorIterator) : M OffsetCalculator :=
  assert (Nat.eqb N (ntensors it)) ;;;
  ret (mkOffsetCalculator
         (map to_uint32 (shape it))
         (map (fun d => map (fun i => to_uint32 (nth d (strides it i) 0)) (seq 0 N))
              (seq 0 (ndim it)))).

End legacy.

(** ** namespace modern *)
Module modern.

(** [detail::invoke_with_array]: [f(t[I]...)], each array element converted
    to the static type of the parameter it is bound to. *)
Definition invoke_with_array (f : func_t) (a : list Z) : Z :=
  call f (map (fun I => static_cast (arg f I) (nth I a 0)) (seq 0 (arity f))).

(** [detail::arg_type::type<func_t>]: the type of the first argument; for a
    nullary function a type nobody looks at. *)
Definition arg_type (f : func_t) : ScalarType := arg f 0.

(** The kernel body of one thread: base pointers, then the three guarded
    passes (fetch, compute, store) over the [vt] elements of the thread.
    An array slot that the guard skips keeps the value 0, which stands for
    the indeterminate content of the uninitialised local arrays. *)
Definition elementwise_kernel (nt vt N : Z) (f : func_t) (data : list Z)
    (blockIdx threadIdx : Z) : M unit :=
  let return_t := result_type f in
  let arg_t := arg_type f in
  let tid := threadIdx in
  let nv := to_int32 (nt * vt) in
  let idx := to_int32 (to_uint32 (nv * blockIdx + tid)) in
  let result_base := nth 0%nat data 0 + idx * elementSize return_t in
  let args_base :=
    map (fun i => nth (i + 1) data 0 + idx * elementSize arg_t)
        (seq 0 (arity f)) in
  args <- map_m (zseq vt)
            (fun i =>
               if to_int32 (idx + to_int32 (nt * i)) <? N
               then map_m (seq 0 (arity f))
                      (fun j => load_m arg_t
                                  (nth j args_base 0
                                   + to_int32 (i * nt) * elementSize arg_t))
               else ret (repeat 0 (arity f))) ;;
  let results :=
    map (fun ia =>
           if to_int32 (idx + to_int32 (nt * fst ia)) <? N
           then invoke_with_array f (snd ia)
           else 0)
        (combine (zseq vt) args) in
  for_each (combine (zseq vt) results)
    (fun ir =>
       if to_int32 (idx + to_int32 (nt * fst ir)) <? N
       then store_m return_t
              (result_base + to_int32 (fst ir * nt) * elementSize return_t)
              (snd ir)
       else ret tt).

Definition launch_kernel (sched : Schedule) (nt vt N : Z) (f : func_t)
    (data : list Z) : M unit :=
  assert ((0 <=? N) && (N <=? INT32_MAX)) ;;;
  if N =? 0 then ret tt
  else
    let block := nt in
    let grid := to_uint32 ((N + to_uint32 (block * vt) - 1) / to_uint32 (block * vt)) in
    run_grid sched grid block N (elementwise_kernel nt vt (to_int32 N) f data).

End modern.

(** ** The device lambdas of [gpu_kernel_impl]

    The four [[=]GPU_LAMBDA(int idx) {...}] closures, named after the profile
    they serve; [data], [strides], [dtypes] and [offset_calc] are the
    captured arrays. *)
Definition lambda_1d_cast (f : func_t) (data strides : list Z)
    (dtypes : list ScalarType) (idx : Z) : M unit :=
  let out := nth 0%nat data 0 + to_int32 (nth 0%nat strides 0 * idx) in
  result <- legacy.invoke_cast int_t f (tl data) (tl strides) (tl dtypes) idx ;;
  cast_and_store (result_type f) (nth 0%nat dtypes Byte) out result.

Definition lambda_1d (f : func_t) (data strides : list Z) (idx : Z) : M unit :=
  let out := nth 0%nat data 0 + to_int32 (nth 0%nat strides 0 * idx) in
  result <- legacy.invoke int_t f (tl data) (tl strides) idx ;;
  store_m (result_type f) out result.

Definition lambda_nd_cast (f : func_t) (data : list Z)
    (dtypes : list ScalarType) (offset_calc : OffsetCalculator) (idx : Z) : M unit :=
  let offsets := offset_get offset_calc (length data) idx in
  let out := nth 0%nat data 0 + nth 0%nat offsets 0 in
  result <- legacy.invoke_cast uint32_t f (tl data) (tl offsets) (tl dtypes) 1 ;;
  cast_and_store (result_type f) (nth 0%nat dtypes Byte) out result.

Definition lambda_nd (f : func_t) (data : list Z)
    (offset_calc : OffsetCalculator) (idx : Z) : M unit :=
  let offsets := offset_get offset_calc (length data) idx in
  let out := nth 0%nat data 0 + nth 0%nat offsets 0 in
  result <- legacy.invoke uint32_t f (tl data) (tl offsets) 1 ;;
  store_m (result_type f) out result.

(** ** The dispatch entry points *)

Section Dispatch.

Variable sched : Schedule.

(** Modelled from the spec: [split_into_range_limited_subspaces()]
    ([with_32bit_indexing]) yields a finite sequence of sub-descriptors.  How
    the space is cut is the iterator's business; the dispatch code only
    walks the sequence. *)
Variable with_32bit_indexing : TensorIterator -> list TensorIterator.

Definition gpu_kernel_impl (it : TensorIterator) (f : func_t) : M unit :=
  let ntensors_ := (arity f + 1)%nat in
  assert (can_use_32bit_indexing it) ;;;
  assert (Nat.eqb (ntensors it) (arity f + 1)) ;;;
  let data := map (data_ptr it) (seq 0 ntensors_) in
  let dtypes := map (dtype it) (seq 0 ntensors_) in
  let numel := numel it in
  if is_trivial_1d it then
    let inner_strides := get_inner_strides it in
    let strides := map (fun i => to_int32 (nth i inner_strides 0)) (seq 0 ntensors_) in
    if needs_dynamic_casting it then
      legacy.launch_kernel sched launch_size_1d 1 numel
        (lambda_1d_cast f data strides dtypes)
    else if has_contiguous_first_dim it then
      modern.launch_kernel sched (C10_WARP_SIZE * 2) 4 numel f data
    else
      legacy.launch_kernel sched launch_size_1d 1 numel
        (lambda_1d f data strides)
  else
    offset_calc <- legacy.make_offset_calculator (arity f + 1) it ;;
    if needs_dynamic_casting it then
      legacy.launch_kernel sched launch_size_nd launch_bound2 numel
        (lambda_nd_cast f data dtypes offset_calc)
    else
      legacy.launch_kernel sched launch_size_nd launch_bound2 numel
        (lambda_nd f data offset_calc).

(** The loop of assertions that every operand lives on the device. *)
Definition assert_all_cuda (it : TensorIterator) : M unit :=
  for_each (seq 0 (ntensors it)) (fun arg => assert (op_is_cuda (operand it arg))).

(** [gpu_kernel] calls itself on every sub-iterator; [fuel] bounds the depth
    of that recursion, and running out of it is reported as [None]. *)
Fixpoint gpu_kernel (fuel : nat) (it : TensorIterator) (f : func_t) : M unit :=
  match fuel with
  | O => fun s => (None, s)
  | S fuel' =>
      assert_all_cuda it ;;;
      if numel it =? 0 then ret tt
      else if negb (can_use_32bit_indexing it) then
        for_each (with_32bit_indexing it) (fun sub_iter => gpu_kernel fuel' sub_iter f)
      else gpu_kernel_impl it f
  end.

(** The closures [[=](arg2_t b) { return f(a, b); }] and
    [[=](arg1_t a) { return f(a, b); }]. *)
Definition bind_first (f : func_t) (a : Z) : func_t :=
  mkFunc [arg f 1] (result_type f) (fun bs => call f [a; nth 0%nat bs 0]).

Definition bind_second (f : func_t) (b : Z) : func_t :=
  mkFunc [arg f 0] (result_type f) (fun xs => call f [nth 0%nat xs 0; b]).

(** [gpu_kernel_with_scalars].  The [static_assert] on the arity is a
    compile-time condition; here a function of another arity fails like an
    assertion. *)
Definition gpu_kernel_with_scalars (fuel : nat) (it : TensorIterator)
    (f : func_t) : M unit :=
  assert (Nat.eqb (ntensors it) 3) ;;;
  assert (Nat.eqb (arity f) 2) ;;;
  if is_cpu_scalar it 1 then
    a <- scalar_value (arg f 0) it 1 ;;
    gpu_kernel fuel (remove_operand it 1) (bind_first f a)
  else if is_cpu_scalar it 2 then
    b <- scalar_value (arg f 1) it 2 ;;
    gpu_kernel fuel (remove_operand it 2) (bind_second f b)
  else gpu_kernel fuel it f.

Definition gpu_kernel_with_index_impl (it : TensorIterator) (f : func_t) : M unit :=
  let ntensors_ := arity f in
  assert (Nat.eqb (ntensors it) (arity f)) ;;;
  let data := map (data_ptr it) (seq 0 ntensors_) in
  let dtypes := map (dtype it) (seq 0 ntensors_) in
  let numel := numel it in
  if is_trivial_1d it then
    let inner_strides := get_inner_strides it in
    let strides := map (fun i => to_int32 (nth i inner_strides 0)) (seq 0 ntensors_) in
    if needs_dynamic_casting it then
      legacy.launch_kernel sched launch_size_1d 1 numel (fun idx =>
        let out := nth 0%nat data 0 + to_int32 (nth 0%nat strides 0 * idx) in
        result <- legacy.invoke_with_index_cast int_t f (tl data) (tl strides)
                    (tl dtypes) idx idx ;;
        cast_and_store (result_type f) (nth 0%nat dtypes Byte) out result)
    else
      legacy.launch_kernel sched launch_size_1d 1 numel (fun idx =>
        let out := nth 0%nat data 0 + to_int32 (nth 0%nat strides 0 * idx) in
        result <- legacy.invoke_with_index int_t f (tl data) (tl strides) idx idx ;;
        store_m (result_type f) out result)
  else
    offset_calc <- legacy.make_offset_calculator (arity f) it ;;
    if needs_dynamic_casting it then
      legacy.launch_kernel sched launch_size_nd launch_bound2 numel (fun idx =>
        let offsets := offset_get offset_calc ntensors_ idx in
        let out := nth 0%nat data 0 + nth 0%nat offsets 0 in
        result <- legacy.invoke_with_index_cast uint32_t f (tl data) (tl offsets)
                    (tl dtypes) 1 idx ;;
        cast_and_store (result_type f) (nth 0%nat dtypes Byte) out result)
    else
      legacy.launch_kernel sched launch_size_nd launch_bound2 numel (fun idx =>
        let offsets := offset_get offset_calc ntensors_ idx in
        let out := nth 0%nat data 0 + nth 0%nat offsets 0 in
        result <- legacy.invoke_with_index uint32_t f (tl data) (tl offsets) 1 idx ;;
        store_m (result_type f) out result).

Definition gpu_kernel_with_index (it : TensorIterator) (f : func_t) : M unit :=
  assert_all_cuda it ;;;
  if numel it =? 0 then ret tt
  else
    assert (can_use_32bit_indexing it) ;;;
    gpu_kernel_with_index_impl it f.

End Dispatch.

(** ** Logical positions and the pointwise result

    What the specification calls the value of the function applied pointwise
    to the broadcasted inputs.  Offsets are exact here: no fixed-width
    arithmetic. *)

(** Byte offset of linear index [idx]: coordinate [d] times stride [d],
    dimension 0 varying fastest. *)
Fixpoint byte_offset (sh st : list Z) (idx : Z) : Z :=
  match sh, st with
  | n :: sh', s :: st' => idx mod n * s + byte_offset sh' st' (idx / n)
  | _, _ => 0
  end.

Definition operand_addr (it : TensorIterator) (k : nat) (idx : Z) : Z :=
  data_ptr it k + byte_offset (shape it) (strides it k) idx.

(** A cell: the addresses of the elements of all operands at one logical
    position, the output first. *)
Definition cell (it : TensorIterator) (idx : Z) : list Z :=
  map (fun k => operand_addr it k idx) (seq 0 (ntensors it)).

Definition cells (it : TensorIterator) : list (list Z) :=
  map (cell it) (zseq (numel it)).

Definition dtypes (it : TensorIterator) : list ScalarType :=
  map op_dtype (operands it).

(** The value a position receives: every input element converted from its
    stored type to the static argument type, the function applied, the
    result converted to the stored type of the output. *)
Definition cell_value (f : func_t) (dts : list ScalarType) (c : list Z)
    (m : memory) : Z :=
  static_cast (nth 0%nat dts Byte)
    (call f (map (fun I => static_cast (arg f I)
                              (load (nth (S I) dts Byte) m (nth (S I) c 0)))
                 (seq 0 (arity f)))).

Definition write_cell (f : func_t) (dts : list ScalarType) (m0 m : memory)
    (c : list Z) : memory :=
  store (nth 0%nat dts Byte) m (nth 0%nat c 0) (cell_value f dts c m0).

(** Pointwise application over a list of cells: every position computes from
    the memory [m0] the dispatch started with. *)
Definition pointwise (f : func_t) (dts : list ScalarType) (C : list (list Z))
    (m0 : memory) : memory :=
  fold_left (write_cell f dts m0) C m0.

(** The hypothetical single dispatch over the whole space, without an index
    width: the positions are processed one after another, each reading the
    memory as it is when its turn comes. *)
Definition unsplit_dispatch (it : TensorIterator) (f : func_t) (m : memory) : memory :=
  fold_left (fun m' c => write_cell f (dtypes it) m' m' c) (cells it) m.

(** A batch of cells processed by one thread: all values are computed from
    the memory at the start of the batch, then all are written. *)
Definition batch_step (f : func_t) (dts : list ScalarType) (m : memory)
    (l : list (list Z)) : memory :=
  fold_left (write_cell f dts m) l m.

Definition run_batches (f : func_t) (dts : list ScalarType)
    (P : list (list (list Z))) (m : memory) : memory :=
  fold_left (batch_step f dts) P m.

(** The element indices a thread of [legacy::elementwise_kernel] and of
    [modern::elementwise_kernel] works on. *)
Fixpoint owned_loop (nt N : Z) (vt : nat) (idx : Z) : list Z :=
  match vt with
  | O => []
  | S vt' =>
      if idx <? N then idx :: owned_loop nt N vt' (to_int32 (idx + nt))
      else owned_loop nt N vt' idx
  end.

Definition owned (nt vt N blockIdx threadIdx : Z) : list Z :=
  owned_loop nt N (Z.to_nat vt)
    (to_int32 (to_uint32 (to_int32 (nt * vt) * blockIdx + threadIdx))).

(** The static types of a function, laid out like the [dtypes] array: the
    result type first. *)
Definition static_types (f : func_t) : list ScalarType := result_type f :: arg_types f.

(** The addresses a device lambda computes for linear index [idx]: in the
    collapsed one-dimensional profile from the [int] strides, in the
    multi-dimensional profile from the offsets of the calculator. *)
Definition cell_1d (data strides : list Z) (idx : Z) (n : nat) : list Z :=
  map (fun k => nth k data 0 + to_int32 (nth k strides 0 * idx)) (seq 0 n).

Definition cell_nd (data : list Z) (oc : OffsetCalculator) (idx : Z) : list Z :=
  map (fun k => nth k data 0 + nth k (offset_get oc (length data) idx) 0)
      (seq 0 (length data)).

(** The reads of the inputs of a cell, in argument order. *)
Definition read_events (ts : list ScalarType) (c : list Z) (n : nat) : list Access :=
  map (fun I => Rd (nth (S I) c 0) (nth (S I) ts Byte)) (seq 0 n).

(** A computation returns normally and every access it adds to the trace
    satisfies [P]. *)
Definition emits {A} (P : Access -> Prop) (c : M A) : Prop :=
  forall s, exists a s' tr,
    c s = (Some a, s') /\ trace s' = trace s ++ tr /\ Forall P tr.

(** The first element index of a thread and the element index it computes
    for its slot [i]. *)
Definition thread_base (nt vt blockIdx threadIdx : Z) : Z :=
  to_int32 (to_uint32 (to_int32 (nt * vt) * blockIdx + threadIdx)).

Definition slot_index (nt idx i : Z) : Z := to_int32 (idx + to_int32 (nt * i)).

(** An access of the vectorized kernel that belongs to a slot whose element
    index is below [N]: the read of an argument or the write of the result
    of that slot. *)
Definition masked_access (nt vt N : Z) (f : func_t) (data : list Z) (idx : Z)
    (a : Access) : Prop :=
  exists i, In i (zseq vt) /\ slot_index nt idx i < N /\
    (a = Wr (nth 0%nat data 0 + idx * elementSize (result_type f)
             + to_int32 (i * nt) * elementSize (result_type f)) (result_type f)
     \/ exists j, (j < arity f)%nat
          /\ a = Rd (nth (S j) data 0 + idx * elementSize (modern.arg_type f)
                     + to_int32 (i * nt) * elementSize (modern.arg_type f))
                    (modern.arg_type f)).

(** Cell [c] keeps clear of the output element of cell [c']: neither its
    output element nor any of its input elements meets it. *)
Definition sep (f : func_t) (dts : list ScalarType) (c c' : list Z) : Prop :=
  disjoint (nth 0%nat c 0) (elementSize (nth 0%nat dts Byte))
           (nth 0%nat c' 0) (elementSize (nth 0%nat dts Byte))
  /\ forall I, (I < arity f)%nat ->
       disjoint (nth (S I) c 0) (elementSize (nth (S I) dts Byte))
                (nth 0%nat c' 0) (elementSize (nth 0%nat dts Byte)).

(** No two cells of the list interfere. *)
Definition independent (f : func_t) (dts : list ScalarType) (C : list (list Z)) : Prop :=
  NoDup C /\ forall c c', In c C -> In c' C -> c <> c' -> sep f dts c c'.

(** Memory after the cells of [C] were written onto [acc], each value
    computed from [m0]. *)
Definition writes_from (f : func_t) (dts : list ScalarType) (m0 acc : memory)
    (C : list (list Z)) : memory :=
  fold_left (write_cell f dts m0) C acc.

(** What the kernels expect of the descriptor of one launch: positive
    extents, and for every operand one non-negative byte stride per
    dimension and a largest byte offset that the 32-bit index arithmetic of
    the kernels can hold. *)
Definition well_formed (it : TensorIterator) : bool :=
  forallb (fun n => 0 <? n) (shape it)
  && forallb (fun op => Nat.eqb (length (stride_bytes op)) (ndim it)
                        && forallb (fun s => 0 <=? s) (stride_bytes op)
                        && (max_offset (shape it) (stride_bytes op) <=? INT32_MAX))
             (operands it).

(** A computation that returns normally, changes the memory by [g] and
    leaves the stream alone. *)
Definition transforms (c : M unit) (g : memory -> memory) : Prop :=
  forall s, fst (c s) = Some tt
            /\ mem (snd (c s)) = g (mem s)
            /\ stream (snd (c s)) = stream s.

(** A computation that only reads: it returns [v] of the memory. *)
Definition reads_only {A} (c : M A) (v : memory -> A) : Prop :=
  forall s, fst (c s) = Some (v (mem s))
            /\ mem (snd (c s)) = mem s
            /\ stream (snd (c s)) = stream s.

(** The cell of element [e] when every operand is packed: element sizes of
    the static result type and of the static argument type. *)
Definition cell_packed (f : func_t) (data : list Z) (e : Z) : list Z :=
  map (fun k => nth k data 0
                + e * elementSize (match k with
                                   | O => result_type f
                                   | S _ => modern.arg_type f
                                   end))
      (seq 0 (S (arity f))).

(** All arguments of [f] have the type of the first one: assumption 1 of
    [modern::elementwise_kernel]. *)
Definition same_arg_types (f : func_t) : bool :=
  forallb (fun t => ScalarType_eqb t (modern.arg_type f)) (arg_types f).

(** The device runs every thread of the grid exactly once, in some order. *)
Definition fair (sched : Schedule) : Prop :=
  forall grid block, Permutation (sched grid block) (threads grid block).

(** The dispatch selects the vectorized kernel. *)
Definition takes_vectorized_path (it : TensorIterator) : bool :=
  is_trivial_1d it && negb (needs_dynamic_casting it) && has_contiguous_first_dim it.

(** The element types the selected adapter reads and writes with. *)
Definition kernel_dtypes (it : TensorIterator) (f : func_t) : list ScalarType :=
  if needs_dynamic_casting it then dtypes it else static_types f.

(** Distinct logical positions do not interfere: the output element of one
    meets neither the output element nor an input element of the other. *)
Definition no_interference (f : func_t) (it : TensorIterator) : Prop :=
  forall i j, 0 <= i < numel it -> 0 <= j < numel it -> i <> j ->
    sep f (dtypes it) (cell it i) (cell it j).

(** What [gpu_kernel] needs of a sub-iterator of [it]: a well-formed
    descriptor within the index range, with the operands of [it]. *)
Definition sub_descriptor (it sub : TensorIterator) : Prop :=
  well_formed sub = true
  /\ can_use_32bit_indexing sub = true
  /\ dtypes sub = dtypes it
  /\ needs_dynamic_casting sub = needs_dynamic_casting it
  /\ forallb op_is_cuda (operands sub) = true.

(** A splitting of one-dimensional iterators, one of those the iterator may
    choose: the extent is cut in two, and the second part starts where the
    first one ends.  Other iterators are left whole. *)
Definition halve (it : TensorIterator) : list TensorIterator :=
  match shape it with
  | [n] =>
      let h := n / 2 in
      [mkIter [h] (operands it) (needs_dynamic_casting it);
       mkIter [n - h]
         (map (fun op => mkOperand (op_data op + h * nth 0%nat (stride_bytes op) 0)
                                   (stride_bytes op) (op_dtype op) (op_is_cuda op))
              (operands it))
         (needs_dynamic_casting it)]
  | _ => [it]
  end.

(** Decidable form of [sep] and of [no_interference], for descriptors small
    enough to enumerate. *)
Definition sepb (f : func_t) (dts : list ScalarType) (c c' : list Z) : bool :=
  disjointb (nth 0%nat c 0) (elementSize (nth 0%nat dts Byte))
            (nth 0%nat c' 0) (elementSize (nth 0%nat dts Byte))
  && forallb (fun I => disjointb (nth (S I) c 0) (elementSize (nth (S I) dts Byte))
                                 (nth 0%nat c' 0) (elementSize (nth 0%nat dts Byte)))
             (seq 0 (arity f)).

Definition no_interferenceb (f : func_t) (it : TensorIterator) : bool :=
  forallb (fun i =>
             forallb (fun j => (i =? j) || sepb f (dtypes it) (cell it i) (cell it j))
                     (zseq (numel it)))
          (zseq (numel it)).

(** The input slot that [gpu_kernel_with_scalars] lifts, if any. *)
Definition host_scalar_slot (it : TensorIterator) : option nat :=
  if is_cpu_scalar it 1 then Some 1%nat
  else if is_cpu_scalar it 2 then Some 2%nat
  else None.

Fixpoint replace_nth {A} (i : nat) (l : list A) (a : A) : list A :=
  match i, l with
  | _, [] => []
  | O, _ :: l' => a :: l'
  | S i', b :: l' => b :: replace_nth i' l' a
  end.

(** The iterator with operand [k] materialized on the device: a buffer at
    address [p] of the same element type, broadcast along every dimension. *)
Definition materialize (it : TensorIterator) (k : nat) (p : Z) : TensorIterator :=
  mkIter (shape it)
         (replace_nth k (operands it)
            (mkOperand p (repeat 0 (ndim it)) (dtype it k) true))
         (needs_dynamic_casting it).

(** The unary closure derived for slot [k]. *)
Definition lift (f : func_t) (k : nat) (v : Z) : func_t :=
  match k with
  | 1%nat => bind_first f v
  | _ => bind_second f v
  end.

(** The arithmetic progression of [k] indices starting at [idx] with step
    [nt]. *)
Fixpoint candidates (nt : Z) (k : nat) (idx : Z) : list Z :=
  match k with
  | O => []
  | S k' => idx :: candidates nt k' (idx + nt)
  end.

(** Consecutive elements owned by thread ([b], [t]) are [step] apart. *)
Definition stepped_by (nt vt N b t step : Z) : Prop :=
  forall pre x y post,
    owned nt vt N b t = pre ++ x :: y :: post -> y = x + step.

(** Number of groups of a launch over [N] elements. *)
Definition grid_of (nt vt N : Z) : Z := (N + nt * vt - 1) / (nt * vt).

(** The writes recorded in a trace. *)
Definition is_write (a : Access) : bool :=
  match a with Wr _ _ => true | Rd _ _ => false end.

Definition writes (tr : list Access) : list Access := filter is_write tr.

(** A computation that writes nothing and enqueues nothing. *)
Definition quiet (s s' : State) : Prop :=
  mem s' = mem s /\ stream s' = stream s /\ writes (trace s') = writes (trace s).

(** The iterator that [gpu_kernel_with_scalars] hands on to [gpu_kernel]:
    a host scalar in the first or else the second input slot is dropped. *)
Definition lifted (it : TensorIterator) : TensorIterator :=
  if is_cpu_scalar it 1 then remove_operand it 1
  else if is_cpu_scalar it 2 then remove_operand it 2
  else it.

(** ** Accesses, launch configuration, and the index-augmented closure *)

(** The accesses of one logical position: one read of every input element,
    then the write of the output element. *)
Definition cell_events (ts : list ScalarType) (c : list Z) (n : nat) : list Access :=
  read_events ts c n ++ [Wr (nth 0%nat c 0) (nth 0%nat ts Byte)].

(** The launch configuration [gpu_kernel_impl] selects: threads per block
    and elements per thread. *)
Definition launch_config (it : TensorIterator) : Z * Z :=
  if is_trivial_1d it then
    if needs_dynamic_casting it then (launch_size_1d, 1)
    else if has_contiguous_first_dim it then (C10_WARP_SIZE * 2, 4)
    else (launch_size_1d, 1)
  else (launch_size_nd, launch_bound2).

(** The closure one position of the index-augmented dispatch applies to its
    input elements: [f] with its last argument bound to the linear index,
    converted to the static type of that argument. *)
Definition bind_index (f : func_t) (idx : Z) : func_t :=
  mkFunc (removelast (arg_types f)) (result_type f)
         (fun args => body f (args ++ [static_cast (arg f (arity f - 1)) idx])).

(** Distinct logical positions do not interfere, whatever the function: the
    output element of one position meets no element, of any operand, of
    another position. *)
Definition positions_independent (it : TensorIterator) : Prop :=
  forall i j, 0 <= i < numel it -> 0 <= j < numel it -> i <> j ->
    forall k, (k < ntensors it)%nat ->
      disjoint (operand_addr it k i) (elementSize (dtype it k))
               (operand_addr it 0 j) (elementSize (dtype it 0)).

(** Decidable form of [positions_independent], for descriptors small enough
    to enumerate. *)
Definition positions_independentb (it : TensorIterator) : bool :=
  forallb (fun i =>
    forallb (fun j =>
      (i =? j)
      || forallb (fun k => disjointb (operand_addr it k i) (elementSize (dtype it k))
                                     (operand_addr it 0 j) (elementSize (dtype it 0)))
                 (seq 0 (ntensors it)))
      (zseq (numel it)))
    (zseq (numel it)).

(** ** torch::jit::pickle and pickle_stream *)
Module jit.

Section Pickle.

(** [Pickler] (torch/csrc/jit/pickler.h) is not part of the sources at hand.
    It is taken as given: a state built from the tensor table, and methods
    that each hand a sequence of byte chunks to the writer the pickler was
    built with, in order. *)
Variables IValue Tensor PicklerState : Type.
Variable new_Pickler : option (list Tensor) -> PicklerState.
Variables torchSaveStart protocol stop torchSaveStop :
  PicklerState -> list (list Byte.byte) * PicklerState.
Variable pushIValue : IValue -> PicklerState -> list (list Byte.byte) * PicklerState.
Variable tensor_table_of : PicklerState -> option (list Tensor).

(** A writer callback [void(const char*, size_t)] acting on its captured
    state [W]; a pickler in the middle of its work is its own state and the
    state of its writer. *)
Definition Writer (W : Type) : Type := list Byte.byte -> W -> W.

Definition method {W} (writer : Writer W)
    (meth : PicklerState -> list (list Byte.byte) * PicklerState)
    (pw : PicklerState * W) : PicklerState * W :=
  let (chunks, p') := meth (fst pw) in
  (p', fold_left (fun w c => writer c w) chunks (snd pw)).

Definition is_nullptr {A} (p : option A) : bool :=
  match p with None => true | Some _ => false end.

(** [pickle_stream]: returns the final state of the writer and the tensor
    table as the pickler leaves it. *)
Definition pickle_stream {W} (writer : Writer W) (ivalue : IValue)
    (tensor_table : option (list Tensor)) (w : W) : W * option (list Tensor) :=
  let pickler := (new_Pickler tensor_table, w) in
  let pickler :=
    if is_nullptr tensor_table then method writer torchSaveStart pickler
    else pickler in
  let pickler := method writer protocol pickler in
  let pickler := method writer (pushIValue ivalue) pickler in
  let pickler := method writer stop pickler in
  let pickler :=
    if is_nullptr tensor_table then method writer torchSaveStop pickler
    else pickler in
  (snd pickler, tensor_table_of (fst pickler)).

(** The writer of [pickle]: [data.insert(data.end(), bytes, bytes + len)]. *)
Definition append_writer : Writer (list Byte.byte) :=
  fun bytes data => data ++ bytes.

(** [pickle]: the writer appends every chunk to the end of [data]. *)
Definition pickle (ivalue : IValue) (tensor_table : option (list Tensor))
    : list Byte.byte * option (list Tensor) :=
  let data := [] in
  pickle_stream append_writer ivalue tensor_table data.

(** The writer that only records the chunks it is passed. *)
Definition recording_writer : Writer (list (list Byte.byte)) :=
  fun bytes log => log ++ [bytes].

(** A pickler writing into [data] and a pickler recording its chunks are in
    step: same pickler state, and [data] is the concatenation of the log. *)
Definition in_step (pd : PicklerState * list Byte.byte)
    (pl : PicklerState * list (list Byte.byte)) : Prop :=
  fst pd = fst pl /\ snd pd = concat (snd pl).

End Pickle.

(** *** unpickle *)

Section Unpickle.

(** [Unpickler] (torch/csrc/jit/unpickler.h) is not part of the sources at
    hand.  It is taken as given: [parse_ivalue_list] of an unpickler built
    from the two callbacks, the tensor table and the class resolver; it
    drives the callbacks, which act on the state [R] they capture. *)
Variables IValue Tensor ClassResolver : Type.

(** [std::function<const char*(size_t)>]: the pointer handed out and the
    captured state afterwards; [std::function<bool()>]. *)
Definition Reader (R : Type) : Type := Z -> R -> Z * R.
Definition BoundsChecker (R : Type) : Type := R -> bool.

Variable parse_ivalue_list :
  forall R : Type, Reader R -> BoundsChecker R -> option (list Tensor) ->
                   ClassResolver -> R -> list IValue * R.

(** [unpickle] on a reader and a bounds checker. *)
Definition unpickle {R} (reader : Reader R) (bounds_checker : BoundsChecker R)
    (tensor_table : option (list Tensor)) (class_resolver : ClassResolver)
    (r : R) : list IValue * R :=
  parse_ivalue_list R reader bounds_checker tensor_table class_resolver r.

(** The two lambdas of [unpickle] on a buffer; the captured [bytes_read] is
    a [size_t]. *)
Definition data_reader (data : Z) : Reader Z :=
  fun len bytes_read =>
    let to_read := data + bytes_read in
    (to_read, (bytes_read + len) mod 2 ^ 64).

Definition data_bounds_checker (size : Z) : BoundsChecker Z :=
  fun bytes_read => bytes_read <? size.

(** [unpickle] on [data] and [size]. *)
Definition unpickle_data (data size : Z) (tensor_table : option (list Tensor))
    (class_resolver : ClassResolver) : list IValue :=
  let bytes_read := 0 in
  fst (unpickle (data_reader data) (data_bounds_checker size)
         tensor_table class_resolver bytes_read).

End Unpickle.

(** The [len] bytes behind a pointer [p] into the buffer [buf] that starts
    at address [data]; [None] when the range leaves the buffer. *)
Definition bytes_at (data : Z) (buf : list Byte.byte) (p len : Z)
    : option (list Byte.byte) :=
  if (data <=? p) && (0 <=? len) && (p + len <=? data + Z.of_nat (length buf))
  then Some (firstn (Z.to_nat len) (skipn (Z.to_nat (p - data)) buf))
  else None.

(** A sequence of reads of the given lengths: what each read finds behind
    the pointer it is handed, and the captured state at the end. *)
Fixpoint read_all {R} (reader : Reader R) (data : Z) (buf : list Byte.byte)
    (lens : list Z) (r : R) : list (option (list Byte.byte)) * R :=
  match lens with
  | [] => ([], r)
  | len :: lens' =>
      let (p, r') := reader len r in
      let (found, r'') := read_all reader data buf lens' r' in
      (bytes_at data buf p len :: found, r'')
  end.

End jit.

(** * Properties *)

(** ** Fixed-width arithmetic *)

Lemma wrap_signed_small (w v : Z) :
  0 < w -> - 2 ^ (w - 1) <= v < 2 ^ (w - 1) -> wrap_signed w v = v.
Proof.
  intros Hw Hv. unfold wrap_signed.
  assert (E : 2 ^ w = 2 * 2 ^ (w - 1)).
  { replace w with (Z.succ (w - 1)) at 1 by lia. apply Z.pow_succ_r. lia. }
  rewrite Z.mod_small; lia.
Qed.

Lemma to_int32_small (v : Z) : - 2 ^ 31 <= v < 2 ^ 31 -> to_int32 v = v.
Proof. intros. apply wrap_signed_small; simpl; lia. Qed.

Lemma to_uint32_small (v : Z) : 0 <= v < 2 ^ 32 -> to_uint32 v = v.
Proof. intros. apply Z.mod_small. assumption. Qed.

Lemma to_int32_to_uint32 (v : Z) : to_int32 (to_uint32 v) = to_int32 v.
Proof.
  unfold to_int32, to_uint32, wrap_signed, wrap_unsigned.
  f_equal. rewrite Zplus_mod_idemp_l. reflexivity.
Qed.

Lemma wrap_signed_mod (w v : Z) : wrap_signed w (v mod 2 ^ w) = wrap_signed w v.
Proof. unfold wrap_signed. rewrite Zplus_mod_idemp_l. reflexivity. Qed.

Lemma wrap_signed_idem (w v : Z) :
  0 < w -> wrap_signed w (wrap_signed w v) = wrap_signed w v.
Proof.
  intros Hw. unfold wrap_signed at 1 3.
  f_equal. unfold wrap_signed.
  replace ((v + 2 ^ (w - 1)) mod 2 ^ w - 2 ^ (w - 1) + 2 ^ (w - 1))
    with ((v + 2 ^ (w - 1)) mod 2 ^ w) by lia.
  apply Z.mod_mod. apply Z.pow_nonzero; lia.
Qed.

Lemma bits_pos (t : ScalarType) : 0 < bits t.
Proof. destruct t; reflexivity. Qed.

Lemma elementSize_pos (t : ScalarType) : 0 < elementSize t.
Proof. destruct t; reflexivity. Qed.

Lemma static_cast_idem (t : ScalarType) (v : Z) :
  static_cast t (static_cast t v) = static_cast t v.
Proof.
  unfold static_cast. destruct (is_signed t).
  - apply wrap_signed_idem, bits_pos.
  - unfold wrap_unsigned. apply Z.mod_mod. apply Z.pow_nonzero; [lia|].
    pose proof (bits_pos t); lia.
Qed.

Lemma static_cast_mod (t : ScalarType) (v : Z) :
  static_cast t (v mod 2 ^ bits t) = static_cast t v.
Proof.
  unfold static_cast. destruct (is_signed t).
  - apply wrap_signed_mod.
  - unfold wrap_unsigned. apply Z.mod_mod. apply Z.pow_nonzero; [lia|].
    pose proof (bits_pos t); lia.
Qed.

Lemma ScalarType_eqb_eq (a b : ScalarType) : ScalarType_eqb a b = true <-> a = b.
Proof. destruct a, b; simpl; split; intros; congruence. Qed.

(** ** Memory *)

Lemma le_encode_out (n : nat) : forall m a v x,
  x < a \/ a + Z.of_nat n <= x -> le_encode m a n v x = m x.
Proof.
  induction n as [|n IH]; intros m a v x H; simpl; [reflexivity|].
  rewrite IH by lia. unfold upd.
  destruct (Z.eqb_spec x a); [lia | reflexivity].
Qed.

Lemma le_encode_in (n : nat) : forall m a v x,
  a <= x < a + Z.of_nat n -> le_encode m a n v x = v / 256 ^ (x - a) mod 256.
Proof.
  induction n as [|n IH]; intros m a v x H; simpl; [lia|].
  destruct (Z.eq_dec x a) as [->|Hne].
  - rewrite le_encode_out by lia. unfold upd. rewrite Z.eqb_refl.
    rewrite Z.sub_diag. simpl. rewrite Z.div_1_r. reflexivity.
  - rewrite IH by lia.
    replace (x - a) with (Z.succ (x - (a + 1))) by lia.
    rewrite Z.pow_succ_r by lia. rewrite Z.div_div by (try apply Z.pow_pos_nonneg; lia).
    reflexivity.
Qed.

Lemma le_decode_ext (n : nat) : forall m m' a,
  (forall x, a <= x < a + Z.of_nat n -> m x = m' x) ->
  le_decode m a n = le_decode m' a n.
Proof.
  induction n as [|n IH]; intros m m' a H; simpl; [reflexivity|].
  rewrite (H a) by lia. rewrite (IH m m' (a + 1)); [reflexivity|].
  intros x Hx. apply H. lia.
Qed.

Lemma le_decode_encode (n : nat) : forall m a v,
  le_decode (le_encode m a n v) a n = v mod 256 ^ Z.of_nat n.
Proof.
  induction n as [|n IH]; intros m a v.
  - simpl. rewrite Z.mod_1_r. reflexivity.
  - cbn [le_decode le_encode].
    rewrite le_encode_out by lia. unfold upd at 1. rewrite Z.eqb_refl.
    rewrite IH. rewrite Z.mod_mod by lia.
    rewrite Nat2Z.inj_succ, Z.pow_succ_r by lia.
    rewrite (Z.rem_mul_r v 256 (256 ^ Z.of_nat n)); [reflexivity | lia |].
    apply Z.pow_pos_nonneg; lia.
Qed.

Lemma pow256_bits (t : ScalarType) : 256 ^ Z.of_nat (elementSizeNat t) = 2 ^ bits t.
Proof. destruct t; reflexivity. Qed.

Lemma load_store_same (t : ScalarType) (m : memory) (p v : Z) :
  load t (store t m p v) p = static_cast t v.
Proof.
  unfold load, store. rewrite le_decode_encode, pow256_bits.
  apply static_cast_mod.
Qed.

Lemma load_ext (t : ScalarType) (m m' : memory) (p : Z) :
  (forall x, p <= x < p + elementSize t -> m x = m' x) ->
  load t m p = load t m' p.
Proof.
  intros H. unfold load. f_equal. apply le_decode_ext. exact H.
Qed.

Lemma store_out (t : ScalarType) (m : memory) (p v x : Z) :
  x < p \/ p + elementSize t <= x -> store t m p v x = m x.
Proof. intros H. apply le_encode_out. exact H. Qed.

Lemma store_in (t : ScalarType) (m : memory) (p v x : Z) :
  p <= x < p + elementSize t -> store t m p v x = v / 256 ^ (x - p) mod 256.
Proof. intros H. apply le_encode_in. exact H. Qed.

Lemma static_cast_load (t : ScalarType) (m : memory) (p : Z) :
  static_cast t (load t m p) = load t m p.
Proof. unfold load. apply static_cast_idem. Qed.

Lemma static_cast_call (f : func_t) (args : list Z) :
  static_cast (result_type f) (call f args) = call f args.
Proof. unfold call. apply static_cast_idem. Qed.

(** ** The monad *)

Lemma bind_Some {A B} (c : M A) (k : A -> M B) (s s' : State) (a : A) :
  c s = (Some a, s') -> bind c k s = k a s'.
Proof. intros H. unfold bind. rewrite H. reflexivity. Qed.

Lemma bind_None {A B} (c : M A) (k : A -> M B) (s s' : State) :
  c s = (None, s') -> bind c k s = (None, s').
Proof. intros H. unfold bind. rewrite H. reflexivity. Qed.

Lemma for_each_app {A} (l1 l2 : list A) (body : A -> M unit) (s : State) :
  for_each (l1 ++ l2) body s = (for_each l1 body ;;; for_each l2 body) s.
Proof.
  revert s. induction l1 as [|a l1 IH]; intros s; simpl.
  - reflexivity.
  - unfold bind in *. destruct (body a s) as [[[]|] s1]; [|reflexivity].
    rewrite IH. reflexivity.
Qed.

Lemma for_each_ext {A} (l : list A) (b1 b2 : A -> M unit) (s : State) :
  (forall a s', In a l -> b1 a s' = b2 a s') ->
  for_each l b1 s = for_each l b2 s.
Proof.
  revert s. induction l as [|a l IH]; intros s H; simpl; [reflexivity|].
  unfold bind. rewrite (H a s) by (left; reflexivity).
  destruct (b2 a s) as [[[]|] s1]; [|reflexivity].
  apply IH. intros a' s' Ha. apply H. right. exact Ha.
Qed.

Lemma quiet_refl (s : State) : quiet s s.
Proof. repeat split. Qed.

Lemma assert_all_cuda_run (it : TensorIterator) (s : State) :
  assert_all_cuda it s
  = (if forallb op_is_cuda (operands it) then Some tt else None, s).
Proof.
  unfold assert_all_cuda, ntensors, operand.
  assert (G : forall pre l, operands it = pre ++ l ->
            for_each (seq (length pre) (length l))
              (fun arg => assert (op_is_cuda (nth arg (operands it) dummy_operand))) s
            = (if forallb op_is_cuda l then Some tt else None, s)).
  { intros pre l. revert pre. induction l as [|o l IH]; intros pre E; simpl.
    - reflexivity.
    - unfold bind, assert at 1. rewrite E at 1.
      rewrite app_nth2 by lia. rewrite Nat.sub_diag. simpl.
      destruct (op_is_cuda o); simpl; [|reflexivity].
      specialize (IH (pre ++ [o])). rewrite length_app in IH. simpl in IH.
      rewrite Nat.add_1_r in IH. apply IH. rewrite <- app_assoc. exact E. }
  apply (G [] (operands it)). reflexivity.
Qed.

(** ** Empty iteration spaces *)

Lemma numel_remove_operand (it : TensorIterator) (i : nat) :
  numel (remove_operand it i) = numel it.
Proof. reflexivity. Qed.

Lemma gpu_kernel_empty (sched : Schedule) (split : TensorIterator -> list TensorIterator)
    (fuel : nat) (it : TensorIterator) (f : func_t) (s : State) :
  numel it = 0 ->
  gpu_kernel sched split (S fuel) it f s
  = (if forallb op_is_cuda (operands it) then Some tt else None, s).
Proof.
  intros H. simpl. unfold bind. rewrite assert_all_cuda_run.
  destruct (forallb op_is_cuda (operands it)); [|reflexivity].
  rewrite H. reflexivity.
Qed.

Lemma gpu_kernel_with_index_empty (sched : Schedule) (it : TensorIterator)
    (f : func_t) (s : State) :
  numel it = 0 ->
  gpu_kernel_with_index sched it f s
  = (if forallb op_is_cuda (operands it) then Some tt else None, s).
Proof.
  intros H. unfold gpu_kernel_with_index, bind. rewrite assert_all_cuda_run.
  destruct (forallb op_is_cuda (operands it)); [|reflexivity].
  rewrite H. reflexivity.
Qed.

Lemma scalar_value_quiet (T : ScalarType) (it : TensorIterator) (i : nat) (s : State) :
  exists a s', scalar_value T it i s = (Some a, s') /\ quiet s s'.
Proof.
  unfold scalar_value, fetch_and_cast, bind, load_m, ret. simpl.
  eexists. eexists. split; [reflexivity|].
  unfold quiet, writes. simpl. repeat split.
  rewrite filter_app. simpl. apply app_nil_r.
Qed.

Lemma gpu_kernel_with_scalars_empty (sched : Schedule)
    (split : TensorIterator -> list TensorIterator)
    (fuel : nat) (it : TensorIterator) (f : func_t) (s : State) :
  numel it = 0 ->
  quiet s (snd (gpu_kernel_with_scalars sched split (S fuel) it f s)).
Proof.
  intros H. unfold gpu_kernel_with_scalars.
  unfold bind at 1. unfold assert at 1.
  destruct (Nat.eqb (ntensors it) 3); [|apply quiet_refl].
  unfold bind at 1. unfold assert at 1.
  destruct (Nat.eqb (arity f) 2); [|apply quiet_refl].
  destruct (is_cpu_scalar it 1).
  - destruct (scalar_value_quiet (arg f 0) it 1 s) as (a & s' & E & Q).
    rewrite (bind_Some _ _ _ _ _ E).
    rewrite gpu_kernel_empty by (rewrite numel_remove_operand; exact H).
    exact Q.
  - destruct (is_cpu_scalar it 2).
    + destruct (scalar_value_quiet (arg f 1) it 2 s) as (a & s' & E & Q).
      rewrite (bind_Some _ _ _ _ _ E).
      rewrite gpu_kernel_empty by (rewrite numel_remove_operand; exact H).
      exact Q.
    + rewrite gpu_kernel_empty by exact H. apply quiet_refl.
Qed.

Lemma gpu_kernel_with_scalars_empty_returns (sched : Schedule)
    (split : TensorIterator -> list TensorIterator)
    (fuel : nat) (it : TensorIterator) (f : func_t) (s : State) :
  numel it = 0 ->
  ntensors it = 3%nat -> arity f = 2%nat ->
  forallb op_is_cuda (operands (lifted it)) = true ->
  fst (gpu_kernel_with_scalars sched split (S fuel) it f s) = Some tt.
Proof.
  intros H H3 H2 Hc. unfold gpu_kernel_with_scalars, lifted in *.
  rewrite H3, H2. simpl Nat.eqb. unfold bind at 1. unfold assert at 1.
  unfold bind at 1. unfold assert at 1.
  destruct (is_cpu_scalar it 1).
  - destruct (scalar_value_quiet (arg f 0) it 1 s) as (a & s' & E & Q).
    rewrite (bind_Some _ _ _ _ _ E).
    rewrite gpu_kernel_empty by (rewrite numel_remove_operand; exact H).
    rewrite Hc. reflexivity.
  - destruct (is_cpu_scalar it 2).
    + destruct (scalar_value_quiet (arg f 1) it 2 s) as (a & s' & E & Q).
      rewrite (bind_Some _ _ _ _ _ E).
      rewrite gpu_kernel_empty by (rewrite numel_remove_operand; exact H).
      rewrite Hc. reflexivity.
    + rewrite gpu_kernel_empty by exact H. rewrite Hc. reflexivity.
Qed.

(** C8.  For an iterator with zero elements, each of the three dispatch
    entry points ([gpu_kernel], [gpu_kernel_with_scalars],
    [gpu_kernel_with_index]) leaves the memory as it was, records no write
    and enqueues no kernel on the stream; and it returns normally as soon as
    the residency (and, for scalar lifting, arity) preconditions checked
    before the short-circuit hold.  The two [launch_kernel] functions
    likewise return at once, with the state untouched, when [N] is 0. *)
Theorem zero_elements_no_write_no_launch (sched : Schedule)
    (split : TensorIterator -> list TensorIterator)
    (fuel : nat) (it : TensorIterator) (f : func_t) (s : State) :
  numel it = 0 ->
  quiet s (snd (gpu_kernel sched split (S fuel) it f s))
  /\ quiet s (snd (gpu_kernel_with_scalars sched split (S fuel) it f s))
  /\ quiet s (snd (gpu_kernel_with_index sched it f s))
  /\ (forallb op_is_cuda (operands it) = true ->
      gpu_kernel sched split (S fuel) it f s = (Some tt, s)
      /\ gpu_kernel_with_index sched it f s = (Some tt, s))
  /\ (ntensors it = 3%nat -> arity f = 2%nat ->
      forallb op_is_cuda (operands (lifted it)) = true ->
      fst (gpu_kernel_with_scalars sched split (S fuel) it f s) = Some tt)
  /\ (forall nt vt lam, legacy.launch_kernel sched nt vt 0 lam s = (Some tt, s))
  /\ (forall nt vt data, modern.launch_kernel sched nt vt 0 f data s = (Some tt, s)).
Proof.
  intros H. split; [|split; [|split; [|split; [|split; [|split]]]]];
    [| | | | | reflexivity | reflexivity].
  all: repeat split.
  - rewrite gpu_kernel_empty by exact H. reflexivity.
  - rewrite gpu_kernel_empty by exact H. reflexivity.
  - rewrite gpu_kernel_empty by exact H. reflexivity.
  - apply (gpu_kernel_with_scalars_empty sched split fuel it f s H).
  - apply (gpu_kernel_with_scalars_empty sched split fuel it f s H).
  - apply (gpu_kernel_with_scalars_empty sched split fuel it f s H).
  - rewrite gpu_kernel_with_index_empty by exact H. reflexivity.
  - rewrite gpu_kernel_with_index_empty by exact H. reflexivity.
  - rewrite gpu_kernel_with_index_empty by exact H. reflexivity.
  - rewrite gpu_kernel_empty by exact H. rewrite H0. reflexivity.
  - rewrite gpu_kernel_with_index_empty by exact H. rewrite H0. reflexivity.
  - apply gpu_kernel_with_scalars_empty_returns; assumption.
Qed.

Lemma zero_elements_no_write_no_launch_witness :
  let it := mkIter [0] [mkOperand 64 [4] Int true; mkOperand 128 [4] Int true] false in
  let f := mkFunc [Int] Int (fun xs => nth 0%nat xs 0 + 1) in
  let s := mkState (fun _ => 0) [] [] in
  numel it = 0
  /\ gpu_kernel threads (fun _ => []) 1 it f s = (Some tt, s)
  /\ quiet s (snd (gpu_kernel_with_scalars threads (fun _ => []) 1 it f s)).
Proof.
  intros it f s.
  pose proof (zero_elements_no_write_no_launch threads (fun _ => []) 0 it f s
                eq_refl) as (_ & Q & _ & R & _).
  split; [reflexivity|]. split; [apply R; reflexivity | exact Q].
Defined.

(** ** Preconditions of the index-augmented dispatch *)

Lemma can_use_32bit_indexing_numel (it : TensorIterator) :
  INT32_MAX < numel it -> can_use_32bit_indexing it = false.
Proof.
  intros H. unfold can_use_32bit_indexing.
  destruct (Z.leb_spec (numel it) INT32_MAX); [lia | reflexivity].
Qed.

(** C9.  The index-augmented entry point fails fatally, leaving the state
    untouched (nothing enqueued, nothing written, no sub-dispatch: the entry
    point has no access to the splitting of the iterator at all), whenever
    the element count exceeds the 32-bit index width, and whenever an
    iterator that has elements has an operand count different from the arity
    of the function.  An iterator without elements, its operands on the
    device, returns normally whatever its operand count: the count is
    examined only after the empty check. *)
Theorem gpu_kernel_with_index_preconditions (sched : Schedule)
    (it : TensorIterator) (f : func_t) (s : State) :
  (INT32_MAX < numel it \/ (numel it <> 0 /\ ntensors it <> arity f) ->
   gpu_kernel_with_index sched it f s = (None, s))
  /\ (numel it = 0 -> forallb op_is_cuda (operands it) = true ->
      gpu_kernel_with_index sched it f s = (Some tt, s)).
Proof.
  split.
  - intros H. unfold gpu_kernel_with_index, bind at 1.
    rewrite assert_all_cuda_run.
    destruct (forallb op_is_cuda (operands it)); [|reflexivity].
    destruct (Z.eqb_spec (numel it) 0) as [E|E].
    { destruct H as [H|[H _]]; [unfold INT32_MAX in H; lia | contradiction]. }
    unfold bind at 1, assert at 1.
    destruct (can_use_32bit_indexing it) eqn:C; [|reflexivity].
    destruct H as [H|[_ H]].
    { rewrite can_use_32bit_indexing_numel in C by exact H. discriminate. }
    unfold gpu_kernel_with_index_impl, bind at 1, assert at 1.
    destruct (Nat.eqb_spec (ntensors it) (arity f)); [contradiction | reflexivity].
  - intros H Hcuda. rewrite gpu_kernel_with_index_empty by exact H.
    rewrite Hcuda. reflexivity.
Qed.

Lemma gpu_kernel_with_index_preconditions_witness :
  let big := mkIter [2147483648]
               [mkOperand 0 [1] Char true; mkOperand 4294967296 [1] Char true] false in
  let three := mkIter [3]
                 [mkOperand 0 [1] Char true; mkOperand 64 [1] Char true;
                  mkOperand 128 [1] Char true] false in
  let none := mkIter [0]
                [mkOperand 0 [1] Char true; mkOperand 64 [1] Char true;
                 mkOperand 128 [1] Char true] false in
  let f := mkFunc [Char; Int] Char (fun xs => nth 0%nat xs 0 + nth 1%nat xs 0) in
  let s := mkState (fun _ => 0) [] [] in
  (INT32_MAX < numel big /\ gpu_kernel_with_index threads big f s = (None, s))
  /\ (numel three = 3 /\ ntensors three = 3%nat /\ arity f = 2%nat
      /\ gpu_kernel_with_index threads three f s = (None, s))
  /\ (numel none = 0 /\ ntensors none = 3%nat
      /\ gpu_kernel_with_index threads none f s = (Some tt, s)).
Proof.
  intros big three none f s. split; [|split].
  - split; [reflexivity|].
    apply (proj1 (gpu_kernel_with_index_preconditions threads big f s)).
    left. reflexivity.
  - split; [reflexivity|]. split; [reflexivity|]. split; [reflexivity|].
    apply (proj1 (gpu_kernel_with_index_preconditions threads three f s)).
    right. split; vm_compute; discriminate.
  - split; [reflexivity|]. split; [reflexivity|].
    apply (proj2 (gpu_kernel_with_index_preconditions threads none f s));
      reflexivity.
Defined.

(** Against C9 as stated: an iterator without elements is not refused for
    its operand count.  [gpu_kernel_with_index] returns at [numel() == 0],
    before [gpu_kernel_with_index_impl] and its assertion on the operand
    count are reached: here two operands are handed to a function of arity
    three, and the dispatch returns normally. *)
Lemma empty_iterator_skips_operand_count :
  let it := mkIter [0]
              [mkOperand 0 [1] Char true; mkOperand 64 [1] Char true] false in
  let f := mkFunc [Char; Char; Int] Char
             (fun xs => nth 0%nat xs 0 + nth 1%nat xs 0 + nth 2%nat xs 0) in
  let s := mkState (fun _ => 0) [] [] in
  numel it = 0 /\ ntensors it = 2%nat /\ arity f = 3%nat
  /\ gpu_kernel_with_index threads it f s = (Some tt, s).
Proof.
  intros it f s. split; [reflexivity|]. split; [reflexivity|].
  split; [reflexivity|].
  rewrite gpu_kernel_with_index_empty by reflexivity. reflexivity.
Qed.

(** ** pickle and pickle_stream *)

Section PickleFacts.

Variables IValue Tensor PicklerState : Type.
Variable new_Pickler : option (list Tensor) -> PicklerState.
Variables torchSaveStart protocol stop torchSaveStop :
  PicklerState -> list (list Byte.byte) * PicklerState.
Variable pushIValue : IValue -> PicklerState -> list (list Byte.byte) * PicklerState.
Variable tensor_table_of : PicklerState -> option (list Tensor).

Lemma emit_append (chunks : list (list Byte.byte)) (data : list Byte.byte) :
  fold_left (fun w c => jit.append_writer c w) chunks data = data ++ concat chunks.
Proof.
  revert data. induction chunks as [|c chunks IH]; intros data; simpl.
  - symmetry. apply app_nil_r.
  - rewrite IH. unfold jit.append_writer. symmetry. apply app_assoc.
Qed.

Lemma emit_record (chunks log : list (list Byte.byte)) :
  fold_left (fun w c => jit.recording_writer c w) chunks log = log ++ chunks.
Proof.
  revert log. induction chunks as [|c chunks IH]; intros log; simpl.
  - symmetry. apply app_nil_r.
  - rewrite IH. unfold jit.recording_writer. rewrite <- app_assoc. reflexivity.
Qed.

Lemma method_in_step (meth : PicklerState -> list (list Byte.byte) * PicklerState)
    (pd : PicklerState * list Byte.byte)
    (pl : PicklerState * list (list Byte.byte)) :
  jit.in_step PicklerState pd pl ->
  jit.in_step PicklerState (jit.method PicklerState jit.append_writer meth pd)
          (jit.method PicklerState jit.recording_writer meth pl).
Proof.
  intros [Hp Hd]. unfold jit.method. rewrite Hp.
  destruct (meth (fst pl)) as [chunks p']. unfold jit.in_step. simpl.
  split; [reflexivity|].
  rewrite emit_append, emit_record, concat_app, Hd. reflexivity.
Qed.

(** C10.  The bytes returned by [pickle] are the in-order concatenation of
    exactly the chunks that [pickle_stream] passes to its writer for the
    same value and tensor table (nothing reordered, dropped or duplicated),
    and both leave the same tensor table. *)
Theorem pickle_concat_of_stream_chunks (ivalue : IValue)
    (tensor_table : option (list Tensor)) :
  fst (jit.pickle IValue Tensor PicklerState new_Pickler torchSaveStart protocol
         stop torchSaveStop pushIValue tensor_table_of ivalue tensor_table)
  = concat (fst (jit.pickle_stream IValue Tensor PicklerState new_Pickler
                   torchSaveStart protocol stop torchSaveStop pushIValue
                   tensor_table_of jit.recording_writer ivalue tensor_table []))
  /\ snd (jit.pickle IValue Tensor PicklerState new_Pickler torchSaveStart protocol
            stop torchSaveStop pushIValue tensor_table_of ivalue tensor_table)
     = snd (jit.pickle_stream IValue Tensor PicklerState new_Pickler
              torchSaveStart protocol stop torchSaveStop pushIValue
              tensor_table_of jit.recording_writer ivalue tensor_table []).
Proof.
  unfold jit.pickle, jit.pickle_stream.
  assert (H0 : jit.in_step PicklerState (new_Pickler tensor_table, [])
                       (new_Pickler tensor_table, [])) by (split; reflexivity).
  assert (H1 : jit.in_step PicklerState
            (if jit.is_nullptr tensor_table
             then jit.method PicklerState jit.append_writer torchSaveStart
                    (new_Pickler tensor_table, [])
             else (new_Pickler tensor_table, []))
            (if jit.is_nullptr tensor_table
             then jit.method PicklerState jit.recording_writer torchSaveStart
                    (new_Pickler tensor_table, [])
             else (new_Pickler tensor_table, []))).
  { destruct (jit.is_nullptr tensor_table); [apply method_in_step|]; exact H0. }
  apply (method_in_step protocol) in H1.
  apply (method_in_step (pushIValue ivalue)) in H1.
  apply (method_in_step stop) in H1.
  destruct (jit.is_nullptr tensor_table).
  - apply (method_in_step torchSaveStop) in H1.
    destruct H1 as [Hp Hd]. simpl. rewrite Hp, Hd. split; reflexivity.
  - destruct H1 as [Hp Hd]. simpl. rewrite Hp, Hd. split; reflexivity.
Qed.

End PickleFacts.

(** ** Launch geometry: which thread owns which element *)

Lemma to_int32_congr (x y : Z) :
  x mod 2 ^ 32 = y mod 2 ^ 32 -> to_int32 x = to_int32 y.
Proof.
  intros H. unfold to_int32, wrap_signed.
  rewrite <- (Zplus_mod_idemp_l x), <- (Zplus_mod_idemp_l y), H. reflexivity.
Qed.

Lemma to_int32_mod (x : Z) : to_int32 x mod 2 ^ 32 = x mod 2 ^ 32.
Proof.
  unfold to_int32, wrap_signed.
  rewrite Zminus_mod_idemp_l.
  replace (x + 2 ^ (32 - 1) - 2 ^ (32 - 1)) with x by lia. reflexivity.
Qed.

Lemma thread_base_exact (nt vt b t : Z) :
  to_int32 (to_uint32 (to_int32 (nt * vt) * b + t)) = to_int32 (nt * vt * b + t).
Proof.
  rewrite to_int32_to_uint32. apply to_int32_congr.
  rewrite <- Zplus_mod_idemp_l, <- Zmult_mod_idemp_l, to_int32_mod.
  rewrite Zmult_mod_idemp_l, Zplus_mod_idemp_l. reflexivity.
Qed.

Lemma owned_loop_above (nt N : Z) (k : nat) (idx : Z) :
  N <= idx -> owned_loop nt N k idx = [].
Proof.
  intros H. induction k as [|k IH]; simpl; [reflexivity|].
  destruct (Z.ltb_spec idx N); [lia | exact IH].
Qed.

Lemma candidates_ge (nt : Z) (k : nat) : forall idx x,
  0 < nt -> In x (candidates nt k idx) -> idx <= x.
Proof.
  induction k as [|k IH]; intros idx x Hnt Hx; simpl in Hx; [contradiction|].
  destruct Hx as [<-|Hx]; [lia|]. apply IH in Hx; lia.
Qed.

Lemma filter_nil_all {A} (p : A -> bool) (l : list A) :
  (forall x, In x l -> p x = false) -> filter p l = [].
Proof.
  induction l as [|a l IH]; intros H; simpl; [reflexivity|].
  rewrite (H a) by (left; reflexivity). apply IH. intros x Hx. apply H. right. exact Hx.
Qed.

Lemma owned_loop_candidates (nt N : Z) (k : nat) : forall idx,
  0 < nt -> - 2 ^ 31 <= idx -> idx + (Z.of_nat k - 1) * nt < 2 ^ 31 ->
  owned_loop nt N k idx = filter (fun x => x <? N) (candidates nt k idx).
Proof.
  induction k as [|k IH]; intros idx Hnt H0 Hk; [reflexivity|].
  cbn [owned_loop candidates filter].
  destruct (Z.ltb_spec idx N) as [Hlt|Hge].
  - f_equal. destruct k as [|k']; [reflexivity|].
    rewrite to_int32_small by lia. apply IH; lia.
  - rewrite owned_loop_above by exact Hge. symmetry. apply filter_nil_all.
    intros x Hx. apply candidates_ge in Hx; [|exact Hnt].
    destruct (Z.ltb_spec x N); [lia | reflexivity].
Qed.

Lemma In_candidates (nt : Z) (k : nat) : forall idx x,
  In x (candidates nt k idx) <-> exists j, 0 <= j < Z.of_nat k /\ x = idx + j * nt.
Proof.
  induction k as [|k IH]; intros idx x; simpl.
  - split; [contradiction | intros (j & H & _); lia].
  - rewrite IH. split.
    + intros [<-|(j & Hj & ->)]; [exists 0; lia | exists (j + 1); lia].
    + intros (j & Hj & ->). destruct (Z.eq_dec j 0) as [->|Hne]; [left; lia|].
      right. exists (j - 1). lia.
Qed.

Lemma In_owned (nt vt N b t x : Z) :
  0 < nt -> 0 < vt -> 0 <= b -> 0 <= t < nt -> nt * vt * (b + 1) <= 2 ^ 31 ->
  In x (owned nt vt N b t) <->
  x < N /\ exists j, 0 <= j < vt /\ x = nt * vt * b + t + j * nt.
Proof.
  intros Hnt Hvt Hb Ht Hfit. unfold owned. rewrite thread_base_exact.
  assert (0 <= nt * vt * b) by nia.
  assert (nt * vt * b + t + (vt - 1) * nt < 2 ^ 31) by nia.
  rewrite to_int32_small by nia.
  rewrite owned_loop_candidates; [| lia | lia | rewrite Z2Nat.id by lia; lia].
  rewrite filter_In, In_candidates, Z2Nat.id by lia.
  rewrite Z.ltb_lt. tauto.
Qed.

Lemma In_zseq (n x : Z) : In x (zseq n) <-> 0 <= x < n.
Proof.
  unfold zseq. rewrite in_map_iff. split.
  - intros (k & <- & Hk). apply in_seq in Hk. lia.
  - intros H. exists (Z.to_nat x). split; [lia|]. apply in_seq. lia.
Qed.

Lemma NoDup_zseq (n : Z) : NoDup (zseq n).
Proof.
  unfold zseq. apply Injective_map_NoDup; [|apply seq_NoDup].
  intros a b H. lia.
Qed.

Lemma In_threads (grid block b t : Z) :
  In (b, t) (threads grid block) <-> 0 <= b < grid /\ 0 <= t < block.
Proof.
  unfold threads. rewrite in_flat_map. split.
  - intros (b' & Hb & Ht). apply in_map_iff in Ht. destruct Ht as (t' & E & Ht).
    inversion E; subst. apply In_zseq in Hb, Ht. tauto.
  - intros [Hb Ht]. exists b. split; [apply In_zseq; exact Hb|].
    apply in_map. apply In_zseq. exact Ht.
Qed.

Lemma NoDup_flat_map {A B} (f : A -> list B) (l : list A) :
  NoDup l ->
  (forall a, In a l -> NoDup (f a)) ->
  (forall a a' x, In a l -> In a' l -> a <> a' -> In x (f a) -> ~ In x (f a')) ->
  NoDup (flat_map f l).
Proof.
  induction l as [|a l IH]; intros Hl Hf Hd; simpl; [constructor|].
  inversion Hl as [|? ? Hna Hl']; subst.
  apply NoDup_app.
  - apply Hf. left. reflexivity.
  - apply IH; [exact Hl' | intros; apply Hf; right; assumption |].
    intros a1 a2 x H1 H2. apply Hd; right; assumption.
  - intros x Hx Hx'. apply in_flat_map in Hx'. destruct Hx' as (a' & Ha' & Hx').
    apply (Hd a a' x); [left; reflexivity | right; exact Ha' | | exact Hx | exact Hx'].
    intros ->. contradiction.
Qed.

Lemma NoDup_threads (grid block : Z) : NoDup (threads grid block).
Proof.
  unfold threads. apply NoDup_flat_map.
  - apply NoDup_zseq.
  - intros b _. apply Injective_map_NoDup; [|apply NoDup_zseq].
    intros x y H. inversion H. reflexivity.
  - intros b b' x _ _ Hne H1 H2.
    apply in_map_iff in H1, H2. destruct H1 as (t & <- & _), H2 as (t' & E & _).
    inversion E. congruence.
Qed.

Lemma NoDup_candidates (nt : Z) (k : nat) : forall idx,
  0 < nt -> NoDup (candidates nt k idx).
Proof.
  induction k as [|k IH]; intros idx Hnt; simpl; constructor.
  - intros H. apply candidates_ge in H; lia.
  - apply IH. exact Hnt.
Qed.

Lemma filter_candidates_prefix (nt N : Z) (k : nat) : forall idx,
  0 < nt ->
  exists k', (k' <= k)%nat
    /\ filter (fun x => x <? N) (candidates nt k idx) = candidates nt k' idx.
Proof.
  induction k as [|k IH]; intros idx Hnt; simpl.
  - exists 0%nat. split; [lia | reflexivity].
  - destruct (Z.ltb_spec idx N) as [Hlt|Hge].
    + destruct (IH (idx + nt) Hnt) as (k' & Hk' & E).
      exists (S k'). split; [lia|]. simpl. rewrite E. reflexivity.
    + exists 0%nat. split; [lia|]. simpl. apply filter_nil_all.
      intros x Hx. apply candidates_ge in Hx; [|exact Hnt].
      destruct (Z.ltb_spec x N); [lia | reflexivity].
Qed.

Section Geometry.

Variables nt vt N : Z.
Hypothesis nt_pos : 0 < nt.
Hypothesis vt_pos : 0 < vt.
Hypothesis N_nonneg : 0 <= N.
Hypothesis fits : nt * vt * grid_of nt vt N <= 2 ^ 31.

Lemma grid_covers : N <= nt * vt * grid_of nt vt N.
Proof.
  unfold grid_of. assert (Hnv : 0 < nt * vt) by nia.
  pose proof (Z.mul_div_le (N + nt * vt - 1) (nt * vt) Hnv).
  pose proof (Z.mod_pos_bound (N + nt * vt - 1) (nt * vt) Hnv).
  pose proof (Z.div_mod (N + nt * vt - 1) (nt * vt)). lia.
Qed.

Lemma thread_fits (b t : Z) :
  In (b, t) (threads (grid_of nt vt N) nt) ->
  0 <= b /\ 0 <= t < nt /\ nt * vt * (b + 1) <= 2 ^ 31.
Proof.
  intros H. apply In_threads in H. destruct H as [Hb Ht].
  repeat split; try lia. assert (0 < nt * vt) by nia. nia.
Qed.

Lemma owned_iff (b t x : Z) :
  In (b, t) (threads (grid_of nt vt N) nt) ->
  In x (owned nt vt N b t) <->
  x < N /\ exists j, 0 <= j < vt /\ x = nt * vt * b + t + j * nt.
Proof.
  intros H. apply thread_fits in H. destruct H as (Hb & Ht & Hf).
  apply In_owned; assumption.
Qed.

Lemma owned_determines (b t b' t' x : Z) :
  In (b, t) (threads (grid_of nt vt N) nt) ->
  In (b', t') (threads (grid_of nt vt N) nt) ->
  In x (owned nt vt N b t) -> In x (owned nt vt N b' t') ->
  (b, t) = (b', t').
Proof.
  intros H H' Hx Hx'.
  apply (owned_iff _ _ x H) in Hx. apply (owned_iff _ _ x H') in Hx'.
  apply In_threads in H, H'.
  destruct Hx as (_ & j & Hj & E), Hx' as (_ & j' & Hj' & E').
  assert (R : 0 <= t + j * nt < nt * vt) by nia.
  assert (R' : 0 <= t' + j' * nt < nt * vt) by nia.
  assert (Eb : b = b').
  { rewrite (Z.div_unique x (nt * vt) b (t + j * nt)) by lia.
    rewrite (Z.div_unique x (nt * vt) b' (t' + j' * nt)) at 1 by lia. reflexivity. }
  subst b'.
  assert (Et : t = t').
  { rewrite (Z.mod_unique (t + j * nt) nt j t) by lia.
    rewrite (Z.mod_unique (t' + j' * nt) nt j' t') at 1 by lia. f_equal. lia. }
  subst t'. reflexivity.
Qed.

Lemma owned_covers (x : Z) :
  0 <= x < N ->
  exists b t, In (b, t) (threads (grid_of nt vt N) nt) /\ In x (owned nt vt N b t).
Proof.
  intros Hx. assert (Hnv : 0 < nt * vt) by nia.
  pose proof grid_covers as Hg.
  pose proof (Z.div_mod x (nt * vt)) as Dx.
  pose proof (Z.mod_pos_bound x (nt * vt) Hnv) as Bx.
  pose proof (Z.div_mod (x mod (nt * vt)) nt) as Dr.
  pose proof (Z.mod_pos_bound (x mod (nt * vt)) nt nt_pos) as Br.
  set (b := x / (nt * vt)) in *. set (r := x mod (nt * vt)) in *.
  set (j := r / nt) in *. set (t := r mod nt) in *.
  assert (Hb : 0 <= b < grid_of nt vt N).
  { split; [apply Z.div_pos; lia|]. nia. }
  assert (Hj : 0 <= j < vt).
  { split; [apply Z.div_pos; lia|]. nia. }
  assert (Hin : In (b, t) (threads (grid_of nt vt N) nt)).
  { apply In_threads. lia. }
  exists b, t. split; [exact Hin|].
  apply (owned_iff _ _ x Hin). split; [lia|]. exists j. split; [exact Hj | lia].
Qed.

Lemma owned_progression (b t : Z) :
  In (b, t) (threads (grid_of nt vt N) nt) ->
  exists k, (k <= Z.to_nat vt)%nat
    /\ owned nt vt N b t = candidates nt k (nt * vt * b + t).
Proof.
  intros H. apply thread_fits in H. destruct H as (Hb & Ht & Hf).
  unfold owned. rewrite thread_base_exact.
  assert (0 <= nt * vt * b) by nia.
  assert (nt * vt * b + t + (vt - 1) * nt < 2 ^ 31) by nia.
  rewrite to_int32_small by nia.
  rewrite owned_loop_candidates; [| lia | lia | rewrite Z2Nat.id by lia; lia].
  apply filter_candidates_prefix. exact nt_pos.
Qed.

Lemma owned_partition :
  Permutation
    (flat_map (fun bt => owned nt vt N (fst bt) (snd bt)) (threads (grid_of nt vt N) nt))
    (zseq N).
Proof.
  apply NoDup_Permutation.
  - apply NoDup_flat_map.
    + apply NoDup_threads.
    + intros [b t] H. destruct (owned_progression b t H) as (k & _ & E).
      simpl. rewrite E. apply NoDup_candidates. exact nt_pos.
    + intros [b t] [b' t'] x H H' Hne Hx Hx'. apply Hne.
      apply (owned_determines b t b' t' x); assumption.
  - apply NoDup_zseq.
  - intros x. rewrite in_flat_map, In_zseq. split.
    + intros ([b t] & H & Hx). simpl in Hx.
      pose proof (thread_fits b t H) as (Hb & Ht & _).
      apply (owned_iff b t x H) in Hx. destruct Hx as (Hlt & j & Hj & ->).
      split; [|exact Hlt]. assert (0 <= nt * vt * b) by nia. nia.
    + intros Hx. destruct (owned_covers x Hx) as (b & t & H & Hin).
      exists (b, t). split; assumption.
Qed.

End Geometry.

Lemma candidates_step (nt : Z) (k : nat) : forall idx pre x y post,
  candidates nt k idx = pre ++ x :: y :: post -> y = x + nt.
Proof.
  induction k as [|k IH]; intros idx pre x y post E; simpl in E.
  - destruct pre; discriminate.
  - destruct pre as [|p pre]; simpl in E.
    + destruct k; simpl in E; inversion E. reflexivity.
    + inversion E. eapply IH. eassumption.
Qed.

(** C7 (as amended).  For the launch geometry derived from [N] (number of
    groups [N / (nt * vt)] rounded up) whose index range fits the [int]
    index, the element sets of distinct threads are disjoint, together they
    are exactly the indices of [0, N), and within one thread consecutive
    elements are [nt] apart: the number of threads of one group. *)
Theorem thread_ownership (nt vt N : Z) :
  0 < nt -> 0 < vt -> 0 <= N -> nt * vt * grid_of nt vt N <= 2 ^ 31 ->
  (forall b t b' t' x,
      In (b, t) (threads (grid_of nt vt N) nt) ->
      In (b', t') (threads (grid_of nt vt N) nt) ->
      (b, t) <> (b', t') ->
      In x (owned nt vt N b t) -> ~ In x (owned nt vt N b' t'))
  /\ (forall x, 0 <= x < N <->
        exists b t, In (b, t) (threads (grid_of nt vt N) nt)
                    /\ In x (owned nt vt N b t))
  /\ (forall b t, In (b, t) (threads (grid_of nt vt N) nt) ->
        stepped_by nt vt N b t nt).
Proof.
  intros Hnt Hvt HN Hfit. split; [|split].
  - intros b t b' t' x H H' Hne Hx Hx'. apply Hne.
    apply (owned_determines nt vt N Hnt Hvt Hfit b t b' t' x); assumption.
  - intros x. split.
    + apply owned_covers; assumption.
    + intros (b & t & H & Hx).
      pose proof (thread_fits nt vt N Hnt Hvt Hfit b t H) as (Hb & Ht & _).
      apply (owned_iff nt vt N Hnt Hvt Hfit b t x H) in Hx.
      destruct Hx as (Hlt & j & Hj & ->).
      split; [|exact Hlt]. assert (0 <= nt * vt * b) by nia. nia.
  - intros b t H pre x y post E.
    destruct (owned_progression nt vt N Hnt Hvt Hfit b t H) as (k & _ & Ek).
    rewrite Ek in E. eapply candidates_step. eassumption.
Qed.

Lemma thread_ownership_witness :
  (forall x, 0 <= x < 1024 <->
     exists b t, In (b, t) (threads (grid_of 128 4 1024) 128)
                 /\ In x (owned 128 4 1024 b t))
  /\ stepped_by 128 4 1024 0 0 128.
Proof.
  assert (H1 : 0 < 128) by lia.
  assert (H2 : 0 < 4) by lia.
  assert (H3 : 0 <= 1024) by lia.
  assert (H4 : 128 * 4 * grid_of 128 4 1024 <= 2 ^ 31) by (vm_compute; discriminate).
  destruct (thread_ownership 128 4 1024 H1 H2 H3 H4) as (_ & Hcov & Hstep).
  split; [exact Hcov|]. apply Hstep. apply In_threads. vm_compute. intuition discriminate.
Defined.

(** Against C7 as stated: with two groups of 128 threads there are 256
    execution units in total, and thread 0 of group 0 owns 0, 128, 256, 384:
    the step is not the total count of execution units. *)
Lemma step_is_not_total_unit_count :
  exists pre x y post,
    In (0, 0) (threads (grid_of 128 4 1024) 128)
    /\ owned 128 4 1024 0 0 = pre ++ x :: y :: post
    /\ y <> x + grid_of 128 4 1024 * 128.
Proof.
  exists [], 0, 128, [256; 384]. split; [|split].
  - apply In_threads. vm_compute. intuition discriminate.
  - vm_compute. reflexivity.
  - vm_compute. discriminate.
Qed.

(** ** The invocation adapters and the device lambdas *)

Lemma map_m_reads {A} (l : list A) (body : A -> M Z)
    (v : A -> memory -> Z) (e : A -> Access) :
  (forall x s, body x s
     = (Some (v x (mem s)), mkState (mem s) (trace s ++ [e x]) (stream s))) ->
  forall s, map_m l body s
     = (Some (map (fun x => v x (mem s)) l),
        mkState (mem s) (trace s ++ map e l) (stream s)).
Proof.
  intros Hb. induction l as [|a l IH]; intros s; simpl.
  - unfold ret. rewrite app_nil_r. destruct s; reflexivity.
  - unfold bind. rewrite Hb, IH. simpl. unfold ret.
    rewrite <- app_assoc. reflexivity.
Qed.

Lemma nth_map_seq {A} (g : nat -> A) (d : A) (n k : nat) :
  (k < n)%nat -> nth k (map g (seq 0 n)) d = g k.
Proof.
  intros H. rewrite (nth_indep _ d (g 0%nat)) by (rewrite length_map, length_seq; exact H).
  rewrite (map_nth g (seq 0 n) 0%nat k). rewrite seq_nth by exact H. reflexivity.
Qed.

Lemma nth_tl {A} (l : list A) (d : A) (k : nat) : nth k (tl l) d = nth (S k) l d.
Proof. destruct l; [destruct k|]; reflexivity. Qed.

Lemma invoke_cast_run (ix : index_t) (f : func_t) (data strides : list Z)
    (dts : list ScalarType) (i : Z) (s : State) :
  legacy.invoke_cast ix f (tl data) (tl strides) (tl dts) i s
  = (Some (call f (map (fun I => static_cast (arg f I)
                      (load (nth (S I) dts Byte) (mem s)
                         (nth (S I) data 0 + index_wrap ix (i * nth (S I) strides 0))))
                   (seq 0 (arity f)))),
     mkState (mem s)
       (trace s ++ map (fun I => Rd (nth (S I) data 0
                                     + index_wrap ix (i * nth (S I) strides 0))
                                    (nth (S I) dts Byte))
                       (seq 0 (arity f)))
       (stream s)).
Proof.
  unfold legacy.invoke_cast, bind.
  rewrite (map_m_reads _ _
    (fun I m => static_cast (arg f I) (load (nth (S I) dts Byte) m
        (nth (S I) data 0 + index_wrap ix (i * nth (S I) strides 0))))
    (fun I => Rd (nth (S I) data 0 + index_wrap ix (i * nth (S I) strides 0))
                 (nth (S I) dts Byte))).
  - reflexivity.
  - intros I s'. unfold fetch_and_cast, bind, load_m, ret. simpl.
    rewrite !nth_tl. reflexivity.
Qed.

Lemma invoke_run (ix : index_t) (f : func_t) (data strides : list Z)
    (i : Z) (s : State) :
  legacy.invoke ix f (tl data) (tl strides) i s
  = (Some (call f (map (fun I => load (arg f I) (mem s)
                         (nth (S I) data 0 + index_wrap ix (i * nth (S I) strides 0)))
                   (seq 0 (arity f)))),
     mkState (mem s)
       (trace s ++ map (fun I => Rd (nth (S I) data 0
                                     + index_wrap ix (i * nth (S I) strides 0))
                                    (arg f I))
                       (seq 0 (arity f)))
       (stream s)).
Proof.
  unfold legacy.invoke, bind.
  rewrite (map_m_reads _ _
    (fun I m => load (arg f I) m
        (nth (S I) data 0 + index_wrap ix (i * nth (S I) strides 0)))
    (fun I => Rd (nth (S I) data 0 + index_wrap ix (i * nth (S I) strides 0))
                 (arg f I))).
  - reflexivity.
  - intros I s'. unfold load_m. rewrite !nth_tl. reflexivity.
Qed.

Lemma map_seq_ext {A} (g h : nat -> A) (n : nat) :
  (forall k, (k < n)%nat -> g k = h k) -> map g (seq 0 n) = map h (seq 0 n).
Proof.
  intros H. apply map_ext_in. intros k Hk. apply in_seq in Hk. apply H. lia.
Qed.

Lemma lambda_1d_cast_run (f : func_t) (data strides : list Z)
    (dts : list ScalarType) (idx : Z) (s : State) :
  let c := cell_1d data strides idx (S (arity f)) in
  lambda_1d_cast f data strides dts idx s
  = (Some tt,
     mkState (write_cell f dts (mem s) (mem s) c)
             (trace s ++ read_events dts c (arity f) ++ [Wr (nth 0%nat c 0) (nth 0%nat dts Byte)])
             (stream s)).
Proof.
  intros c. unfold lambda_1d_cast, bind. rewrite invoke_cast_run.
  unfold cast_and_store, store_m, write_cell, cell_value, read_events. simpl mem. simpl trace.
  simpl stream.
  assert (E0 : nth 0%nat c 0 = nth 0%nat data 0 + to_int32 (nth 0%nat strides 0 * idx)).
  { unfold c, cell_1d. rewrite nth_map_seq by lia. reflexivity. }
  assert (EI : forall I, (I < arity f)%nat ->
            nth (S I) c 0 = nth (S I) data 0 + index_wrap int_t (idx * nth (S I) strides 0)).
  { intros I HI. unfold c, cell_1d. rewrite nth_map_seq by lia.
    simpl. rewrite Z.mul_comm. reflexivity. }
  rewrite E0. rewrite static_cast_call.
  rewrite <- app_assoc.
  rewrite (map_seq_ext (fun I => static_cast (arg f I)
             (load (nth (S I) dts Byte) (mem s) (nth (S I) c 0)))
           (fun I => static_cast (arg f I)
             (load (nth (S I) dts Byte) (mem s)
                (nth (S I) data 0 + index_wrap int_t (idx * nth (S I) strides 0)))))
    by (intros I HI; rewrite EI by exact HI; reflexivity).
  rewrite (map_seq_ext (fun I => Rd (nth (S I) c 0) (nth (S I) dts Byte))
           (fun I => Rd (nth (S I) data 0 + index_wrap int_t (idx * nth (S I) strides 0))
                        (nth (S I) dts Byte)))
    by (intros I HI; rewrite EI by exact HI; reflexivity).
  reflexivity.
Qed.

Lemma static_types_nth (f : func_t) (I : nat) :
  nth (S I) (static_types f) Byte = arg f I.
Proof. reflexivity. Qed.

Lemma lambda_1d_run (f : func_t) (data strides : list Z) (idx : Z) (s : State) :
  let c := cell_1d data strides idx (S (arity f)) in
  lambda_1d f data strides idx s
  = (Some tt,
     mkState (write_cell f (static_types f) (mem s) (mem s) c)
             (trace s ++ read_events (static_types f) c (arity f)
                ++ [Wr (nth 0%nat c 0) (result_type f)])
             (stream s)).
Proof.
  intros c. unfold lambda_1d, bind. rewrite invoke_run.
  unfold store_m, write_cell, cell_value, read_events. simpl mem. simpl trace.
  simpl stream.
  assert (E0 : nth 0%nat c 0 = nth 0%nat data 0 + to_int32 (nth 0%nat strides 0 * idx)).
  { unfold c, cell_1d. rewrite nth_map_seq by lia. reflexivity. }
  assert (EI : forall I, (I < arity f)%nat ->
            nth (S I) c 0 = nth (S I) data 0 + index_wrap int_t (idx * nth (S I) strides 0)).
  { intros I HI. unfold c, cell_1d. rewrite nth_map_seq by lia.
    simpl. rewrite Z.mul_comm. reflexivity. }
  rewrite E0. simpl (nth 0%nat (static_types f) Byte). rewrite static_cast_call.
  rewrite <- app_assoc.
  rewrite (map_seq_ext (fun I => static_cast (arg f I)
             (load (nth (S I) (static_types f) Byte) (mem s) (nth (S I) c 0)))
           (fun I => load (arg f I) (mem s)
                (nth (S I) data 0 + index_wrap int_t (idx * nth (S I) strides 0))))
    by (intros I HI; rewrite EI by exact HI; rewrite static_types_nth;
        apply static_cast_load).
  rewrite (map_seq_ext (fun I => Rd (nth (S I) c 0) (nth (S I) (static_types f) Byte))
           (fun I => Rd (nth (S I) data 0 + index_wrap int_t (idx * nth (S I) strides 0))
                        (arg f I)))
    by (intros I HI; rewrite EI by exact HI; reflexivity).
  reflexivity.
Qed.

(** Offsets delivered by the calculator are values of the unsigned index type. *)
Lemma offset_loop_range (sizes : list Z) : forall strs idx offs k,
  0 <= nth k offs 0 < 2 ^ 32 ->
  0 <= nth k (offset_loop sizes strs idx offs) 0 < 2 ^ 32.
Proof.
  induction sizes as [|sz sizes IH]; intros strs idx offs k H; simpl; [exact H|].
  destruct strs as [|st strs]; [exact H|].
  apply IH.
  destruct (Nat.lt_ge_cases k (length (combine offs st))) as [Hk|Hk].
  - rewrite (nth_indep _ 0 (to_uint32 (fst (0, 0) + to_uint32 (idx mod sz * snd (0, 0)))))
      by (rewrite length_map; exact Hk).
    rewrite (map_nth (fun os => to_uint32 (fst os + to_uint32 (idx mod sz * snd os)))).
    unfold to_uint32 at 1 3, wrap_unsigned. apply Z.mod_pos_bound. reflexivity.
  - rewrite nth_overflow by (rewrite length_map; exact Hk). lia.
Qed.

Lemma offset_get_range (oc : OffsetCalculator) (n : nat) (idx : Z) (k : nat) :
  0 <= nth k (offset_get oc n idx) 0 < 2 ^ 32.
Proof.
  unfold offset_get. apply offset_loop_range.
  destruct (Nat.lt_ge_cases k n) as [Hk|Hk].
  - rewrite nth_repeat_lt by exact Hk. lia.
  - rewrite nth_overflow by (rewrite repeat_length; exact Hk). lia.
Qed.

Lemma lambda_nd_cast_run (f : func_t) (data : list Z) (dts : list ScalarType)
    (oc : OffsetCalculator) (idx : Z) (s : State) :
  length data = S (arity f) ->
  let c := cell_nd data oc idx in
  lambda_nd_cast f data dts oc idx s
  = (Some tt,
     mkState (write_cell f dts (mem s) (mem s) c)
             (trace s ++ read_events dts c (arity f) ++ [Wr (nth 0%nat c 0) (nth 0%nat dts Byte)])
             (stream s)).
Proof.
  intros L c. unfold lambda_nd_cast, bind. rewrite invoke_cast_run.
  unfold cast_and_store, store_m, write_cell, cell_value, read_events. simpl mem. simpl trace.
  simpl stream.
  assert (EI : forall I, (I < S (arity f))%nat ->
            nth I c 0 = nth I data 0 + nth I (offset_get oc (length data) idx) 0).
  { intros I HI. unfold c, cell_nd. rewrite nth_map_seq by lia. reflexivity. }
  assert (EW : forall I, index_wrap uint32_t (1 * nth I (offset_get oc (length data) idx) 0)
                         = nth I (offset_get oc (length data) idx) 0).
  { intros I. unfold index_wrap. rewrite Z.mul_1_l. apply to_uint32_small.
    apply offset_get_range. }
  rewrite (EI 0%nat) by lia. rewrite static_cast_call.
  rewrite <- app_assoc.
  rewrite (map_seq_ext (fun I => static_cast (arg f I)
             (load (nth (S I) dts Byte) (mem s) (nth (S I) c 0)))
           (fun I => static_cast (arg f I)
             (load (nth (S I) dts Byte) (mem s)
                (nth (S I) data 0
                 + index_wrap uint32_t (1 * nth (S I) (offset_get oc (length data) idx) 0)))))
    by (intros I HI; rewrite EI, EW by lia; reflexivity).
  rewrite (map_seq_ext (fun I => Rd (nth (S I) c 0) (nth (S I) dts Byte))
           (fun I => Rd (nth (S I) data 0
                 + index_wrap uint32_t (1 * nth (S I) (offset_get oc (length data) idx) 0))
                        (nth (S I) dts Byte)))
    by (intros I HI; rewrite EI, EW by lia; reflexivity).
  reflexivity.
Qed.

Lemma lambda_nd_run (f : func_t) (data : list Z)
    (oc : OffsetCalculator) (idx : Z) (s : State) :
  length data = S (arity f) ->
  let c := cell_nd data oc idx in
  lambda_nd f data oc idx s
  = (Some tt,
     mkState (write_cell f (static_types f) (mem s) (mem s) c)
             (trace s ++ read_events (static_types f) c (arity f)
                ++ [Wr (nth 0%nat c 0) (result_type f)])
             (stream s)).
Proof.
  intros L c. unfold lambda_nd, bind. rewrite invoke_run.
  unfold store_m, write_cell, cell_value, read_events. simpl mem. simpl trace.
  simpl stream.
  assert (EI : forall I, (I < S (arity f))%nat ->
            nth I c 0 = nth I data 0 + nth I (offset_get oc (length data) idx) 0).
  { intros I HI. unfold c, cell_nd. rewrite nth_map_seq by lia. reflexivity. }
  assert (EW : forall I, index_wrap uint32_t (1 * nth I (offset_get oc (length data) idx) 0)
                         = nth I (offset_get oc (length data) idx) 0).
  { intros I. unfold index_wrap. rewrite Z.mul_1_l. apply to_uint32_small.
    apply offset_get_range. }
  rewrite (EI 0%nat) by lia. simpl (nth 0%nat (static_types f) Byte).
  rewrite static_cast_call.
  rewrite <- app_assoc.
  rewrite (map_seq_ext (fun I => static_cast (arg f I)
             (load (nth (S I) (static_types f) Byte) (mem s) (nth (S I) c 0)))
           (fun I => load (arg f I) (mem s)
                (nth (S I) data 0
                 + index_wrap uint32_t (1 * nth (S I) (offset_get oc (length data) idx) 0))))
    by (intros I HI; rewrite EI, EW by lia; rewrite static_types_nth;
        apply static_cast_load).
  rewrite (map_seq_ext (fun I => Rd (nth (S I) c 0) (nth (S I) (static_types f) Byte))
           (fun I => Rd (nth (S I) data 0
                 + index_wrap uint32_t (1 * nth (S I) (offset_get oc (length data) idx) 0))
                        (arg f I)))
    by (intros I HI; rewrite EI, EW by lia; reflexivity).
  reflexivity.
Qed.

(** C3.  The dynamic-casting adapter: [invoke] with [dtypes] returns the
    function applied to the input elements, each read as its stored type and
    converted to the static type of its argument by [static_cast]; the
    casting lambda stores that result converted by [static_cast] to the
    stored type of the output, at the output element.  The conversions are
    plain [static_cast]s: nothing is clamped. *)
Theorem dynamic_casting_adapter (f : func_t) (data strides : list Z)
    (dts : list ScalarType) (idx : Z) (s : State) :
  let c := cell_1d data strides idx (S (arity f)) in
  let args := map (fun I => static_cast (arg f I)
                              (load (nth (S I) dts Byte) (mem s) (nth (S I) c 0)))
                  (seq 0 (arity f)) in
  fst (legacy.invoke_cast int_t f (tl data) (tl strides) (tl dts) idx s)
    = Some (call f args)
  /\ fst (lambda_1d_cast f data strides dts idx s) = Some tt
  /\ mem (snd (lambda_1d_cast f data strides dts idx s))
     = store (nth 0%nat dts Byte) (mem s) (nth 0%nat c 0)
         (static_cast (nth 0%nat dts Byte) (call f args)).
Proof.
  intros c args. split; [|split].
  - rewrite invoke_cast_run. simpl. f_equal. f_equal. apply map_seq_ext.
    intros I HI. unfold c, cell_1d. rewrite nth_map_seq by lia.
    simpl. rewrite Z.mul_comm. reflexivity.
  - rewrite lambda_1d_cast_run. reflexivity.
  - rewrite lambda_1d_cast_run. reflexivity.
Qed.

(** A stored [Int] 300 read for a [Char] argument is 44, and the [Char]
    result is stored as [Int]. *)
Example dynamic_casting_wraps :
  let m : memory := fun a => if a =? 200 then 44 else if a =? 201 then 1 else 0 in
  let f := mkFunc [Char] Char (fun xs => nth 0%nat xs 0 + 100) in
  let s' := snd (lambda_1d_cast f [300; 200] [4; 4] [Int; Int] 0 (mkState m [] [])) in
  load Int m 200 = 300 /\ load Int (mem s') 300 = -112.
Proof. vm_compute. split; reflexivity. Qed.

(** ** Boundary masking *)

Lemma emits_ret {A} (P : Access -> Prop) (a : A) : emits P (ret a).
Proof.
  intros s. exists a, s, []. split; [reflexivity|]. split; [|constructor].
  symmetry. apply app_nil_r.
Qed.

Lemma emits_bind {A B} (P : Access -> Prop) (c : M A) (k : A -> M B) :
  emits P c -> (forall a, emits P (k a)) -> emits P (bind c k).
Proof.
  intros Hc Hk s. destruct (Hc s) as (a & s1 & tr1 & E1 & T1 & F1).
  destruct (Hk a s1) as (b & s2 & tr2 & E2 & T2 & F2).
  exists b, s2, (tr1 ++ tr2). split; [|split].
  - unfold bind. rewrite E1. exact E2.
  - rewrite T2, T1. symmetry. apply app_assoc.
  - apply Forall_app. split; assumption.
Qed.

Lemma emits_load (P : Access -> Prop) (t : ScalarType) (p : Z) :
  P (Rd p t) -> emits P (load_m t p).
Proof.
  intros H s. eexists. eexists. exists [Rd p t].
  split; [reflexivity|]. split; [reflexivity|]. constructor; [exact H | constructor].
Qed.

Lemma emits_store (P : Access -> Prop) (t : ScalarType) (p v : Z) :
  P (Wr p t) -> emits P (store_m t p v).
Proof.
  intros H s. eexists. eexists. exists [Wr p t].
  split; [reflexivity|]. split; [reflexivity|]. constructor; [exact H | constructor].
Qed.

Lemma emits_map_m {A B} (P : Access -> Prop) (l : list A) (body : A -> M B) :
  (forall a, In a l -> emits P (body a)) -> emits P (map_m l body).
Proof.
  induction l as [|a l IH]; intros H; simpl.
  - apply emits_ret.
  - apply emits_bind; [apply H; left; reflexivity|]. intros b.
    apply emits_bind; [apply IH; intros; apply H; right; assumption|].
    intros bs. apply emits_ret.
Qed.

Lemma emits_for_each {A} (P : Access -> Prop) (l : list A) (body : A -> M unit) :
  (forall a, In a l -> emits P (body a)) -> emits P (for_each l body).
Proof.
  induction l as [|a l IH]; intros H; simpl.
  - apply emits_ret.
  - apply emits_bind; [apply H; left; reflexivity|]. intros _.
    apply IH. intros; apply H; right; assumption.
Qed.

Lemma modern_kernel_masked (nt vt N : Z) (f : func_t) (data : list Z) (b t : Z) :
  emits (masked_access nt vt N f data (thread_base nt vt b t))
        (modern.elementwise_kernel nt vt N f data b t).
Proof.
  unfold modern.elementwise_kernel. fold (thread_base nt vt b t).
  set (idx := thread_base nt vt b t).
  apply emits_bind.
  - apply emits_map_m. intros i Hi.
    destruct (Z.ltb_spec (to_int32 (idx + to_int32 (nt * i))) N) as [Hlt|Hge];
      [|apply emits_ret].
    apply emits_map_m. intros j Hj. apply in_seq in Hj.
    apply emits_load. exists i. split; [exact Hi|]. split; [exact Hlt|].
    right. exists j. split; [lia|].
    rewrite nth_map_seq by lia. rewrite Nat.add_1_r. reflexivity.
  - intros args. apply emits_for_each. intros [i r] Hir. simpl fst. simpl snd.
    destruct (Z.ltb_spec (to_int32 (idx + to_int32 (nt * i))) N) as [Hlt|Hge];
      [|apply emits_ret].
    apply emits_store. exists i. split; [|split; [exact Hlt|left; reflexivity]].
    apply in_combine_l in Hir. exact Hir.
Qed.

Lemma legacy_kernel_loop_owned (nt N : Z) (f : Z -> M unit) (k : nat) : forall idx s,
  legacy.elementwise_kernel_loop nt N f k idx s
  = for_each (owned_loop nt N k idx) f s.
Proof.
  induction k as [|k IH]; intros idx s; simpl; [reflexivity|].
  destruct (idx <? N); [|apply IH]. simpl. unfold bind.
  destruct (f idx s) as [[[]|] s']; [apply IH | reflexivity].
Qed.

Lemma legacy_kernel_owned (nt vt N : Z) (f : Z -> M unit) (b t : Z) (s : State) :
  legacy.elementwise_kernel nt vt N f b t s = for_each (owned nt vt N b t) f s.
Proof. apply legacy_kernel_loop_owned. Qed.

Lemma owned_loop_below (nt N : Z) (k : nat) : forall idx,
  Forall (fun x => x < N) (owned_loop nt N k idx).
Proof.
  induction k as [|k IH]; intros idx; simpl; [constructor|].
  destruct (Z.ltb_spec idx N); [constructor; [assumption | apply IH] | apply IH].
Qed.

(** C6.  Boundary masking in both kernels.  A thread of the strided kernel
    calls the element function exactly on the indices it owns, one after
    another, and all of them are below [N]; every access a thread of the
    vectorized kernel makes, in the fetch pass and in the store pass, belongs
    to a slot whose computed element index is below [N]. *)
Theorem boundary_masking (nt vt N : Z) :
  (forall f b t s,
      legacy.elementwise_kernel nt vt N f b t s = for_each (owned nt vt N b t) f s)
  /\ (forall b t, Forall (fun idx => idx < N) (owned nt vt N b t))
  /\ (forall f data b t,
        emits (masked_access nt vt N f data (thread_base nt vt b t))
              (modern.elementwise_kernel nt vt N f data b t)).
Proof.
  split; [|split].
  - intros. apply legacy_kernel_owned.
  - intros. apply owned_loop_below.
  - intros. apply modern_kernel_masked.
Qed.

(** ** Independent cells: the order of the threads does not matter *)

Lemma NoDup_app_disjoint {A} (l1 l2 : list A) (x : A) :
  NoDup (l1 ++ l2) -> In x l1 -> In x l2 -> False.
Proof.
  induction l1 as [|a l1 IH]; intros ND H1 H2; [contradiction|].
  simpl in ND. inversion ND as [|? ? Hn ND']; subst.
  destruct H1 as [->|H1]; [apply Hn; apply in_or_app; right; exact H2|].
  apply IH; assumption.
Qed.

Section Independence.

Variable f : func_t.
Variable dts : list ScalarType.
Variable m0 : memory.


Lemma store_ext (t : ScalarType) (m m' : memory) (p v : Z) :
  (forall x, m x = m' x) -> forall x, store t m p v x = store t m' p v x.
Proof.
  intros H x.
  destruct (Z_lt_dec x p) as [Hl|Hl]; [rewrite !store_out by lia; apply H|].
  destruct (Z_le_dec (p + elementSize t) x) as [Hr|Hr];
    [rewrite !store_out by lia; apply H|].
  rewrite !store_in by lia. reflexivity.
Qed.

Lemma store_swap (t : ScalarType) (m : memory) (p v q w : Z) :
  disjoint p (elementSize t) q (elementSize t) ->
  forall x, store t (store t m p v) q w x = store t (store t m q w) p v x.
Proof.
  intros D x. unfold disjoint in D.
  destruct (Z_lt_dec x q) as [Hl|Hl].
  - rewrite (store_out t _ q w x) by lia.
    destruct (Z_lt_dec x p) as [Hl'|Hl'];
      [rewrite !store_out by lia; reflexivity|].
    destruct (Z_le_dec (p + elementSize t) x) as [Hr'|Hr'];
      [rewrite !store_out by lia; reflexivity|].
    rewrite !store_in by lia. reflexivity.
  - destruct (Z_le_dec (q + elementSize t) x) as [Hr|Hr].
    + rewrite (store_out t _ q w x) by lia.
      destruct (Z_lt_dec x p) as [Hl'|Hl'];
        [rewrite !store_out by lia; reflexivity|].
      destruct (Z_le_dec (p + elementSize t) x) as [Hr'|Hr'];
        [rewrite !store_out by lia; reflexivity|].
      rewrite !store_in by lia. reflexivity.
    + rewrite (store_in t _ q w x) by lia.
      rewrite (store_out t _ p v x) by lia.
      rewrite store_in by lia. reflexivity.
Qed.

Lemma cell_value_ext (c : list Z) (m m' : memory) :
  (forall I x, (I < arity f)%nat ->
      nth (S I) c 0 <= x < nth (S I) c 0 + elementSize (nth (S I) dts Byte) ->
      m x = m' x) ->
  cell_value f dts c m = cell_value f dts c m'.
Proof.
  intros H. unfold cell_value. f_equal. f_equal. apply map_seq_ext.
  intros I HI. f_equal. apply load_ext. intros x Hx. apply (H I x HI Hx).
Qed.

Lemma writes_from_frame (C : list (list Z)) : forall acc x,
  (forall c, In c C ->
     x < nth 0%nat c 0 \/ nth 0%nat c 0 + elementSize (nth 0%nat dts Byte) <= x) ->
  writes_from f dts m0 acc C x = acc x.
Proof.
  induction C as [|c C IH]; intros acc x H; [reflexivity|].
  change (writes_from f dts m0 acc (c :: C)) with (writes_from f dts m0 (write_cell f dts m0 acc c) C).
  rewrite IH by (intros; apply H; right; assumption).
  unfold write_cell. apply store_out. apply H. left. reflexivity.
Qed.

Lemma writes_from_ext (C : list (list Z)) : forall acc acc',
  (forall x, acc x = acc' x) ->
  forall x, writes_from f dts m0 acc C x = writes_from f dts m0 acc' C x.
Proof.
  induction C as [|c C IH]; intros acc acc' H x; [apply H|].
  change (writes_from f dts m0 acc (c :: C)) with (writes_from f dts m0 (write_cell f dts m0 acc c) C).
  change (writes_from f dts m0 acc' (c :: C)) with (writes_from f dts m0 (write_cell f dts m0 acc' c) C).
  apply IH. intros y. unfold write_cell. apply store_ext. exact H.
Qed.

(** A cell that keeps clear of the outputs of [W] computes, after [W] was
    written, the value it computes from [m0]. *)
Lemma cell_value_after (W : list (list Z)) (c : list Z) (m : memory) :
  (forall x, m x = writes_from f dts m0 m0 W x) ->
  (forall w, In w W -> sep f dts c w) ->
  cell_value f dts c m = cell_value f dts c m0.
Proof.
  intros Hm Hsep. apply cell_value_ext. intros I x HI Hx.
  rewrite Hm. apply writes_from_frame. intros w Hw.
  destruct (Hsep w Hw) as [_ Hin]. specialize (Hin I HI). unfold disjoint in Hin. lia.
Qed.

Lemma batch_step_pointwise (l : list (list Z)) (m : memory) : forall acc acc',
  (forall c, In c l -> cell_value f dts c m = cell_value f dts c m0) ->
  (forall x, acc x = acc' x) ->
  forall x, fold_left (write_cell f dts m) l acc x = writes_from f dts m0 acc' l x.
Proof.
  induction l as [|c l IH]; intros acc acc' Hv H x; [apply H|].
  change (writes_from f dts m0 acc' (c :: l)) with (writes_from f dts m0 (write_cell f dts m0 acc' c) l).
  cbn [fold_left].
  apply IH; [intros; apply Hv; right; assumption|].
  intros y. unfold write_cell. rewrite (Hv c) by (left; reflexivity).
  apply store_ext. exact H.
Qed.

Lemma writes_from_app (W l : list (list Z)) (acc : memory) :
  writes_from f dts m0 acc (W ++ l) = writes_from f dts m0 (writes_from f dts m0 acc W) l.
Proof. unfold writes_from. apply fold_left_app. Qed.

Lemma run_batches_writes (P : list (list (list Z))) : forall W m,
  (forall x, m x = writes_from f dts m0 m0 W x) ->
  independent f dts (W ++ concat P) ->
  forall x, run_batches f dts P m x = writes_from f dts m0 m0 (W ++ concat P) x.
Proof.
  induction P as [|l P IH]; intros W m Hm Hind x; simpl.
  - rewrite app_nil_r. apply Hm.
  - simpl in Hind. rewrite app_assoc in Hind |- *.
    apply IH; [|exact Hind]. intros y. rewrite writes_from_app.
    unfold batch_step. apply batch_step_pointwise; [|exact Hm].
    intros c Hc. apply (cell_value_after W); [exact Hm|].
    intros w Hw. destruct Hind as [ND Hs].
    apply Hs.
    + apply in_or_app. left. apply in_or_app. right. exact Hc.
    + apply in_or_app. left. apply in_or_app. left. exact Hw.
    + intros ->. apply NoDup_app_remove_r in ND.
      apply (NoDup_app_disjoint W l w ND Hw Hc).
Qed.

Lemma writes_from_perm (C C' : list (list Z)) :
  Permutation C C' ->
  independent f dts C ->
  forall acc acc', (forall x, acc x = acc' x) ->
  forall x, writes_from f dts m0 acc C x = writes_from f dts m0 acc' C' x.
Proof.
  intros HP. induction HP as [| c C C' HP IH | c c' C | C C' C'' HP1 IH1 HP2 IH2];
    intros Hind acc acc' H x.
  - apply H.
  - change (writes_from f dts m0 acc (c :: C)) with (writes_from f dts m0 (write_cell f dts m0 acc c) C).
    change (writes_from f dts m0 acc' (c :: C')) with (writes_from f dts m0 (write_cell f dts m0 acc' c) C').
    apply IH.
    + destruct Hind as [ND Hs]. split; [inversion ND; assumption|].
      intros a b Ha Hb. apply Hs; right; assumption.
    + intros y. unfold write_cell. apply store_ext. exact H.
  - change (writes_from f dts m0 acc (c' :: c :: C))
      with (writes_from f dts m0 (write_cell f dts m0 (write_cell f dts m0 acc c') c) C).
    change (writes_from f dts m0 acc' (c :: c' :: C))
      with (writes_from f dts m0 (write_cell f dts m0 (write_cell f dts m0 acc' c) c') C).
    apply writes_from_ext. intros y. unfold write_cell.
    destruct Hind as [ND Hs].
    assert (Hne : c' <> c).
    { inversion ND as [|? ? Hn _]; subst. intros ->. apply Hn. left. reflexivity. }
    destruct (Hs c' c) as [D _]; [left; reflexivity | right; left; reflexivity | exact Hne |].
    rewrite store_swap by exact D.
    apply store_ext. intros z. apply store_ext. exact H.
  - rewrite (IH1 Hind acc acc (fun _ => eq_refl) x). apply IH2; [|exact H].
    destruct Hind as [ND Hs]. split.
    + apply (Permutation_NoDup HP1 ND).
    + intros a b Ha Hb. apply Hs; apply (Permutation_in _ (Permutation_sym HP1)); assumption.
Qed.

(** Whatever the order in which the device runs the batches, and however the
    cells are grouped into batches, the memory is the pointwise result. *)
Lemma run_batches_pointwise (P : list (list (list Z))) (C : list (list Z)) :
  Permutation (concat P) C ->
  independent f dts C ->
  forall x, run_batches f dts P m0 x = pointwise f dts C m0 x.
Proof.
  intros HP Hind x.
  assert (Hind' : independent f dts (concat P)).
  { destruct Hind as [ND Hs]. split.
    - apply (Permutation_NoDup (Permutation_sym HP) ND).
    - intros a b Ha Hb. apply Hs; apply (Permutation_in _ HP); assumption. }
  rewrite (run_batches_writes P [] m0); [| reflexivity | exact Hind'].
  simpl. apply writes_from_perm; [exact HP | exact Hind' | reflexivity].
Qed.

End Independence.

(** ** Offsets of the calculator *)

Lemma to_uint32_add_l (a b : Z) : to_uint32 (to_uint32 a + b) = to_uint32 (a + b).
Proof. unfold to_uint32, wrap_unsigned. apply Zplus_mod_idemp_l. Qed.

Lemma to_uint32_add_r (a b : Z) : to_uint32 (a + to_uint32 b) = to_uint32 (a + b).
Proof. unfold to_uint32, wrap_unsigned. apply Zplus_mod_idemp_r. Qed.

Lemma to_uint32_mul_r (a b : Z) : to_uint32 (a * to_uint32 b) = to_uint32 (a * b).
Proof. unfold to_uint32, wrap_unsigned. apply Zmult_mod_idemp_r. Qed.

Lemma to_uint32_range (a : Z) : 0 <= to_uint32 a < 2 ^ 32.
Proof. unfold to_uint32, wrap_unsigned. apply Z.mod_pos_bound. reflexivity. Qed.

Lemma nth_map_combine (g : Z * Z -> Z) (offs st : list Z) (k : nat) :
  (k < length offs)%nat -> length st = length offs ->
  nth k (map g (combine offs st)) 0 = g (nth k offs 0, nth k st 0).
Proof.
  intros Hk HL.
  rewrite (nth_indep _ 0 (g (0, 0)))
    by (rewrite length_map, length_combine; lia).
  rewrite (map_nth g). rewrite combine_nth by (symmetry; exact HL). reflexivity.
Qed.

(** The calculator computes, modulo [2^32], the exact offset of its own
    table. *)
Lemma offset_loop_exact (sizes : list Z) : forall strs idx offs k,
  (k < length offs)%nat ->
  Forall (fun st => length st = length offs) strs ->
  0 <= nth k offs 0 < 2 ^ 32 ->
  nth k (offset_loop sizes strs idx offs) 0
  = to_uint32 (nth k offs 0
               + byte_offset sizes (map (fun st => nth k st 0) strs) idx).
Proof.
  induction sizes as [|sz sizes IH]; intros strs idx offs k Hk Hlen Hr.
  - simpl. rewrite Z.add_0_r. symmetry. apply to_uint32_small. exact Hr.
  - destruct strs as [|st strs].
    + simpl. rewrite Z.add_0_r. symmetry. apply to_uint32_small. exact Hr.
    + inversion Hlen as [|? ? Hst Hlen']; subst.
      cbn [offset_loop byte_offset map].
      assert (Hl' : length (map (fun os => to_uint32 (fst os + to_uint32 (idx mod sz * snd os)))
                              (combine offs st)) = length offs).
      { rewrite length_map, length_combine. lia. }
      rewrite IH.
      * rewrite nth_map_combine by assumption. cbn [fst snd].
        rewrite to_uint32_add_l.
        replace (nth k offs 0 + to_uint32 (idx mod sz * nth k st 0)
                 + byte_offset sizes (map (fun st0 => nth k st0 0) strs) (idx / sz))
          with (nth k offs 0
                + byte_offset sizes (map (fun st0 => nth k st0 0) strs) (idx / sz)
                + to_uint32 (idx mod sz * nth k st 0)) by lia.
        rewrite to_uint32_add_r. f_equal. lia.
      * rewrite Hl'. exact Hk.
      * rewrite Hl'. exact Hlen'.
      * rewrite nth_map_combine by assumption. apply to_uint32_range.
Qed.

Lemma byte_offset_trunc (sh : list Z) : forall st idx,
  to_uint32 (byte_offset sh (map to_uint32 st) idx) = to_uint32 (byte_offset sh st idx).
Proof.
  induction sh as [|n sh IH]; intros st idx; [reflexivity|].
  destruct st as [|s st]; [reflexivity|].
  cbn [byte_offset map].
  rewrite <- to_uint32_add_r, IH, to_uint32_add_r.
  rewrite <- to_uint32_add_l, to_uint32_mul_r, to_uint32_add_l. reflexivity.
Qed.

Lemma byte_offset_bound (sh : list Z) : forall st idx,
  Forall (fun n => 0 < n) sh -> Forall (fun s => 0 <= s) st ->
  0 <= byte_offset sh st idx < max_offset sh st.
Proof.
  induction sh as [|n sh IH]; intros st idx Hsh Hst; [simpl; lia|].
  destruct st as [|s st]; [simpl; lia|].
  inversion Hsh; inversion Hst; subst. cbn [byte_offset max_offset].
  specialize (IH st (idx / n) H2 H6).
  pose proof (Z.mod_pos_bound idx n H1). nia.
Qed.

Lemma map_nth_seq {A B} (g : A -> B) (l : list A) (d : A) :
  map (fun k => g (nth k l d)) (seq 0 (length l)) = map g l.
Proof.
  induction l as [|a l IH] using rev_ind; [reflexivity|].
  rewrite length_app, Nat.add_1_r, seq_S, !map_app. simpl.
  rewrite app_nth2, Nat.sub_diag by lia. simpl. f_equal.
  rewrite <- IH. apply map_ext_in. intros k Hk. apply in_seq in Hk.
  rewrite app_nth1 by lia. reflexivity.
Qed.

Lemma map_to_uint32_id (l : list Z) :
  Forall (fun n => 0 <= n < 2 ^ 32) l -> map to_uint32 l = l.
Proof.
  induction 1 as [|n l Hn _ IH]; simpl; [reflexivity|].
  rewrite IH, to_uint32_small by exact Hn. reflexivity.
Qed.

(** Every extent of a non-empty shape is at most the element count. *)
Lemma extent_le_numel (sh : list Z) :
  Forall (fun n => 0 < n) sh ->
  0 < fold_right Z.mul 1 sh /\ Forall (fun n => n <= fold_right Z.mul 1 sh) sh.
Proof.
  induction 1 as [|n sh Hn _ [IHp IHf]]; simpl; [split; [lia | constructor]|].
  split; [nia|]. constructor; [nia|].
  eapply Forall_impl; [|exact IHf]. simpl. intros a Ha. nia.
Qed.

(** ** Well-formed descriptors *)

Section IteratorFacts.

Variable it : TensorIterator.
Hypothesis wf : well_formed it = true.

Lemma wf_shape : Forall (fun n => 0 < n) (shape it).
Proof.
  unfold well_formed in wf. apply andb_prop in wf. destruct wf as [H _].
  apply Forall_forall. intros n Hn.
  rewrite forallb_forall in H. apply H in Hn. lia.
Qed.

Lemma operand_In (k : nat) : (k < ntensors it)%nat -> In (operand it k) (operands it).
Proof. intros H. apply nth_In. exact H. Qed.

Lemma wf_strides (k : nat) :
  (k < ntensors it)%nat ->
  length (strides it k) = ndim it /\ Forall (fun s => 0 <= s) (strides it k).
Proof.
  intros Hk. unfold well_formed in wf. apply andb_prop in wf. destruct wf as [_ H].
  rewrite forallb_forall in H. specialize (H _ (operand_In k Hk)).
  apply andb_prop in H. destruct H as [H _].
  apply andb_prop in H. destruct H as [H1 H2].
  split; [apply Nat.eqb_eq; exact H1|].
  apply Forall_forall. intros s Hs. rewrite forallb_forall in H2.
  apply H2 in Hs. lia.
Qed.

Lemma fits_offset (k : nat) :
  (k < ntensors it)%nat -> max_offset (shape it) (strides it k) <= INT32_MAX.
Proof.
  intros Hk. unfold well_formed in wf. apply andb_prop in wf. destruct wf as [_ H].
  rewrite forallb_forall in H. specialize (H _ (operand_In k Hk)).
  apply andb_prop in H. destruct H as [_ H]. unfold strides. lia.
Qed.

Lemma numel_pos : 0 < numel it.
Proof. apply extent_le_numel. apply wf_shape. Qed.

Hypothesis fits : can_use_32bit_indexing it = true.

Lemma fits_numel : numel it <= INT32_MAX.
Proof. unfold can_use_32bit_indexing in fits. lia. Qed.

Lemma byte_offset_fits (k : nat) (idx : Z) :
  (k < ntensors it)%nat ->
  0 <= byte_offset (shape it) (strides it k) idx < 2 ^ 31.
Proof.
  intros Hk. pose proof (fits_offset k Hk) as Hm.
  pose proof (byte_offset_bound (shape it) (strides it k) idx wf_shape
                (proj2 (wf_strides k Hk))).
  unfold INT32_MAX in Hm. lia.
Qed.

Lemma shape_uint32 : map to_uint32 (shape it) = shape it.
Proof.
  apply map_to_uint32_id. pose proof (extent_le_numel _ wf_shape) as [_ H].
  pose proof wf_shape as Hp. pose proof fits_numel as Hn. unfold INT32_MAX in Hn.
  rewrite Forall_forall in *. intros n Hn'. specialize (H n Hn'). specialize (Hp n Hn').
  unfold numel in Hn. lia.
Qed.

(** The offsets of the calculator are the exact byte offsets. *)
Lemma make_offset_calculator_run (n : nat) (s : State) :
  ntensors it = n ->
  legacy.make_offset_calculator n it s
  = (Some (mkOffsetCalculator
             (map to_uint32 (shape it))
             (map (fun d => map (fun i => to_uint32 (nth d (strides it i) 0)) (seq 0 n))
                  (seq 0 (ndim it)))), s).
Proof.
  intros H. unfold legacy.make_offset_calculator, bind, assert.
  rewrite H, Nat.eqb_refl. reflexivity.
Qed.

Lemma offset_get_exact (n k : nat) (idx : Z) :
  ntensors it = n -> (k < n)%nat -> 0 <= idx < numel it ->
  nth k (offset_get
           (mkOffsetCalculator
              (map to_uint32 (shape it))
              (map (fun d => map (fun i => to_uint32 (nth d (strides it i) 0)) (seq 0 n))
                   (seq 0 (ndim it)))) n idx) 0
  = byte_offset (shape it) (strides it k) idx.
Proof.
  intros Hn Hk Hidx. unfold offset_get. cbn [oc_sizes oc_strides].
  pose proof fits_numel as HN. unfold INT32_MAX in HN.
  assert (P32 : 2 ^ 32 = 4294967296) by reflexivity.
  assert (P31 : 2 ^ 31 = 2147483648) by reflexivity.
  rewrite offset_loop_exact.
  - rewrite nth_repeat_lt by exact Hk. rewrite Z.add_0_l.
    rewrite map_map.
    rewrite (map_ext_in _ (fun d => to_uint32 (nth d (strides it k) 0)))
      by (intros d _;
          apply (nth_map_seq (fun i => to_uint32 (nth d (strides it i) 0))); exact Hk).
    destruct (wf_strides k) as [HL _]; [lia|]. unfold ndim in HL |- *.
    rewrite <- HL, (map_nth_seq to_uint32 (strides it k) 0).
    rewrite shape_uint32, (to_uint32_small idx) by lia.
    rewrite byte_offset_trunc. apply to_uint32_small.
    pose proof (byte_offset_fits k idx). lia.
  - rewrite repeat_length. exact Hk.
  - apply Forall_forall. intros st Hst. apply in_map_iff in Hst.
    destruct Hst as (d & <- & _). rewrite length_map, length_seq, repeat_length.
    reflexivity.
  - rewrite nth_repeat_lt by exact Hk. lia.
Qed.

Lemma cell_nd_exact (n : nat) (idx : Z) :
  ntensors it = n -> 0 <= idx < numel it ->
  cell_nd (map (data_ptr it) (seq 0 n))
          (mkOffsetCalculator
             (map to_uint32 (shape it))
             (map (fun d => map (fun i => to_uint32 (nth d (strides it i) 0)) (seq 0 n))
                  (seq 0 (ndim it)))) idx
  = cell it idx.
Proof.
  intros Hn Hidx. unfold cell_nd, cell. rewrite length_map, length_seq, Hn.
  apply map_seq_ext. intros k Hk. rewrite nth_map_seq by exact Hk.
  rewrite offset_get_exact by assumption. reflexivity.
Qed.

Lemma cell_1d_exact (n : nat) (idx : Z) :
  is_trivial_1d it = true ->
  ntensors it = n -> 0 <= idx < numel it ->
  cell_1d (map (data_ptr it) (seq 0 n))
          (map (fun i => to_int32 (nth i (get_inner_strides it) 0)) (seq 0 n)) idx n
  = cell it idx.
Proof.
  intros H1 Hn Hidx. unfold cell_1d, cell. rewrite Hn.
  apply map_seq_ext. intros k Hk. rewrite !nth_map_seq by exact Hk.
  unfold operand_addr. f_equal.
  pose proof (byte_offset_fits k idx) as Hb.
  destruct (wf_strides k) as [HL Hs]; [lia|].
  unfold is_trivial_1d in H1. apply Nat.eqb_eq in H1. unfold ndim in *.
  assert (E : nth k (get_inner_strides it) 0 = nth 0%nat (strides it k) 0).
  { unfold get_inner_strides.
    rewrite (nth_indep _ 0 (nth 0%nat (stride_bytes dummy_operand) 0))
      by (rewrite length_map; unfold ntensors in Hn; lia).
    rewrite (map_nth (fun op => nth 0%nat (stride_bytes op) 0)). reflexivity. }
  rewrite E. unfold numel in Hidx.
  destruct (shape it) as [|n0 [|? ?]] eqn:Esh; try discriminate.
  destruct (strides it k) as [|s0 [|? ?]] eqn:Est; try discriminate.
  simpl in Hidx, Hb |- *. rewrite Z.mul_1_r in Hidx.
  rewrite Z.mod_small in Hb |- * by lia.
  assert (Hu : to_int32 (to_int32 s0 * idx) = to_int32 (s0 * idx)).
  { apply to_int32_congr. rewrite <- Zmult_mod_idemp_l, to_int32_mod, Zmult_mod_idemp_l.
    reflexivity. }
  rewrite Hu, to_int32_small by lia. lia.
Qed.

End IteratorFacts.

(** ** Launches of the strided kernel *)

Lemma transforms_for_each {A} (l : list A) (body : A -> M unit)
    (g : A -> memory -> memory) :
  (forall a, In a l -> transforms (body a) (g a)) ->
  transforms (for_each l body) (fun m => fold_left (fun m' a => g a m') l m).
Proof.
  induction l as [|a l IH]; intros H s; simpl.
  - repeat split.
  - unfold bind. destruct (H a (or_introl eq_refl) s) as (E1 & E2 & E3).
    destruct (body a s) as [[[]|] s1]; simpl in E1, E2, E3; [|discriminate].
    destruct (IH (fun a' Ha' => H a' (or_intror Ha')) s1) as (F1 & F2 & F3).
    rewrite F1, F2, F3, E2, E3. repeat split.
Qed.

Lemma for_each_flat_map {A B} (g : A -> list B) (body : B -> M unit) (l : list A) :
  forall s, for_each l (fun a => for_each (g a) body) s
            = for_each (flat_map g l) body s.
Proof.
  induction l as [|a l IH]; intros s; simpl; [reflexivity|].
  rewrite for_each_app. unfold bind.
  destruct (for_each (g a) body s) as [[[]|] s1]; [apply IH | reflexivity].
Qed.

Lemma transforms_ext (c c' : M unit) (g : memory -> memory) :
  (forall s, c s = c' s) -> transforms c' g -> transforms c g.
Proof. intros E H s. rewrite E. apply H. Qed.

Lemma run_batches_singletons (f : func_t) (dts : list ScalarType)
    (c : Z -> list Z) (L : list Z) (m : memory) :
  fold_left (fun m' idx => write_cell f dts m' m' (c idx)) L m
  = run_batches f dts (map (fun idx => [c idx]) L) m.
Proof.
  revert m. induction L as [|idx L IH]; intros m; simpl; [reflexivity|].
  apply IH.
Qed.

Lemma grid_value (nt vt N : Z) :
  0 < nt -> 0 < vt -> nt * vt < 2 ^ 32 -> 0 < N <= INT32_MAX ->
  to_uint32 ((N + to_uint32 (nt * vt) - 1) / to_uint32 (nt * vt)) = grid_of nt vt N.
Proof.
  intros Hnt Hvt Hnv HN. assert (0 < nt * vt) by nia.
  rewrite (to_uint32_small (nt * vt)) by lia. fold (grid_of nt vt N).
  apply to_uint32_small. unfold grid_of, INT32_MAX in *.
  split; [apply Z.div_pos; lia|].
  apply Z.div_lt_upper_bound; [lia|].
  assert (P32 : 2 ^ 32 = 4294967296) by reflexivity. nia.
Qed.

Section LegacyLaunch.

Variable sched : Schedule.
Variables nt vt N : Z.
Hypothesis nt_pos : 0 < nt.
Hypothesis vt_pos : 0 < vt.
Hypothesis nv_fits : nt * vt < 2 ^ 32.
Hypothesis N_range : 0 < N <= INT32_MAX.

Variable f : func_t.
Variable dts : list ScalarType.
Variable c : Z -> list Z.
Variable lam : Z -> M unit.
Hypothesis lam_writes :
  forall idx, transforms (lam idx) (fun m => write_cell f dts m m (c idx)).

Lemma legacy_launch (s : State) :
  let grid := grid_of nt vt N in
  let L := flat_map (fun bt => owned nt vt N (fst bt) (snd bt)) (sched grid nt) in
  fst (legacy.launch_kernel sched nt vt N lam s) = Some tt
  /\ mem (snd (legacy.launch_kernel sched nt vt N lam s))
     = run_batches f dts (map (fun idx => [c idx]) L) (mem s)
  /\ stream (snd (legacy.launch_kernel sched nt vt N lam s))
     = stream s ++ [mkLaunch grid nt N].
Proof.
  intros grid L. unfold legacy.launch_kernel.
  assert (A : (0 <=? N) && (N <=? INT32_MAX) = true).
  { apply andb_true_intro. split; apply Z.leb_le; lia. }
  rewrite A. unfold bind at 1, assert at 1.
  destruct (Z.eqb_spec N 0) as [E|_]; [lia|].
  rewrite grid_value by assumption. fold grid.
  assert (EN : to_int32 N = N).
  { apply to_int32_small. unfold INT32_MAX in N_range.
    assert (P31 : 2 ^ 31 = 2147483648) by reflexivity. lia. }
  rewrite EN. unfold run_grid, bind at 1, enqueue.
  assert (T : transforms
                (for_each (sched grid nt)
                   (fun bt => legacy.elementwise_kernel nt vt N lam (fst bt) (snd bt)))
                (fun m => run_batches f dts (map (fun idx => [c idx]) L) m)).
  { apply (transforms_ext _ (for_each L lam)).
    - intros s'. unfold L. rewrite <- for_each_flat_map.
      apply for_each_ext. intros bt s'' _. apply legacy_kernel_owned.
    - intros s'. destruct (transforms_for_each L lam
                   (fun idx m => write_cell f dts m m (c idx))
                   (fun idx _ => lam_writes idx) s') as (F1 & F2 & F3).
      rewrite F1, F2, F3, run_batches_singletons. repeat split. }
  destruct (T (mkState (mem s) (trace s) (stream s ++ [mkLaunch grid nt N])))
    as (F1 & F2 & F3).
  exact (conj F1 (conj F2 F3)).
Qed.

End LegacyLaunch.

(** ** Launches of the vectorized kernel *)

Lemma reads_only_ret {A} (a : A) : reads_only (ret a) (fun _ => a).
Proof. intros s. repeat split. Qed.

Lemma reads_only_load (t : ScalarType) (p : Z) :
  reads_only (load_m t p) (fun m => load t m p).
Proof. intros s. repeat split. Qed.

Lemma reads_only_bind {A B} (c : M A) (k : A -> M B) (v : memory -> A)
    (w : A -> memory -> B) :
  reads_only c v -> (forall a, reads_only (k a) (w a)) ->
  reads_only (bind c k) (fun m => w (v m) m).
Proof.
  intros Hc Hk s. unfold bind. destruct (Hc s) as (E1 & E2 & E3).
  destruct (c s) as [[a|] s1]; simpl in E1, E2, E3; [|discriminate].
  inversion E1; subst a. destruct (Hk (v (mem s)) s1) as (F1 & F2 & F3).
  rewrite F1, F2, F3, E2, E3. repeat split.
Qed.

Lemma reads_only_map_m {A B} (l : list A) (body : A -> M B) (v : A -> memory -> B) :
  (forall a, reads_only (body a) (v a)) ->
  reads_only (map_m l body) (fun m => map (fun a => v a m) l).
Proof.
  intros H. induction l as [|a l IH]; simpl.
  - apply reads_only_ret.
  - apply (reads_only_bind _ _ (v a) (fun b m => b :: map (fun a' => v a' m) l));
      [apply H|].
    intros b.
    apply (reads_only_bind _ _ (fun m => map (fun a' => v a' m) l) (fun bs _ => b :: bs));
      [exact IH|].
    intros bs. apply reads_only_ret.
Qed.

Lemma transforms_bind_reads {A} (c : M A) (k : A -> M unit) (v : memory -> A)
    (g : A -> memory -> memory) :
  reads_only c v -> (forall a, transforms (k a) (g a)) ->
  transforms (bind c k) (fun m => g (v m) m).
Proof.
  intros Hc Hk s. unfold bind. destruct (Hc s) as (E1 & E2 & E3).
  destruct (c s) as [[a|] s1]; simpl in E1, E2, E3; [|discriminate].
  inversion E1; subst a. destruct (Hk (v (mem s)) s1) as (F1 & F2 & F3).
  rewrite F1, F2, F3, E2, E3. repeat split.
Qed.

Lemma transforms_ret : transforms (ret tt) (fun m => m).
Proof. intros s. repeat split. Qed.

Lemma transforms_store (t : ScalarType) (p v : Z) :
  transforms (store_m t p v) (fun m => store t m p v).
Proof. intros s. repeat split. Qed.

Lemma combine_map_self {A B} (g : A -> B) (l : list A) :
  combine l (map g l) = map (fun a => (a, g a)) l.
Proof. induction l as [|a l IH]; simpl; [reflexivity | rewrite IH; reflexivity]. Qed.

Lemma fold_left_map_list {A B C} (F : C -> B -> C) (q : A -> B) (l : list A) (acc : C) :
  fold_left F (map q l) acc = fold_left (fun c a => F c (q a)) l acc.
Proof. revert acc. induction l as [|a l IH]; intros acc; simpl; [reflexivity | apply IH]. Qed.

Lemma filter_map_comm {A B} (p : B -> bool) (e : A -> B) (l : list A) :
  filter p (map e l) = map e (filter (fun a => p (e a)) l).
Proof.
  induction l as [|a l IH]; simpl; [reflexivity|].
  destruct (p (e a)); simpl; rewrite IH; reflexivity.
Qed.

Lemma candidates_map (nt : Z) (k : nat) : forall idx,
  candidates nt k idx = map (fun i => idx + Z.of_nat i * nt) (seq 0 k).
Proof.
  induction k as [|k IH]; intros idx; [reflexivity|].
  cbn [candidates seq map]. rewrite IH, <- seq_shift, map_map.
  f_equal; [lia|]. apply map_ext. intros i. lia.
Qed.

Lemma same_arg_types_arg (f : func_t) (I : nat) :
  same_arg_types f = true -> (I < arity f)%nat -> arg f I = modern.arg_type f.
Proof.
  intros H HI. unfold same_arg_types in H. rewrite forallb_forall in H.
  apply ScalarType_eqb_eq. apply H. unfold arg. apply nth_In. exact HI.
Qed.

Section ModernThread.

Variables nt vt N : Z.
Variable f : func_t.
Variable data : list Z.
Hypothesis uniform : same_arg_types f = true.

Lemma slot_store (idx : Z) (m : memory) (l : list Z) : forall acc,
  fold_left
    (fun m' ir =>
       if to_int32 (idx + to_int32 (nt * fst ir)) <? N
       then store (result_type f) m'
              (nth 0%nat data 0 + idx * elementSize (result_type f)
               + to_int32 (fst ir * nt) * elementSize (result_type f)) (snd ir)
       else m')
    (map (fun i => (i,
            if to_int32 (idx + to_int32 (nt * i)) <? N
            then modern.invoke_with_array f
                   (if to_int32 (idx + to_int32 (nt * i)) <? N
                    then map (fun j => load (modern.arg_type f) m
                           (nth j (map (fun i0 => nth (i0 + 1) data 0
                                                   + idx * elementSize (modern.arg_type f))
                                       (seq 0 (arity f))) 0
                            + to_int32 (i * nt) * elementSize (modern.arg_type f)))
                        (seq 0 (arity f))
                    else repeat 0 (arity f))
            else 0)) l) acc
  = fold_left (write_cell f (static_types f) m)
      (map (fun i => cell_packed f data (idx + to_int32 (i * nt)))
           (filter (fun i => slot_index nt idx i <? N) l)) acc.
Proof.
  induction l as [|i l IH]; intros acc; [reflexivity|].
  cbn [map fold_left filter fst snd]. unfold slot_index at 1.
  destruct (to_int32 (idx + to_int32 (nt * i)) <? N); [|apply IH].
  cbn [map fold_left]. rewrite IH. f_equal.
  unfold write_cell, cell_packed, cell_value.
  rewrite (nth_map_seq _ 0 (S (arity f)) 0%nat) by lia. cbn [nth static_types].
  f_equal; [lia|].
  rewrite static_cast_call. unfold modern.invoke_with_array. f_equal.
  apply map_seq_ext. intros I HI.
  rewrite (nth_map_seq _ 0 (arity f) I HI).
  rewrite (nth_map_seq _ 0 (arity f) I HI).
  rewrite (nth_map_seq _ 0 (S (arity f)) (S I)) by lia.
  change (nth (S I) (result_type f :: arg_types f) Byte) with (arg f I).
  rewrite (same_arg_types_arg f I uniform HI). f_equal.
  rewrite Nat.add_1_r.
  replace (nth I (arg_types f) Byte) with (modern.arg_type f)
    by (symmetry; apply (same_arg_types_arg f I uniform HI)).
  f_equal. lia.
Qed.

Lemma modern_thread (b t : Z) :
  transforms (modern.elementwise_kernel nt vt N f data b t)
    (fun m => batch_step f (static_types f) m
                (map (fun i => cell_packed f data (thread_base nt vt b t + to_int32 (i * nt)))
                     (filter (fun i => slot_index nt (thread_base nt vt b t) i <? N)
                             (zseq vt)))).
Proof.
  unfold modern.elementwise_kernel. fold (thread_base nt vt b t).
  set (idx := thread_base nt vt b t).
  set (args_base := map (fun i => nth (i + 1) data 0 + idx * elementSize (modern.arg_type f))
                        (seq 0 (arity f))).
  eapply transforms_ext; [intros s; reflexivity|].
  pose (v := fun (i : Z) (m : memory) =>
               if to_int32 (idx + to_int32 (nt * i)) <? N
               then map (fun j => load (modern.arg_type f) m
                                    (nth j args_base 0
                                     + to_int32 (i * nt) * elementSize (modern.arg_type f)))
                        (seq 0 (arity f))
               else repeat 0 (arity f)).
  assert (R : reads_only
            (map_m (zseq vt)
               (fun i =>
                  if to_int32 (idx + to_int32 (nt * i)) <? N
                  then map_m (seq 0 (arity f))
                         (fun j => load_m (modern.arg_type f)
                                     (nth j args_base 0
                                      + to_int32 (i * nt) * elementSize (modern.arg_type f)))
                  else ret (repeat 0 (arity f))))
            (fun m => map (fun i => v i m) (zseq vt))).
  { apply reads_only_map_m. intros i. unfold v.
    destruct (to_int32 (idx + to_int32 (nt * i)) <? N); [|apply reads_only_ret].
    apply (reads_only_map_m _ _
             (fun j m => load (modern.arg_type f) m
                           (nth j args_base 0
                            + to_int32 (i * nt) * elementSize (modern.arg_type f)))).
    intros j. apply reads_only_load. }
  pose (G := fun (args : list (list Z)) (m : memory) =>
                 fold_left
                   (fun m' ir =>
                      if to_int32 (idx + to_int32 (nt * fst ir)) <? N
                      then store (result_type f) m'
                             (nth 0%nat data 0 + idx * elementSize (result_type f)
                              + to_int32 (fst ir * nt) * elementSize (result_type f))
                             (snd ir)
                      else m')
                   (combine (zseq vt)
                      (map (fun ia =>
                              if to_int32 (idx + to_int32 (nt * fst ia)) <? N
                              then modern.invoke_with_array f (snd ia) else 0)
                           (combine (zseq vt) args))) m).
  pose (K := fun (args : list (list Z)) =>
                 for_each
                   (combine (zseq vt)
                      (map (fun ia =>
                              if to_int32 (idx + to_int32 (nt * fst ia)) <? N
                              then modern.invoke_with_array f (snd ia) else 0)
                           (combine (zseq vt) args)))
                   (fun ir =>
                      if to_int32 (idx + to_int32 (nt * fst ir)) <? N
                      then store_m (result_type f)
                             (nth 0%nat data 0 + idx * elementSize (result_type f)
                              + to_int32 (fst ir * nt) * elementSize (result_type f))
                             (snd ir)
                      else ret tt)).
  assert (HK : forall args, transforms (K args) (G args)).
  { intros args. unfold K, G.
    apply (transforms_for_each _ _
             (fun ir m' =>
                if to_int32 (idx + to_int32 (nt * fst ir)) <? N
                then store (result_type f) m'
                       (nth 0%nat data 0 + idx * elementSize (result_type f)
                        + to_int32 (fst ir * nt) * elementSize (result_type f))
                       (snd ir)
                else m')).
    intros ir _.
    destruct (to_int32 (idx + to_int32 (nt * fst ir)) <? N);
      [apply transforms_store | apply transforms_ret]. }
  intros s.
  destruct (transforms_bind_reads _ K _ G R HK s) as (E1 & E2 & E3).
  split; [exact E1|]. split; [|exact E3].
  etransitivity; [exact E2|].
  unfold G. rewrite combine_map_self, map_map, combine_map_self.
  cbn [fst snd]. unfold v, args_base. apply (slot_store idx (mem s) (zseq vt) (mem s)).
Qed.

End ModernThread.

Section ModernLaunch.

Variable sched : Schedule.
Variables nt vt N : Z.
Hypothesis nt_pos : 0 < nt.
Hypothesis vt_pos : 0 < vt.
Hypothesis N_range : 0 < N <= INT32_MAX.
Hypothesis fits : nt * vt * grid_of nt vt N <= 2 ^ 31.
Hypothesis sched_threads :
  forall bt, In bt (sched (grid_of nt vt N) nt) -> In bt (threads (grid_of nt vt N) nt).

Variable f : func_t.
Variable data : list Z.
Hypothesis uniform : same_arg_types f = true.

Lemma slots_owned (b t : Z) :
  In (b, t) (threads (grid_of nt vt N) nt) ->
  map (fun i => cell_packed f data (thread_base nt vt b t + to_int32 (i * nt)))
      (filter (fun i => slot_index nt (thread_base nt vt b t) i <? N) (zseq vt))
  = map (cell_packed f data) (owned nt vt N b t).
Proof.
  intros H. destruct (thread_fits nt vt N nt_pos vt_pos fits b t H) as (Hb & Ht & Hf).
  assert (P31 : 2 ^ 31 = 2147483648) by reflexivity.
  assert (Hnv : 0 <= nt * vt * b) by nia.
  assert (Hlast : nt * vt * b + t + (vt - 1) * nt < 2 ^ 31) by nia.
  assert (Eb : thread_base nt vt b t = nt * vt * b + t).
  { unfold thread_base. rewrite thread_base_exact. apply to_int32_small. nia. }
  unfold owned. fold (thread_base nt vt b t). rewrite Eb.
  rewrite owned_loop_candidates; [| lia | lia | rewrite Z2Nat.id by lia; lia].
  rewrite candidates_map.
  replace (map (fun i => nt * vt * b + t + Z.of_nat i * nt) (seq 0 (Z.to_nat vt)))
    with (map (fun i => nt * vt * b + t + i * nt) (zseq vt))
    by (unfold zseq; rewrite map_map; reflexivity).
  rewrite filter_map_comm, map_map.
  assert (Hi : forall i, In i (zseq vt) ->
             to_int32 (i * nt) = i * nt
             /\ slot_index nt (nt * vt * b + t) i = nt * vt * b + t + i * nt).
  { intros i Hi. apply In_zseq in Hi. unfold slot_index.
    assert (0 <= i * nt < 2 ^ 31) by nia.
    rewrite (Z.mul_comm nt i), !to_int32_small by nia. split; reflexivity. }
  rewrite (filter_ext_in _ (fun i => nt * vt * b + t + i * nt <? N))
    by (intros i Hin; rewrite (proj2 (Hi i Hin)); reflexivity).
  apply map_ext_in. intros i Hin. apply filter_In in Hin. destruct Hin as [Hin _].
  rewrite (proj1 (Hi i Hin)). reflexivity.
Qed.

Lemma modern_launch (s : State) :
  let grid := grid_of nt vt N in
  let P := map (fun bt => map (cell_packed f data) (owned nt vt N (fst bt) (snd bt)))
               (sched grid nt) in
  fst (modern.launch_kernel sched nt vt N f data s) = Some tt
  /\ mem (snd (modern.launch_kernel sched nt vt N f data s))
     = run_batches f (static_types f) P (mem s)
  /\ stream (snd (modern.launch_kernel sched nt vt N f data s))
     = stream s ++ [mkLaunch grid nt N].
Proof.
  intros grid P. unfold modern.launch_kernel.
  assert (A : (0 <=? N) && (N <=? INT32_MAX) = true).
  { apply andb_true_intro. split; apply Z.leb_le; lia. }
  rewrite A. unfold bind at 1, assert at 1.
  destruct (Z.eqb_spec N 0) as [E|_]; [lia|].
  assert (P31 : 2 ^ 31 = 2147483648) by reflexivity.
  assert (P32 : 2 ^ 32 = 4294967296) by reflexivity.
  assert (Hg : 0 < grid_of nt vt N).
  { pose proof (grid_covers nt vt N nt_pos vt_pos). assert (0 < nt * vt) by nia. nia. }
  rewrite grid_value; [| assumption | assumption | nia | assumption]. fold grid.
  assert (EN : to_int32 N = N).
  { apply to_int32_small. unfold INT32_MAX in N_range. lia. }
  rewrite EN. unfold run_grid, bind at 1, enqueue.
  assert (T : transforms
                (for_each (sched grid nt)
                   (fun bt => modern.elementwise_kernel nt vt N f data (fst bt) (snd bt)))
                (fun m => run_batches f (static_types f) P m)).
  { intros s'.
    destruct (transforms_for_each (sched grid nt)
                (fun bt => modern.elementwise_kernel nt vt N f data (fst bt) (snd bt))
                (fun bt m => batch_step f (static_types f) m
                               (map (cell_packed f data)
                                    (owned nt vt N (fst bt) (snd bt)))))
      with (s := s') as (F1 & F2 & F3).
    - intros [b t] Hbt. simpl fst. simpl snd.
      rewrite <- slots_owned by (apply sched_threads; exact Hbt).
      apply modern_thread. exact uniform.
    - split; [exact F1|]. split; [|exact F3].
      etransitivity; [exact F2|]. unfold P, run_batches.
      rewrite fold_left_map_list. reflexivity. }
  destruct (T (mkState (mem s) (trace s) (stream s ++ [mkLaunch grid nt N])))
    as (F1 & F2 & F3).
  exact (conj F1 (conj F2 F3)).
Qed.

End ModernLaunch.

(** ** One call of gpu_kernel_impl *)

Lemma grid_fits (nt vt N q : Z) :
  0 < nt -> 0 < vt -> 2 ^ 31 = nt * vt * q -> 0 <= N <= INT32_MAX ->
  nt * vt * grid_of nt vt N <= 2 ^ 31.
Proof.
  intros Hnt Hvt Hq HN. assert (Hnv : 0 < nt * vt) by nia.
  unfold grid_of, INT32_MAX in *.
  assert (P31 : 2 ^ 31 = 2147483648) by reflexivity.
  pose proof (Z.mul_div_le (N + nt * vt - 1) (nt * vt) Hnv) as Hle.
  set (g := (N + nt * vt - 1) / (nt * vt)) in *.
  assert (g <= q); [|nia].
  destruct (Z_le_gt_dec g q) as [|Hgt]; [assumption|]. exfalso.
  assert (nt * vt * (q + 1) <= nt * vt * g) by nia. nia.
Qed.

Lemma dtypes_array (it : TensorIterator) (n : nat) :
  ntensors it = n -> map (dtype it) (seq 0 n) = dtypes it.
Proof.
  intros <-. unfold dtype, operand, dtypes, ntensors. apply map_nth_seq.
Qed.

Section Impl.

Variable sched : Schedule.
Hypothesis sched_fair : fair sched.
Variable it : TensorIterator.
Variable f : func_t.
Hypothesis wf : well_formed it = true.
Hypothesis fits : can_use_32bit_indexing it = true.
Hypothesis operand_count : ntensors it = S (arity f).

Lemma legacy_path (nt vt q : Z) (lam : Z -> M unit) (dts : list ScalarType)
    (c : Z -> list Z) (s : State) :
  0 < nt -> 0 < vt -> 2 ^ 31 = nt * vt * q ->
  (forall idx, transforms (lam idx) (fun m => write_cell f dts m m (c idx))) ->
  (forall idx, 0 <= idx < numel it -> c idx = cell it idx) ->
  exists P,
    fst (legacy.launch_kernel sched nt vt (numel it) lam s) = Some tt
    /\ mem (snd (legacy.launch_kernel sched nt vt (numel it) lam s))
       = run_batches f dts P (mem s)
    /\ Permutation (concat P) (cells it)
    /\ stream (snd (legacy.launch_kernel sched nt vt (numel it) lam s))
       = stream s ++ [mkLaunch (grid_of nt vt (numel it)) nt (numel it)].
Proof.
  intros Hnt Hvt Hq Hlam Hc.
  pose proof (numel_pos it wf) as Np. pose proof (fits_numel it fits) as Nm.
  assert (P31 : 2 ^ 31 = 2147483648) by reflexivity.
  assert (P32 : 2 ^ 32 = 4294967296) by reflexivity.
  assert (Hf : nt * vt * grid_of nt vt (numel it) <= 2 ^ 31).
  { apply (grid_fits nt vt (numel it) q); try assumption. lia. }
  assert (Hq0 : 0 < q) by nia.
  assert (Hnv : nt * vt < 2 ^ 32) by nia.
  destruct (legacy_launch sched nt vt (numel it) Hnt Hvt Hnv (conj Np Nm)
              f dts c lam Hlam s) as (F1 & F2 & F3).
  set (L := flat_map (fun bt => owned nt vt (numel it) (fst bt) (snd bt))
                     (sched (grid_of nt vt (numel it)) nt)) in *.
  assert (HL : Permutation L (zseq (numel it))).
  { unfold L. eapply Permutation_trans.
    - apply Permutation_flat_map. apply sched_fair.
    - apply owned_partition; try assumption. lia. }
  exists (map (fun idx => [c idx]) L). split; [exact F1|]. split; [exact F2|].
  split; [|exact F3].
  replace (concat (map (fun idx => [c idx]) L)) with (map c L)
    by (clear; induction L; simpl; [reflexivity | f_equal; assumption]).
  rewrite (map_ext_in c (cell it))
    by (intros idx Hin; apply Hc; apply In_zseq;
        apply (Permutation_in _ HL); exact Hin).
  unfold cells. apply Permutation_map. exact HL.
Qed.

Lemma dtype_nth (k : nat) : dtype it k = nth k (dtypes it) Byte.
Proof.
  unfold dtype, operand, dtypes.
  change Byte with (op_dtype dummy_operand). symmetry. apply map_nth.
Qed.

Lemma contiguous_stride (k : nat) :
  has_contiguous_first_dim it = true -> (k < ntensors it)%nat ->
  nth 0%nat (strides it k) 0 = elementSize (dtype it k).
Proof.
  intros H Hk. unfold has_contiguous_first_dim in H. rewrite forallb_forall in H.
  specialize (H _ (operand_In it k Hk)). apply Z.eqb_eq in H. exact H.
Qed.

Lemma cell_packed_exact (e : Z) :
  is_trivial_1d it = true ->
  has_contiguous_first_dim it = true ->
  same_arg_types f = true ->
  dtypes it = static_types f ->
  0 <= e < numel it ->
  cell_packed f (map (data_ptr it) (seq 0 (S (arity f)))) e = cell it e.
Proof.
  intros H1 Hc Hu Ht He. unfold cell_packed, cell. rewrite operand_count.
  apply map_seq_ext. intros k Hk. rewrite nth_map_seq by exact Hk.
  unfold operand_addr. f_equal.
  destruct (wf_strides it wf k) as [HL _]; [lia|].
  pose proof (contiguous_stride k Hc) as Hs. rewrite operand_count in Hs.
  specialize (Hs Hk). rewrite dtype_nth, Ht in Hs.
  unfold is_trivial_1d in H1. apply Nat.eqb_eq in H1. unfold ndim in *.
  unfold numel in He.
  destruct (shape it) as [|n0 [|? ?]] eqn:Esh; try discriminate.
  destruct (strides it k) as [|s0 [|? ?]] eqn:Est; try discriminate.
  simpl in He, Hs |- *. rewrite Z.mul_1_r in He. rewrite Z.mod_small by lia.
  rewrite Z.add_0_r. f_equal. rewrite Hs.
  destruct k as [|k]; [reflexivity|].
  rewrite <- (same_arg_types_arg f k Hu) by lia. reflexivity.
Qed.

Lemma modern_path (s : State) :
  is_trivial_1d it = true ->
  has_contiguous_first_dim it = true ->
  same_arg_types f = true ->
  dtypes it = static_types f ->
  let data := map (data_ptr it) (seq 0 (S (arity f))) in
  exists P,
    fst (modern.launch_kernel sched (C10_WARP_SIZE * 2) 4 (numel it) f data s) = Some tt
    /\ mem (snd (modern.launch_kernel sched (C10_WARP_SIZE * 2) 4 (numel it) f data s))
       = run_batches f (static_types f) P (mem s)
    /\ Permutation (concat P) (cells it)
    /\ stream (snd (modern.launch_kernel sched (C10_WARP_SIZE * 2) 4 (numel it) f data s))
       = stream s ++ [mkLaunch (grid_of (C10_WARP_SIZE * 2) 4 (numel it))
                               (C10_WARP_SIZE * 2) (numel it)].
Proof.
  intros H1 Hc Hu Ht data.
  pose proof (numel_pos it wf) as Np. pose proof (fits_numel it fits) as Nm.
  change (C10_WARP_SIZE * 2) with 64.
  assert (Hf : 64 * 4 * grid_of 64 4 (numel it) <= 2 ^ 31).
  { apply (grid_fits 64 4 (numel it) 8388608); [lia | lia | reflexivity | lia]. }
  assert (Hth : forall bt, In bt (sched (grid_of 64 4 (numel it)) 64) ->
                           In bt (threads (grid_of 64 4 (numel it)) 64)).
  { intros bt. apply Permutation_in. apply sched_fair. }
  destruct (modern_launch sched 64 4 (numel it) eq_refl eq_refl (conj Np Nm) Hf Hth
              f data Hu s) as (F1 & F2 & F3).
  eexists. split; [exact F1|]. split; [exact F2|]. split; [|exact F3].
  rewrite <- flat_map_concat_map.
  set (L := flat_map (fun bt => owned 64 4 (numel it) (fst bt) (snd bt))
                     (sched (grid_of 64 4 (numel it)) 64)).
  assert (HL : Permutation L (zseq (numel it))).
  { unfold L. eapply Permutation_trans.
    - apply Permutation_flat_map. apply sched_fair.
    - apply owned_partition; [lia | lia | lia | exact Hf]. }
  replace (flat_map (fun bt => map (cell_packed f data) (owned 64 4 (numel it) (fst bt) (snd bt)))
                    (sched (grid_of 64 4 (numel it)) 64))
    with (map (cell_packed f data) L).
  - rewrite (map_ext_in (cell_packed f data) (cell it))
      by (intros e Hin; apply cell_packed_exact; try assumption;
          apply In_zseq; apply (Permutation_in _ HL); exact Hin).
    unfold cells. apply Permutation_map. exact HL.
  - unfold L. generalize (sched (grid_of 64 4 (numel it)) 64). clear.
    intros l. induction l as [|bt l IH]; simpl; [reflexivity|].
    rewrite map_app, IH. reflexivity.
Qed.

Lemma gpu_kernel_impl_unfold (s : State) :
  let data := map (data_ptr it) (seq 0 (S (arity f))) in
  let strides_ := map (fun i => to_int32 (nth i (get_inner_strides it) 0))
                     (seq 0 (S (arity f))) in
  let oc := mkOffsetCalculator (map to_uint32 (shape it))
              (map (fun d => map (fun i => to_uint32 (nth d (strides it i) 0))
                                 (seq 0 (S (arity f))))
                   (seq 0 (ndim it))) in
  gpu_kernel_impl sched it f s
  = (if is_trivial_1d it then
       if needs_dynamic_casting it then
         legacy.launch_kernel sched launch_size_1d 1 (numel it)
           (lambda_1d_cast f data strides_ (dtypes it))
       else if has_contiguous_first_dim it then
         modern.launch_kernel sched (C10_WARP_SIZE * 2) 4 (numel it) f data
       else
         legacy.launch_kernel sched launch_size_1d 1 (numel it)
           (lambda_1d f data strides_)
     else
       if needs_dynamic_casting it then
         legacy.launch_kernel sched launch_size_nd launch_bound2 (numel it)
           (lambda_nd_cast f data (dtypes it) oc)
       else
         legacy.launch_kernel sched launch_size_nd launch_bound2 (numel it)
           (lambda_nd f data oc)) s.
Proof.
  intros data strides_ oc. unfold gpu_kernel_impl.
  rewrite fits, operand_count. rewrite Nat.add_1_r, Nat.eqb_refl.
  unfold bind at 1, assert at 1. unfold bind at 1, assert at 1.
  rewrite (dtypes_array it (S (arity f)) operand_count).
  destruct (is_trivial_1d it); [reflexivity|].
  rewrite (bind_Some _ _ _ _ _
             (make_offset_calculator_run it (S (arity f)) s operand_count)).
  reflexivity.
Qed.

(** What one call of [gpu_kernel_impl] does: it enqueues one kernel, and the
    memory afterwards is the result of running batches of cells that
    together are the cells of the iterator. *)
Lemma gpu_kernel_impl_batches (s : State) :
  (takes_vectorized_path it = true ->
     same_arg_types f = true /\ dtypes it = static_types f) ->
  exists P l,
    fst (gpu_kernel_impl sched it f s) = Some tt
    /\ mem (snd (gpu_kernel_impl sched it f s))
       = run_batches f (kernel_dtypes it f) P (mem s)
    /\ Permutation (concat P) (cells it)
    /\ stream (snd (gpu_kernel_impl sched it f s)) = stream s ++ [l].
Proof.
  intros Hvec. rewrite gpu_kernel_impl_unfold. unfold kernel_dtypes.
  unfold takes_vectorized_path in Hvec.
  destruct (is_trivial_1d it) eqn:E1.
  - destruct (needs_dynamic_casting it) eqn:Ec.
    + destruct (legacy_path launch_size_1d 1 4194304
                  (lambda_1d_cast f (map (data_ptr it) (seq 0 (S (arity f))))
                     (map (fun i => to_int32 (nth i (get_inner_strides it) 0))
                          (seq 0 (S (arity f)))) (dtypes it))
                  (dtypes it)
                  (fun idx => cell_1d (map (data_ptr it) (seq 0 (S (arity f))))
                     (map (fun i => to_int32 (nth i (get_inner_strides it) 0))
                          (seq 0 (S (arity f)))) idx (S (arity f))) s)
        as (P & F1 & F2 & F3 & F4);
        [reflexivity | reflexivity | reflexivity | | |].
      * intros idx s'. rewrite lambda_1d_cast_run. repeat split.
      * intros idx Hidx. apply cell_1d_exact; assumption.
      * exists P. eexists. repeat split; eassumption.
    + destruct (has_contiguous_first_dim it) eqn:Eg.
      * destruct (Hvec eq_refl) as [Hu Ht].
        destruct (modern_path s E1 Eg Hu Ht) as (P & F1 & F2 & F3 & F4).
        exists P. eexists. repeat split; eassumption.
      * destruct (legacy_path launch_size_1d 1 4194304
                  (lambda_1d f (map (data_ptr it) (seq 0 (S (arity f))))
                     (map (fun i => to_int32 (nth i (get_inner_strides it) 0))
                          (seq 0 (S (arity f)))))
                  (static_types f)
                  (fun idx => cell_1d (map (data_ptr it) (seq 0 (S (arity f))))
                     (map (fun i => to_int32 (nth i (get_inner_strides it) 0))
                          (seq 0 (S (arity f)))) idx (S (arity f))) s)
        as (P & F1 & F2 & F3 & F4);
        [reflexivity | reflexivity | reflexivity | | |].
        -- intros idx s'. rewrite lambda_1d_run. repeat split.
        -- intros idx Hidx. apply cell_1d_exact; assumption.
        -- exists P. eexists. repeat split; eassumption.
  - set (oc := mkOffsetCalculator (map to_uint32 (shape it))
                 (map (fun d => map (fun i => to_uint32 (nth d (strides it i) 0))
                                    (seq 0 (S (arity f))))
                      (seq 0 (ndim it)))).
    assert (HLn : length (map (data_ptr it) (seq 0 (S (arity f)))) = S (arity f))
      by (rewrite length_map, length_seq; reflexivity).
    destruct (needs_dynamic_casting it) eqn:Ec.
    + destruct (legacy_path launch_size_nd launch_bound2 4194304
                  (lambda_nd_cast f (map (data_ptr it) (seq 0 (S (arity f))))
                     (dtypes it) oc)
                  (dtypes it)
                  (fun idx => cell_nd (map (data_ptr it) (seq 0 (S (arity f)))) oc idx) s)
        as (P & F1 & F2 & F3 & F4);
        [reflexivity | reflexivity | reflexivity | | |].
      * intros idx s'. rewrite lambda_nd_cast_run by exact HLn. repeat split.
      * intros idx Hidx. apply cell_nd_exact; assumption.
      * exists P. eexists. repeat split; eassumption.
    + destruct (legacy_path launch_size_nd launch_bound2 4194304
                  (lambda_nd f (map (data_ptr it) (seq 0 (S (arity f)))) oc)
                  (static_types f)
                  (fun idx => cell_nd (map (data_ptr it) (seq 0 (S (arity f)))) oc idx) s)
        as (P & F1 & F2 & F3 & F4);
        [reflexivity | reflexivity | reflexivity | | |].
      * intros idx s'. rewrite lambda_nd_run by exact HLn. repeat split.
      * intros idx Hidx. apply cell_nd_exact; assumption.
      * exists P. eexists. repeat split; eassumption.
Qed.

End Impl.

(** ** The dispatch computes the pointwise result *)

Lemma NoDup_map_on {A B} (g : A -> B) (l : list A) :
  NoDup l -> (forall x y, In x l -> In y l -> x <> y -> g x <> g y) ->
  NoDup (map g l).
Proof.
  induction 1 as [|a l Hn ND IH]; intros Hg; simpl; constructor.
  - intros Hin. apply in_map_iff in Hin. destruct Hin as (y & E & Hy).
    apply (Hg y a); [right; exact Hy | left; reflexivity | | exact E].
    intros ->. contradiction.
  - apply IH. intros x y Hx Hy. apply Hg; right; assumption.
Qed.

Lemma sep_distinct (f : func_t) (dts : list ScalarType) (c c' : list Z) :
  sep f dts c c' -> c <> c'.
Proof.
  intros [D _] ->. unfold disjoint in D.
  pose proof (elementSize_pos (nth 0%nat dts Byte)). lia.
Qed.

Lemma independent_cells (f : func_t) (it : TensorIterator) :
  no_interference f it -> independent f (dtypes it) (cells it).
Proof.
  intros H. unfold cells. split.
  - apply NoDup_map_on; [apply NoDup_zseq|].
    intros i j Hi Hj Hne. apply In_zseq in Hi, Hj.
    apply (sep_distinct f (dtypes it)). apply H; assumption.
  - intros c c' Hc Hc' Hne. apply in_map_iff in Hc, Hc'.
    destruct Hc as (i & <- & Hi), Hc' as (j & <- & Hj). apply In_zseq in Hi, Hj.
    apply H; try assumption. intros ->. apply Hne. reflexivity.
Qed.

Lemma unsplit_dispatch_batches (it : TensorIterator) (f : func_t) (m : memory) :
  unsplit_dispatch it f m
  = run_batches f (dtypes it) (map (fun c => [c]) (cells it)) m.
Proof.
  unfold unsplit_dispatch. generalize (cells it). intros C. revert m.
  induction C as [|c C IH]; intros m; simpl; [reflexivity | apply IH].
Qed.

Lemma concat_singletons {A} (l : list A) : concat (map (fun c => [c]) l) = l.
Proof. induction l as [|a l IH]; simpl; [reflexivity | rewrite IH; reflexivity]. Qed.

(** The hypothetical sequential dispatch computes the pointwise result. *)
Lemma unsplit_dispatch_pointwise (it : TensorIterator) (f : func_t) (m : memory) :
  no_interference f it ->
  forall x, unsplit_dispatch it f m x = pointwise f (dtypes it) (cells it) m x.
Proof.
  intros H x. rewrite unsplit_dispatch_batches.
  apply run_batches_pointwise; [|apply independent_cells; exact H].
  rewrite concat_singletons. apply Permutation_refl.
Qed.

Section Dispatch.

Variable sched : Schedule.
Hypothesis sched_fair : fair sched.
Variable split : TensorIterator -> list TensorIterator.
Variable f : func_t.

(** One dispatch of an iterator within the index range: the memory is the
    result of batches that make up the cells of the iterator. *)
Lemma gpu_kernel_batches (fuel : nat) (it : TensorIterator) (s : State) :
  well_formed it = true ->
  can_use_32bit_indexing it = true ->
  ntensors it = S (arity f) ->
  forallb op_is_cuda (operands it) = true ->
  (needs_dynamic_casting it = false -> dtypes it = static_types f) ->
  (takes_vectorized_path it = true -> same_arg_types f = true) ->
  exists P l,
    fst (gpu_kernel sched split (S fuel) it f s) = Some tt
    /\ mem (snd (gpu_kernel sched split (S fuel) it f s))
       = run_batches f (dtypes it) P (mem s)
    /\ Permutation (concat P) (cells it)
    /\ stream (snd (gpu_kernel sched split (S fuel) it f s)) = stream s ++ [l].
Proof.
  intros Hwf Hfit Hn Hcuda Hty Hvec.
  assert (E : gpu_kernel sched split (S fuel) it f s = gpu_kernel_impl sched it f s).
  { cbn [gpu_kernel]. unfold bind. rewrite assert_all_cuda_run, Hcuda.
    pose proof (numel_pos it Hwf).
    destruct (Z.eqb_spec (numel it) 0); [lia|]. rewrite Hfit. reflexivity. }
  rewrite E.
  destruct (gpu_kernel_impl_batches sched sched_fair it f Hwf Hfit Hn s)
    as (P & l & F1 & F2 & F3 & F4).
  - intros Hv. split; [apply Hvec; exact Hv|]. apply Hty.
    unfold takes_vectorized_path in Hv.
    destruct (needs_dynamic_casting it); [|reflexivity].
    rewrite andb_false_r in Hv. discriminate.
  - exists P, l. split; [exact F1|]. split; [|split; assumption].
    rewrite F2. unfold kernel_dtypes.
    destruct (needs_dynamic_casting it); [reflexivity|]. rewrite Hty; reflexivity.
Qed.

(** A single dispatch computes the pointwise result. *)
Lemma gpu_kernel_pointwise (fuel : nat) (it : TensorIterator) (s : State) :
  well_formed it = true ->
  can_use_32bit_indexing it = true ->
  ntensors it = S (arity f) ->
  forallb op_is_cuda (operands it) = true ->
  (needs_dynamic_casting it = false -> dtypes it = static_types f) ->
  (takes_vectorized_path it = true -> same_arg_types f = true) ->
  no_interference f it ->
  fst (gpu_kernel sched split (S fuel) it f s) = Some tt
  /\ forall x, mem (snd (gpu_kernel sched split (S fuel) it f s)) x
               = pointwise f (dtypes it) (cells it) (mem s) x.
Proof.
  intros Hwf Hfit Hn Hcuda Hty Hvec Hni.
  destruct (gpu_kernel_batches fuel it s Hwf Hfit Hn Hcuda Hty Hvec)
    as (P & l & F1 & F2 & F3 & _).
  split; [exact F1|]. intros x. rewrite F2.
  apply run_batches_pointwise; [exact F3 | apply independent_cells; exact Hni].
Qed.

Lemma sub_descriptor_count (it sub : TensorIterator) :
  sub_descriptor it sub -> ntensors sub = ntensors it.
Proof.
  intros (_ & _ & H & _). unfold ntensors.
  apply (f_equal (@length _)) in H. unfold dtypes in H.
  rewrite !length_map in H. exact H.
Qed.

Lemma run_batches_app (dts : list ScalarType) (P1 P2 : list (list (list Z)))
    (m : memory) :
  run_batches f dts (P1 ++ P2) m = run_batches f dts P2 (run_batches f dts P1 m).
Proof. unfold run_batches. apply fold_left_app. Qed.

(** The sub-iterators are dispatched one after another, each enqueueing one
    kernel; together they run batches that make up the cells of all
    sub-iterators. *)
Lemma split_batches (fuel : nat) (it : TensorIterator) (subs : list TensorIterator) :
  ntensors it = S (arity f) ->
  (needs_dynamic_casting it = false -> dtypes it = static_types f) ->
  Forall (sub_descriptor it) subs ->
  (forall sub, In sub subs -> takes_vectorized_path sub = true ->
               same_arg_types f = true) ->
  forall s, exists P,
    fst (for_each subs (fun sub => gpu_kernel sched split (S fuel) sub f) s) = Some tt
    /\ mem (snd (for_each subs (fun sub => gpu_kernel sched split (S fuel) sub f) s))
       = run_batches f (dtypes it) P (mem s)
    /\ Permutation (concat P) (flat_map cells subs)
    /\ length (stream (snd (for_each subs
                              (fun sub => gpu_kernel sched split (S fuel) sub f) s)))
       = (length (stream s) + length subs)%nat.
Proof.
  intros Hn Hty Hsubs. induction Hsubs as [|sub subs Hsub _ IH]; intros Hvec s.
  - exists []. simpl. repeat split; [constructor | lia].
  - pose proof (sub_descriptor_count it sub Hsub) as Hc.
    destruct Hsub as (Hwf & Hfit & Hd & Hcast & Hcuda).
    destruct (gpu_kernel_batches fuel sub s Hwf Hfit) as (P1 & l & F1 & F2 & F3 & F4).
    + rewrite Hc. exact Hn.
    + exact Hcuda.
    + rewrite Hcast, Hd. exact Hty.
    + apply Hvec. left. reflexivity.
    + cbn [for_each]. unfold bind.
      destruct (gpu_kernel sched split (S fuel) sub f s) as [[[]|] s1];
        simpl in F1, F2, F4; [|discriminate].
      destruct (IH (fun sub' H' => Hvec sub' (or_intror H')) s1)
        as (P2 & G1 & G2 & G3 & G4).
      exists (P1 ++ P2). split; [exact G1|]. split; [|split].
      * rewrite G2, F2, Hd, run_batches_app. reflexivity.
      * rewrite concat_app. simpl. apply Permutation_app; assumption.
      * rewrite G4, F4, length_app. simpl. lia.
Qed.

End Dispatch.

(** C5.  An iterator with more elements than the 32-bit signed index holds
    is handed to the iterator's splitting; the sub-iterators, each within
    range, are dispatched one after another by the recursive call, one
    kernel each; and the memory afterwards is, byte for byte, what the
    hypothetical single dispatch over the whole space produces. *)
Theorem split_dispatch_equals_unsplit (sched : Schedule)
    (split : TensorIterator -> list TensorIterator) (fuel : nat)
    (it : TensorIterator) (f : func_t) (s : State) :
  fair sched ->
  INT32_MAX < numel it ->
  ntensors it = S (arity f) ->
  forallb op_is_cuda (operands it) = true ->
  Forall (sub_descriptor it) (split it) ->
  Permutation (flat_map cells (split it)) (cells it) ->
  (needs_dynamic_casting it = false -> dtypes it = static_types f) ->
  (forall sub, In sub (split it) -> takes_vectorized_path sub = true ->
               same_arg_types f = true) ->
  no_interference f it ->
  gpu_kernel sched split (S (S fuel)) it f s
    = for_each (split it) (fun sub => gpu_kernel sched split (S fuel) sub f) s
  /\ fst (gpu_kernel sched split (S (S fuel)) it f s) = Some tt
  /\ length (stream (snd (gpu_kernel sched split (S (S fuel)) it f s)))
     = (length (stream s) + length (split it))%nat
  /\ forall x, mem (snd (gpu_kernel sched split (S (S fuel)) it f s)) x
               = unsplit_dispatch it f (mem s) x.
Proof.
  intros Hfair Hbig Hn Hcuda Hsubs Hperm Hty Hvec Hni.
  assert (E : gpu_kernel sched split (S (S fuel)) it f s
              = for_each (split it) (fun sub => gpu_kernel sched split (S fuel) sub f) s).
  { cbn [gpu_kernel]. unfold bind at 1. rewrite assert_all_cuda_run, Hcuda.
    destruct (Z.eqb_spec (numel it) 0) as [E0|_]; [unfold INT32_MAX in Hbig; lia|].
    rewrite (can_use_32bit_indexing_numel it Hbig). reflexivity. }
  split; [exact E|]. rewrite E.
  destruct (split_batches sched Hfair split f fuel it (split it) Hn Hty Hsubs Hvec s)
    as (P & F1 & F2 & F3 & F4).
  split; [exact F1|]. split; [exact F4|].
  intros x. rewrite F2, unsplit_dispatch_pointwise by exact Hni.
  apply run_batches_pointwise; [|apply independent_cells; exact Hni].
  eapply Permutation_trans; eassumption.
Qed.

Lemma seq_offset (a b : nat) : seq a b = map (Nat.add a) (seq 0 b).
Proof.
  induction a as [|a IH].
  - simpl. symmetry. rewrite <- (map_id (seq 0 b)) at 2. apply map_ext. reflexivity.
  - rewrite <- seq_shift, IH, map_map. reflexivity.
Qed.

Lemma zseq_app (a b : Z) :
  0 <= a -> 0 <= b -> zseq (a + b) = zseq a ++ map (fun i => a + i) (zseq b).
Proof.
  intros Ha Hb. unfold zseq. rewrite Z2Nat.inj_add by assumption.
  rewrite seq_app, map_app. f_equal. rewrite Nat.add_0_l.
  rewrite seq_offset, !map_map. apply map_ext. intros i. lia.
Qed.

Lemma halve_cells (it : TensorIterator) (n : Z) :
  shape it = [n] -> 2 <= n ->
  Forall (fun op => length (stride_bytes op) = 1%nat) (operands it) ->
  flat_map cells (halve it) = cells it.
Proof.
  intros Hs Hn Hst. unfold halve. rewrite Hs.
  assert (Hh : 0 < n / 2 < n).
  { pose proof (Z.div_mod n 2). pose proof (Z.mod_pos_bound n 2). lia. }
  set (h := n / 2) in *.
  cbn [flat_map]. rewrite app_nil_r. unfold cells, numel.
  rewrite Hs. cbn [shape fold_right]. rewrite !Z.mul_1_r.
  replace n with (h + (n - h)) at 3 by lia.
  rewrite zseq_app, map_app, map_map by lia.
  f_equal.
  - apply map_ext_in. intros i Hi. apply In_zseq in Hi.
    unfold cell, ntensors. cbn [operands]. apply map_ext_in. intros k Hk.
    unfold operand_addr, data_ptr, strides, operand. cbn [operands shape].
    rewrite Hs. f_equal.
    destruct (stride_bytes (nth k (operands it) dummy_operand)) as [|s0 st];
      [reflexivity|].
    cbn [byte_offset]. rewrite !Z.mod_small by lia. reflexivity.
  - apply map_ext_in. intros i Hi. apply In_zseq in Hi.
    unfold cell, ntensors. cbn [operands]. rewrite length_map.
    apply map_ext_in. intros k Hk. apply in_seq in Hk.
    unfold operand_addr, data_ptr, strides, operand. cbn [operands shape].
    rewrite Hs.
    rewrite (nth_indep _ dummy_operand
               (mkOperand (op_data dummy_operand + h * nth 0%nat (stride_bytes dummy_operand) 0)
                          (stride_bytes dummy_operand) (op_dtype dummy_operand)
                          (op_is_cuda dummy_operand)))
      by (rewrite length_map; lia).
    rewrite (map_nth (fun op => mkOperand (op_data op + h * nth 0%nat (stride_bytes op) 0)
                                          (stride_bytes op) (op_dtype op) (op_is_cuda op))).
    cbn [op_data stride_bytes].
    rewrite Forall_forall in Hst.
    assert (Hop : In (nth k (operands it) dummy_operand) (operands it))
      by (apply nth_In; lia).
    specialize (Hst _ Hop).
    destruct (stride_bytes (nth k (operands it) dummy_operand)) as [|s0 [|? ?]];
      try discriminate.
    cbn [byte_offset nth]. rewrite !Z.mod_small by lia. lia.
Qed.

Lemma split_dispatch_equals_unsplit_witness :
  let it := mkIter [2147483648]
              [mkOperand 0 [1] Char true; mkOperand 4294967296 [1] Char true] false in
  let f := mkFunc [Char] Char (fun xs => nth 0%nat xs 0 + 1) in
  let s := mkState (fun _ => 0) [] [] in
  INT32_MAX < numel it
  /\ fst (gpu_kernel threads halve 2 it f s) = Some tt
  /\ forall x, mem (snd (gpu_kernel threads halve 2 it f s)) x
               = unsplit_dispatch it f (mem s) x.
Proof.
  intros it f s.
  assert (Hbig : INT32_MAX < numel it) by reflexivity.
  assert (Hfair : fair threads) by (intros g b; apply Permutation_refl).
  assert (Hn : ntensors it = S (arity f)) by reflexivity.
  assert (Hcuda : forallb op_is_cuda (operands it) = true) by reflexivity.
  assert (Hsubs : Forall (sub_descriptor it) (halve it)).
  { repeat constructor. }
  assert (Hperm : Permutation (flat_map cells (halve it)) (cells it)).
  { rewrite (halve_cells it 2147483648); [apply Permutation_refl | reflexivity | lia |].
    repeat constructor. }
  assert (Hty : needs_dynamic_casting it = false -> dtypes it = static_types f)
    by reflexivity.
  assert (Hvec : forall sub, In sub (halve it) -> takes_vectorized_path sub = true ->
                             same_arg_types f = true) by reflexivity.
  assert (Hni : no_interference f it).
  { intros i j Hi Hj Hne.
    change (numel it) with 2147483648 in Hi, Hj.
    assert (Ec : forall e, 0 <= e < 2147483648 -> cell it e = [e; 4294967296 + e]).
    { intros e He. unfold cell, operand_addr. cbn [it ntensors operands length seq map].
      unfold data_ptr, strides, operand.
      cbn [it operands shape nth op_data stride_bytes byte_offset].
      rewrite !Z.mod_small by lia.
      rewrite Z.mul_1_r, Z.add_0_r, Z.add_0_l. reflexivity. }
    rewrite (Ec i Hi), (Ec j Hj). split.
    - cbn [nth dtypes it operands map op_dtype]. unfold disjoint.
      change (elementSize Char) with 1. lia.
    - intros I HI. change (arity f) with 1%nat in HI.
      destruct I as [|I]; [|lia].
      cbn [nth dtypes it operands map op_dtype]. unfold disjoint.
      change (elementSize Char) with 1. lia. }
  pose proof (split_dispatch_equals_unsplit threads halve 0 it f s
                Hfair Hbig Hn Hcuda Hsubs Hperm Hty Hvec Hni) as (_ & R1 & _ & R2).
  split; [exact Hbig|]. split; [exact R1 | exact R2].
Defined.

(** ** The vectorized and the strided kernel agree *)

Lemma disjointb_spec (p n q k : Z) : disjointb p n q k = true <-> disjoint p n q k.
Proof.
  unfold disjointb, disjoint. rewrite orb_true_iff, !Z.leb_le. reflexivity.
Qed.

Lemma sepb_sep (f : func_t) (dts : list ScalarType) (c c' : list Z) :
  sepb f dts c c' = true -> sep f dts c c'.
Proof.
  unfold sepb, sep. rewrite andb_true_iff, forallb_forall. intros [H1 H2]. split.
  - apply disjointb_spec. exact H1.
  - intros I HI. apply disjointb_spec. apply H2. apply in_seq. lia.
Qed.

Lemma no_interferenceb_sound (f : func_t) (it : TensorIterator) :
  no_interferenceb f it = true -> no_interference f it.
Proof.
  unfold no_interferenceb. rewrite forallb_forall. intros H i j Hi Hj Hne.
  specialize (H i (proj2 (In_zseq _ _) Hi)). rewrite forallb_forall in H.
  specialize (H j (proj2 (In_zseq _ _) Hj)). apply orb_true_iff in H.
  destruct H as [H|H]; [apply Z.eqb_eq in H; contradiction|].
  apply sepb_sep. exact H.
Qed.

(** C2.  On a one-dimensional, fully packed input that needs no casting,
    and on which the vectorized kernel is applicable (all arguments of the
    function have one type, the stored types are the static types, distinct
    positions do not interfere), the vectorized kernel and the strided
    kernel with the non-casting adapter leave the same bytes in memory, in
    particular in the output operand, whatever the order in which each of
    them runs its threads. *)
Theorem vectorized_equals_strided (sched1 sched2 : Schedule)
    (it : TensorIterator) (f : func_t) (s : State) :
  fair sched1 -> fair sched2 ->
  well_formed it = true ->
  can_use_32bit_indexing it = true ->
  ntensors it = S (arity f) ->
  is_trivial_1d it = true ->
  has_contiguous_first_dim it = true ->
  same_arg_types f = true ->
  dtypes it = static_types f ->
  no_interference f it ->
  let data := map (data_ptr it) (seq 0 (S (arity f))) in
  let strides := map (fun i => to_int32 (nth i (get_inner_strides it) 0))
                     (seq 0 (S (arity f))) in
  let vectorized :=
    modern.launch_kernel sched1 (C10_WARP_SIZE * 2) 4 (numel it) f data s in
  let strided :=
    legacy.launch_kernel sched2 launch_size_1d 1 (numel it)
      (lambda_1d f data strides) s in
  fst vectorized = Some tt /\ fst strided = Some tt
  /\ forall x, mem (snd vectorized) x = mem (snd strided) x.
Proof.
  intros Hf1 Hf2 Hwf Hfit Hn H1 Hc Hu Ht Hni data strides vectorized strided.
  destruct (modern_path sched1 Hf1 it f Hwf Hfit Hn s H1 Hc Hu Ht)
    as (P1 & F1 & F2 & F3 & _).
  destruct (legacy_path sched2 Hf2 it f Hwf Hfit Hn launch_size_1d 1 4194304
              (lambda_1d f data strides) (static_types f)
              (fun idx => cell_1d data strides idx (S (arity f))) s)
    as (P2 & G1 & G2 & G3 & _);
    [reflexivity | reflexivity | reflexivity | | |].
  - intros idx s'. rewrite lambda_1d_run. repeat split.
  - intros idx Hidx. apply cell_1d_exact; assumption.
  - split; [exact F1|]. split; [exact G1|]. intros x.
    unfold vectorized, strided. fold data in F2. rewrite F2, G2. rewrite <- Ht.
    pose proof (independent_cells f it Hni) as Hind.
    rewrite (run_batches_pointwise f (dtypes it) (mem s) P1 (cells it) F3 Hind).
    rewrite (run_batches_pointwise f (dtypes it) (mem s) P2 (cells it) G3 Hind).
    reflexivity.
Qed.

Lemma vectorized_equals_strided_witness :
  let it := mkIter [3]
              [mkOperand 256 [4] Int true; mkOperand 512 [4] Int true;
               mkOperand 768 [4] Int true] false in
  let f := mkFunc [Int; Int] Int (fun xs => nth 0%nat xs 0 + nth 1%nat xs 0) in
  let s := mkState (fun a => a mod 7) [] [] in
  let data := [256; 512; 768] in
  let strides := [4; 4; 4] in
  no_interference f it
  /\ forall x,
       mem (snd (modern.launch_kernel threads (C10_WARP_SIZE * 2) 4 3 f data s)) x
       = mem (snd (legacy.launch_kernel threads launch_size_1d 1 3
                     (lambda_1d f data strides) s)) x.
Proof.
  intros it f s data strides.
  assert (Hfair : fair threads) by (intros g b; apply Permutation_refl).
  pose proof (vectorized_equals_strided threads threads it f s Hfair Hfair
                eq_refl eq_refl eq_refl eq_refl eq_refl eq_refl eq_refl
                (no_interferenceb_sound f it eq_refl)) as (_ & _ & H).
  split; [exact (no_interferenceb_sound f it eq_refl) | exact H].
Defined.

(** ** Scalar lifting *)

Lemma byte_offset_broadcast (sh : list Z) : forall n idx,
  byte_offset sh (repeat 0 n) idx = 0.
Proof.
  induction sh as [|e sh IH]; intros n idx; [reflexivity|].
  destruct n as [|n]; [reflexivity|]. simpl repeat. cbn [byte_offset].
  rewrite IH. lia.
Qed.

Lemma le_decode_moved (n : nat) : forall (m m' : memory) (p q : Z),
  (forall x, 0 <= x < Z.of_nat n -> m (p + x) = m' (q + x)) ->
  le_decode m p n = le_decode m' q n.
Proof.
  induction n as [|n IH]; intros m m' p q H; [reflexivity|].
  cbn [le_decode].
  assert (E0 : m p = m' q).
  { specialize (H 0). rewrite !Z.add_0_r in H. apply H. lia. }
  rewrite E0, (IH m m' (p + 1) (q + 1)); [reflexivity|].
  intros x Hx. rewrite <- !Z.add_assoc. apply H. lia.
Qed.

Lemma load_moved (t : ScalarType) (m m' : memory) (p q : Z) :
  (forall x, 0 <= x < elementSize t -> m (p + x) = m' (q + x)) ->
  load t m p = load t m' q.
Proof.
  intros H. unfold load. f_equal. apply le_decode_moved. exact H.
Qed.

Lemma same_arg_types_unary (t r : ScalarType) (b : list Z -> Z) :
  same_arg_types (mkFunc [t] r b) = true.
Proof. unfold same_arg_types, modern.arg_type, arg. simpl. destruct t; reflexivity. Qed.

Lemma fold_left_ext_in {A B} (F G : A -> B -> A) (l : list B) : forall acc,
  (forall a b, In b l -> F a b = G a b) -> fold_left F l acc = fold_left G l acc.
Proof.
  induction l as [|b l IH]; intros acc H; simpl; [reflexivity|].
  rewrite (H acc b) by (left; reflexivity). apply IH.
  intros a b' Hb'. apply H. right. exact Hb'.
Qed.

Lemma pointwise_map (f : func_t) (dts : list ScalarType) (g : Z -> list Z)
    (L : list Z) (m0 : memory) :
  pointwise f dts (map g L) m0
  = fold_left (fun acc i => write_cell f dts m0 acc (g i)) L m0.
Proof. unfold pointwise. apply fold_left_map_list. Qed.

Section Lifting.

Variable sched : Schedule.
Hypothesis sched_fair : fair sched.
Variable split : TensorIterator -> list TensorIterator.
Variable fuel : nat.

Variables (sh : list Z) (o0 o1 o2 : OperandInfo) (cast : bool).
Variables (a0 a1 rt : ScalarType) (fbody : list Z -> Z).

(** Lifting the first input: the iterator without it, the closure over its
    value, and the iterator with it materialized at [p]. *)
Lemma lift_first_pointwise (p : Z) (s s1 : State) :
  let f := mkFunc [a0; a1] rt fbody in
  let itm := mkIter sh [o0; mkOperand p (repeat 0 (length sh)) (op_dtype o1) true; o2] cast in
  let it' := mkIter sh [o0; o2] cast in
  let v := static_cast a0 (load (op_dtype o1) (mem s) (op_data o1)) in
  mem s1 = mem s ->
  (forall x, 0 <= x < elementSize (op_dtype o1) -> mem s (p + x) = mem s (op_data o1 + x)) ->
  well_formed itm = true ->
  can_use_32bit_indexing itm = true ->
  forallb op_is_cuda (operands itm) = true ->
  (cast = false -> dtypes itm = static_types f) ->
  no_interference f itm ->
  fst (gpu_kernel sched split (S fuel) it' (bind_first f v) s1) = Some tt
  /\ fst (gpu_kernel sched split (S fuel) itm f s) = Some tt
  /\ forall x, mem (snd (gpu_kernel sched split (S fuel) it' (bind_first f v) s1)) x
               = mem (snd (gpu_kernel sched split (S fuel) itm f s)) x.
Proof.
  intros f itm it' v Hm Hsame Hwf Hfit Hcuda Hty Hni.
  destruct (gpu_kernel_pointwise sched sched_fair split (bind_first f v) fuel it' s1)
    as [L1 L2].
  - unfold well_formed in *. cbn [itm it' shape operands forallb ndim] in *.
    repeat rewrite andb_true_iff in *. tauto.
  - exact Hfit.
  - reflexivity.
  - cbn [itm it' operands forallb] in *. repeat rewrite andb_true_iff in *. tauto.
  - intros Hc. specialize (Hty Hc). cbn in Hty |- *. inversion Hty as [[H0 H1 H2]].
    rewrite H0, H2. reflexivity.
  - intros _. apply same_arg_types_unary.
  - intros i j Hi Hj Hne. destruct (Hni i j Hi Hj Hne) as [D1 D2].
    split; [exact D1|]. intros I HI. cbn in HI.
    assert (I = 0%nat) by lia. subst I. exact (D2 1%nat (Nat.lt_succ_diag_r 1)).
  - destruct (gpu_kernel_pointwise sched sched_fair split f fuel itm s Hwf Hfit eq_refl
                Hcuda Hty) as [R1 R2].
    + intros Hv. exfalso. unfold takes_vectorized_path in Hv.
      repeat rewrite andb_true_iff in Hv. destruct Hv as [[Hv1 _] Hv3].
      unfold is_trivial_1d, ndim in Hv1. apply Nat.eqb_eq in Hv1.
      cbn [itm shape] in Hv1.
      unfold has_contiguous_first_dim in Hv3. cbn [itm operands forallb] in Hv3.
      repeat rewrite andb_true_iff in Hv3. destruct Hv3 as (_ & Hv3 & _).
      cbn [stride_bytes op_dtype] in Hv3. rewrite Hv1 in Hv3.
      cbn [repeat nth] in Hv3.
      apply Z.eqb_eq in Hv3. pose proof (elementSize_pos (op_dtype o1)). lia.
    + exact Hni.
    + split; [exact L1|]. split; [exact R1|]. intros x. rewrite L2, R2, Hm.
      unfold cells. rewrite !pointwise_map.
      change (numel it') with (numel itm).
      apply (f_equal (fun g : memory => g x)).
      apply fold_left_ext_in. intros acc i _.
      unfold write_cell, cell_value, cell, operand_addr, data_ptr, strides, operand, dtypes.
      cbn [itm it' ntensors operands length seq map nth op_dtype op_data stride_bytes
           shape f arity arg_types bind_first result_type body arg].
      rewrite byte_offset_broadcast, Z.add_0_r.
      unfold call at 1. cbn [result_type body bind_first nth].
      rewrite static_cast_call. fold v.
      rewrite (load_moved (op_dtype o1) (mem s) (mem s) p (op_data o1) Hsame).
      reflexivity.
Qed.

(** Lifting the second input: the iterator without it, the closure over its
    value, and the iterator with it materialized at [p]. *)
Lemma lift_second_pointwise (p : Z) (s s1 : State) :
  let f := mkFunc [a0; a1] rt fbody in
  let itm := mkIter sh [o0; o1; mkOperand p (repeat 0 (length sh)) (op_dtype o2) true] cast in
  let it' := mkIter sh [o0; o1] cast in
  let v := static_cast a1 (load (op_dtype o2) (mem s) (op_data o2)) in
  mem s1 = mem s ->
  (forall x, 0 <= x < elementSize (op_dtype o2) -> mem s (p + x) = mem s (op_data o2 + x)) ->
  well_formed itm = true ->
  can_use_32bit_indexing itm = true ->
  forallb op_is_cuda (operands itm) = true ->
  (cast = false -> dtypes itm = static_types f) ->
  no_interference f itm ->
  fst (gpu_kernel sched split (S fuel) it' (bind_second f v) s1) = Some tt
  /\ fst (gpu_kernel sched split (S fuel) itm f s) = Some tt
  /\ forall x, mem (snd (gpu_kernel sched split (S fuel) it' (bind_second f v) s1)) x
               = mem (snd (gpu_kernel sched split (S fuel) itm f s)) x.
Proof.
  intros f itm it' v Hm Hsame Hwf Hfit Hcuda Hty Hni.
  destruct (gpu_kernel_pointwise sched sched_fair split (bind_second f v) fuel it' s1)
    as [L1 L2].
  - unfold well_formed in *. cbn [itm it' shape operands forallb ndim] in *.
    repeat rewrite andb_true_iff in *. tauto.
  - exact Hfit.
  - reflexivity.
  - cbn [itm it' operands forallb] in *. repeat rewrite andb_true_iff in *. tauto.
  - intros Hc. specialize (Hty Hc). cbn in Hty |- *. inversion Hty as [[H0 H1 H2]].
    rewrite H0, H1. reflexivity.
  - intros _. apply same_arg_types_unary.
  - intros i j Hi Hj Hne. destruct (Hni i j Hi Hj Hne) as [D1 D2].
    split; [exact D1|]. intros I HI. cbn in HI.
    assert (I = 0%nat) by lia. subst I. exact (D2 0%nat Nat.lt_0_2).
  - destruct (gpu_kernel_pointwise sched sched_fair split f fuel itm s Hwf Hfit eq_refl
                Hcuda Hty) as [R1 R2].
    + intros Hv. exfalso. unfold takes_vectorized_path in Hv.
      repeat rewrite andb_true_iff in Hv. destruct Hv as [[Hv1 _] Hv3].
      unfold is_trivial_1d, ndim in Hv1. apply Nat.eqb_eq in Hv1.
      cbn [itm shape] in Hv1.
      unfold has_contiguous_first_dim in Hv3. cbn [itm operands forallb] in Hv3.
      repeat rewrite andb_true_iff in Hv3. destruct Hv3 as (_ & _ & Hv3 & _).
      cbn [stride_bytes op_dtype] in Hv3. rewrite Hv1 in Hv3.
      cbn [repeat nth] in Hv3.
      apply Z.eqb_eq in Hv3. pose proof (elementSize_pos (op_dtype o2)). lia.
    + exact Hni.
    + split; [exact L1|]. split; [exact R1|]. intros x. rewrite L2, R2, Hm.
      unfold cells. rewrite !pointwise_map.
      change (numel it') with (numel itm).
      apply (f_equal (fun g : memory => g x)).
      apply fold_left_ext_in. intros acc i _.
      unfold write_cell, cell_value, cell, operand_addr, data_ptr, strides, operand, dtypes.
      cbn [itm it' ntensors operands length seq map nth op_dtype op_data stride_bytes
           shape f arity arg_types bind_second result_type body arg].
      rewrite byte_offset_broadcast, Z.add_0_r.
      unfold call at 1. cbn [result_type body bind_second nth].
      rewrite static_cast_call. fold v.
      rewrite (load_moved (op_dtype o2) (mem s) (mem s) p (op_data o2) Hsame).
      reflexivity.
Qed.

End Lifting.

(** C4.  [gpu_kernel_with_scalars] on a 3-operand iterator and a binary
    function.  When neither input is a host scalar the binary function is
    dispatched unchanged.  When input slot [k] (the first, else the second)
    is a host scalar, its value is read and captured as argument [k] of the
    derived unary closure, which is dispatched on the iterator without that
    operand; and the memory afterwards is, byte for byte, the memory after
    the unmodified binary dispatch on the iterator in which the scalar is
    materialized as a device buffer at [p], holding the same value and
    broadcast along every dimension. *)
Theorem scalar_lifting (sched : Schedule)
    (split : TensorIterator -> list TensorIterator) (fuel : nat)
    (it : TensorIterator) (f : func_t) (s : State) :
  fair sched -> ntensors it = 3%nat -> arity f = 2%nat ->
  (host_scalar_slot it = None ->
     gpu_kernel_with_scalars sched split (S fuel) it f s
     = gpu_kernel sched split (S fuel) it f s)
  /\ (forall k, host_scalar_slot it = Some k ->
        gpu_kernel_with_scalars sched split (S fuel) it f s
        = (v <- scalar_value (arg f (k - 1)) it k ;;
           gpu_kernel sched split (S fuel) (remove_operand it k) (lift f k v)) s
        /\ forall p,
             (forall x, 0 <= x < elementSize (dtype it k) ->
                        mem s (p + x) = mem s (data_ptr it k + x)) ->
             well_formed (materialize it k p) = true ->
             can_use_32bit_indexing (materialize it k p) = true ->
             forallb op_is_cuda (operands (materialize it k p)) = true ->
             (needs_dynamic_casting it = false -> dtypes it = static_types f) ->
             no_interference f (materialize it k p) ->
             fst (gpu_kernel_with_scalars sched split (S fuel) it f s) = Some tt
             /\ fst (gpu_kernel sched split (S fuel) (materialize it k p) f s) = Some tt
             /\ forall x,
                  mem (snd (gpu_kernel_with_scalars sched split (S fuel) it f s)) x
                  = mem (snd (gpu_kernel sched split (S fuel) (materialize it k p) f s)) x).
Proof.
  intros Hfair H3 H2.
  assert (U : gpu_kernel_with_scalars sched split (S fuel) it f s
              = (if is_cpu_scalar it 1 then
                   a <- scalar_value (arg f 0) it 1 ;;
                   gpu_kernel sched split (S fuel) (remove_operand it 1) (bind_first f a)
                 else if is_cpu_scalar it 2 then
                   b <- scalar_value (arg f 1) it 2 ;;
                   gpu_kernel sched split (S fuel) (remove_operand it 2) (bind_second f b)
                 else gpu_kernel sched split (S fuel) it f) s).
  { unfold gpu_kernel_with_scalars. rewrite H3, H2. reflexivity. }
  unfold host_scalar_slot. split.
  - intros Hnone. rewrite U.
    destruct (is_cpu_scalar it 1); [discriminate|].
    destruct (is_cpu_scalar it 2); [discriminate | reflexivity].
  - intros k Hk.
    destruct it as [sh ops cast]. unfold ntensors in H3. cbn [operands] in H3.
    destruct ops as [|o0 [|o1 [|o2 [|? ?]]]]; try discriminate.
    destruct f as [ats rt body]. unfold arity in H2. cbn [arg_types] in H2.
    destruct ats as [|a0 [|a1 [|? ?]]]; try discriminate.
    set (it := mkIter sh [o0; o1; o2] cast) in *.
    set (f := mkFunc [a0; a1] rt body) in *.
    destruct (is_cpu_scalar it 1) eqn:E1.
    + inversion Hk; subst k. split; [exact U|].
      intros p Hsame Hwf Hfit Hcuda Hty Hni. rewrite U.
      unfold scalar_value, fetch_and_cast, bind, load_m, ret.
      cbn [fst snd mem trace stream].
      apply (lift_first_pointwise sched Hfair split fuel sh o0 o1 o2 cast a0 a1 rt body p s);
        try assumption. reflexivity.
    + destruct (is_cpu_scalar it 2) eqn:E2; [|discriminate].
      inversion Hk; subst k. split; [exact U|].
      intros p Hsame Hwf Hfit Hcuda Hty Hni. rewrite U.
      unfold scalar_value, fetch_and_cast, bind, load_m, ret.
      cbn [fst snd mem trace stream].
      apply (lift_second_pointwise sched Hfair split fuel sh o0 o1 o2 cast a0 a1 rt body p s);
        try assumption. reflexivity.
Qed.

Lemma scalar_lifting_witness :
  let it := mkIter [3]
              [mkOperand 256 [4] Int true; mkOperand 64 [0] Int false;
               mkOperand 512 [4] Int true] false in
  let f := mkFunc [Int; Int] Int (fun xs => nth 0%nat xs 0 + nth 1%nat xs 0) in
  let s := mkState (fun a => if (a =? 64) || (a =? 1024) then 5
                             else if a <? 256 then 0
                             else if 1024 <=? a then 0 else a mod 7) [] [] in
  host_scalar_slot it = Some 1%nat
  /\ fst (gpu_kernel_with_scalars threads (fun _ => []) 1 it f s) = Some tt
  /\ forall x,
       mem (snd (gpu_kernel_with_scalars threads (fun _ => []) 1 it f s)) x
       = mem (snd (gpu_kernel threads (fun _ => []) 1 (materialize it 1 1024) f s)) x.
Proof.
  intros it f s.
  assert (Hfair : fair threads) by (intros g b; apply Permutation_refl).
  destruct (scalar_lifting threads (fun _ => []) 0 it f s Hfair eq_refl eq_refl)
    as [_ H].
  destruct (H 1%nat eq_refl) as [_ H1].
  destruct (H1 1024) as (R1 & _ & R2).
  - intros x Hx. change (elementSize (dtype it 1)) with 4 in Hx.
    change (data_ptr it 1) with 64. cbn [s mem].
    assert (Hc : x = 0 \/ x = 1 \/ x = 2 \/ x = 3) by lia.
    destruct Hc as [-> | [-> | [-> | ->]]]; reflexivity.
  - reflexivity.
  - reflexivity.
  - reflexivity.
  - reflexivity.
  - apply no_interferenceb_sound. reflexivity.
  - split; [reflexivity|]. split; [exact R1 | exact R2].
Defined.

(** ** The vectorized path and functions with arguments of several types *)

(** C1.  The claim fails on the vectorized path.  A packed one-dimensional
    iterator over a [Char] and an [Int] input, with the stored types equal
    to the static types of the function (no casting), is well formed, has
    positions that do not interfere, and is sent to the vectorized kernel;
    that kernel reads every argument as the type of the first one.  The
    pointwise result of the addition is 301 and 9; the code writes 45 and 3
    (the [Int] input read bytewise, at a [Char] stride). *)
Theorem vectorized_path_misreads_mixed_arguments :
  let it := mkIter [2]
              [mkOperand 300 [4] Int true; mkOperand 100 [1] Char true;
               mkOperand 200 [4] Int true] false in
  let f := mkFunc [Char; Int] Int (fun xs => nth 0%nat xs 0 + nth 1%nat xs 0) in
  let m : memory := fun a =>
    if (100 <=? a) && (a <? 102) then a - 99
    else if a =? 200 then 44 else if a =? 201 then 1
    else if a =? 204 then 7 else 0 in
  let s := mkState m [] [] in
  let r := gpu_kernel threads (fun _ => []) 1 it f s in
  (well_formed it = true /\ can_use_32bit_indexing it = true
   /\ dtypes it = static_types f /\ no_interferenceb f it = true)
  /\ (takes_vectorized_path it = true /\ same_arg_types f = false)
  /\ fst r = Some tt
  /\ (load Int (pointwise f (dtypes it) (cells it) m) 300 = 301
      /\ load Int (pointwise f (dtypes it) (cells it) m) 304 = 9)
  /\ (load Int (mem (snd r)) 300 = 45 /\ load Int (mem (snd r)) 304 = 3).
Proof. vm_compute. repeat split; reflexivity. Qed.

(** * Further properties of the dispatch and of the pickle entry points *)

(** ** Launches: the grid and the indices the element function runs on *)

Lemma grid_least (nt vt N : Z) :
  0 < nt -> 0 < vt -> 0 < N ->
  (grid_of nt vt N - 1) * (nt * vt) < N <= grid_of nt vt N * (nt * vt).
Proof.
  intros Hnt Hvt HN. unfold grid_of. assert (Hnv : 0 < nt * vt) by nia.
  pose proof (Z.div_mod (N + nt * vt - 1) (nt * vt)) as D.
  pose proof (Z.mod_pos_bound (N + nt * vt - 1) (nt * vt) Hnv) as B.
  set (g := (N + nt * vt - 1) / (nt * vt)) in *. nia.
Qed.

Lemma legacy_launch_unfold (sched : Schedule) (nt vt N : Z) (lam : Z -> M unit)
    (s : State) :
  0 < nt -> 0 < vt -> nt * vt < 2 ^ 32 -> 0 < N <= INT32_MAX ->
  legacy.launch_kernel sched nt vt N lam s
  = (enqueue (mkLaunch (grid_of nt vt N) nt N) ;;;
     for_each (flat_map (fun bt => owned nt vt N (fst bt) (snd bt))
                        (sched (grid_of nt vt N) nt)) lam) s.
Proof.
  intros Hnt Hvt Hnv HN. unfold legacy.launch_kernel.
  assert (A : (0 <=? N) && (N <=? INT32_MAX) = true).
  { apply andb_true_intro. split; apply Z.leb_le; lia. }
  rewrite A. unfold bind at 1, assert at 1.
  destruct (Z.eqb_spec N 0) as [E|_]; [lia|].
  rewrite grid_value by assumption.
  assert (EN : to_int32 N = N).
  { apply to_int32_small. unfold INT32_MAX in HN.
    assert (P31 : 2 ^ 31 = 2147483648) by reflexivity. lia. }
  rewrite EN. unfold run_grid, bind, enqueue.
  rewrite <- for_each_flat_map. apply for_each_ext.
  intros bt s' _. apply legacy_kernel_owned.
Qed.

(** X1. One launch of the strided kernel: the grid is the least number of
    blocks of [nt * vt] elements that covers [N], and the element function
    runs exactly once on every index from 0 to [N - 1], in the order the
    device picks the threads. *)
Theorem launch_kernel_runs_each_index_once (sched : Schedule) (nt vt N : Z)
    (lam : Z -> M unit) (s : State) :
  fair sched -> 0 < nt -> 0 < vt -> 0 < N <= INT32_MAX ->
  nt * vt * grid_of nt vt N <= 2 ^ 31 ->
  let grid := grid_of nt vt N in
  (grid - 1) * (nt * vt) < N <= grid * (nt * vt)
  /\ exists L,
       Permutation L (zseq N)
       /\ legacy.launch_kernel sched nt vt N lam s
          = (enqueue (mkLaunch grid nt N) ;;; for_each L lam) s.
Proof.
  intros Hfair Hnt Hvt HN Hfit grid.
  pose proof (grid_least nt vt N Hnt Hvt (proj1 HN)) as Hg. fold grid in Hg.
  split; [exact Hg|].
  assert (P31 : 2 ^ 31 = 2147483648) by reflexivity.
  assert (P32 : 2 ^ 32 = 4294967296) by reflexivity.
  assert (Hg1 : 1 <= grid) by (assert (0 < nt * vt) by nia; nia).
  assert (Hnv : nt * vt < 2 ^ 32) by (fold grid in Hfit; nia).
  exists (flat_map (fun bt => owned nt vt N (fst bt) (snd bt)) (sched grid nt)).
  split.
  - eapply Permutation_trans.
    + apply Permutation_flat_map. apply Hfair.
    + apply owned_partition; try assumption. lia.
  - apply legacy_launch_unfold; assumption.
Qed.

Lemma launch_kernel_runs_each_index_once_witness :
  exists L,
    Permutation L (zseq 1000)
    /\ legacy.launch_kernel threads 128 4 1000 (fun _ => ret tt) (mkState (fun _ => 0) [] [])
       = (enqueue (mkLaunch 2 128 1000) ;;; for_each L (fun _ => ret tt))
           (mkState (fun _ => 0) [] []).
Proof.
  assert (Hfair : fair threads) by (intros g b; apply Permutation_refl).
  assert (H1 : 0 < 128) by lia.
  assert (H2 : 0 < 4) by lia.
  assert (H3 : 0 < 1000 <= INT32_MAX) by (unfold INT32_MAX; lia).
  assert (H4 : 128 * 4 * grid_of 128 4 1000 <= 2 ^ 31) by (vm_compute; discriminate).
  exact (proj2 (launch_kernel_runs_each_index_once threads 128 4 1000 (fun _ => ret tt)
                  (mkState (fun _ => 0) [] []) Hfair H1 H2 H3 H4)).
Defined.

(** ** The operand count of a dispatch *)

(** X3. [gpu_kernel] looks at the operand count only when there is work to
    do. With every operand on the device and an operand count other than the
    arity of the function plus one (the output), an iterator within the
    index range that has no elements returns normally, and one that has
    elements fails at the assertion of [gpu_kernel_impl]; either way nothing
    was enqueued, read or written. *)
Theorem gpu_kernel_operand_count (sched : Schedule)
    (split : TensorIterator -> list TensorIterator) (fuel : nat)
    (it : TensorIterator) (f : func_t) (s : State) :
  numel it <= INT32_MAX ->
  forallb op_is_cuda (operands it) = true ->
  ntensors it <> S (arity f) ->
  gpu_kernel sched split (S fuel) it f s
  = (if numel it =? 0 then Some tt else None, s).
Proof.
  intros HN Hcuda Hn.
  assert (Hfit : can_use_32bit_indexing it = true).
  { unfold can_use_32bit_indexing. apply Z.leb_le. exact HN. }
  cbn [gpu_kernel]. unfold bind at 1. rewrite assert_all_cuda_run, Hcuda.
  destruct (numel it =? 0); [reflexivity|].
  rewrite Hfit. cbn [negb].
  unfold gpu_kernel_impl. rewrite Hfit. unfold bind at 1, assert at 1.
  unfold bind at 1, assert at 1.
  destruct (Nat.eqb_spec (ntensors it) (arity f + 1)); [lia | reflexivity].
Qed.

Lemma gpu_kernel_operand_count_witness :
  let full := mkIter [3]
                [mkOperand 256 [4] Int true; mkOperand 512 [4] Int true] false in
  let empty := mkIter [0]
                 [mkOperand 256 [4] Int true; mkOperand 512 [4] Int true] false in
  let f := mkFunc [Int; Int] Int (fun xs => nth 0%nat xs 0 + nth 1%nat xs 0) in
  let s := mkState (fun a => a mod 7) [] [] in
  gpu_kernel threads (fun _ => []) 1 full f s = (None, s)
  /\ gpu_kernel threads (fun _ => []) 1 empty f s = (Some tt, s).
Proof.
  intros full empty f s.
  assert (N1 : numel full <= INT32_MAX) by (vm_compute; discriminate).
  assert (N2 : numel empty <= INT32_MAX) by (vm_compute; discriminate).
  assert (D1 : ntensors full <> S (arity f)) by (vm_compute; discriminate).
  assert (D2 : ntensors empty <> S (arity f)) by (vm_compute; discriminate).
  split.
  - exact (gpu_kernel_operand_count threads (fun _ => []) 0 full f s N1 eq_refl D1).
  - exact (gpu_kernel_operand_count threads (fun _ => []) 0 empty f s N2 eq_refl D2).
Defined.

(** ** What a dispatch leaves in memory, element by element *)

Lemma run_batches_frame (f : func_t) (dts : list ScalarType)
    (P : list (list (list Z))) : forall m x,
  (forall c, In c (concat P) ->
     x < nth 0%nat c 0 \/ nth 0%nat c 0 + elementSize (nth 0%nat dts Byte) <= x) ->
  run_batches f dts P m x = m x.
Proof.
  induction P as [|l P IH]; intros m x H; [reflexivity|].
  simpl in H |- *. rewrite IH by (intros c Hc; apply H; apply in_or_app; right; exact Hc).
  unfold batch_step. apply (writes_from_frame f dts m l m x).
  intros c Hc. apply H. apply in_or_app. left. exact Hc.
Qed.

Lemma writes_from_readback (f : func_t) (dts : list ScalarType) (m0 : memory)
    (C : list (list Z)) : forall acc c,
  independent f dts C -> In c C ->
  load (nth 0%nat dts Byte) (writes_from f dts m0 acc C) (nth 0%nat c 0)
  = cell_value f dts c m0.
Proof.
  induction C as [|c' C IH]; intros acc c [ND Hs] Hin; [contradiction|].
  change (writes_from f dts m0 acc (c' :: C))
    with (writes_from f dts m0 (write_cell f dts m0 acc c') C).
  inversion ND as [|? ? Hn ND']; subst.
  assert (Hind : independent f dts C).
  { split; [exact ND'|]. intros a b Ha Hb. apply Hs; right; assumption. }
  destruct (list_eq_dec Z.eq_dec c' c) as [->|Hne].
  - rewrite (load_ext _ _ (write_cell f dts m0 acc c)).
    + unfold write_cell. rewrite load_store_same. unfold cell_value.
      apply static_cast_idem.
    + intros x Hx. apply writes_from_frame. intros w Hw.
      destruct (Hs c w) as [D _]; [left; reflexivity | right; exact Hw | |].
      * intros ->. contradiction.
      * unfold disjoint in D. lia.
  - apply IH; [exact Hind|]. destruct Hin as [E|Hin]; [contradiction | exact Hin].
Qed.

Lemma cell_nth (it : TensorIterator) (idx : Z) (k : nat) :
  (k < ntensors it)%nat -> nth k (cell it idx) 0 = operand_addr it k idx.
Proof.
  intros H. unfold cell.
  apply (nth_map_seq (fun k0 => operand_addr it k0 idx)). exact H.
Qed.

Lemma cell_value_explicit (f : func_t) (it : TensorIterator) (idx : Z) (m : memory) :
  ntensors it = S (arity f) ->
  cell_value f (dtypes it) (cell it idx) m
  = static_cast (dtype it 0)
      (call f (map (fun I => static_cast (arg f I)
                               (load (dtype it (S I)) m (operand_addr it (S I) idx)))
                   (seq 0 (arity f)))).
Proof.
  intros Hn. unfold cell_value. rewrite <- dtype_nth. f_equal. f_equal.
  apply map_seq_ext. intros I HI. rewrite <- dtype_nth, cell_nth by lia. reflexivity.
Qed.

Lemma pointwise_element (f : func_t) (it : TensorIterator) (m0 : memory) (idx : Z) :
  ntensors it = S (arity f) -> no_interference f it -> 0 <= idx < numel it ->
  load (dtype it 0) (pointwise f (dtypes it) (cells it) m0) (operand_addr it 0 idx)
  = static_cast (dtype it 0)
      (call f (map (fun I => static_cast (arg f I)
                               (load (dtype it (S I)) m0 (operand_addr it (S I) idx)))
                   (seq 0 (arity f)))).
Proof.
  intros Hn Hni Hidx. rewrite <- cell_value_explicit by exact Hn.
  rewrite dtype_nth, <- (cell_nth it idx 0) by lia.
  apply (writes_from_readback f (dtypes it) m0 (cells it) m0).
  - apply independent_cells. exact Hni.
  - unfold cells. apply in_map. apply In_zseq. exact Hidx.
Qed.

(** X4. After a dispatch within the index range, every element of the output
    holds the function applied to the input elements of its own position as
    they were before the dispatch: each input converted from its stored type
    to the static argument type, the result converted to the stored type of
    the output. This holds for every order in which the device runs the
    threads, on every path, provided distinct positions do not interfere
    (the output may alias an input position by position: in-place use). *)
Theorem gpu_kernel_output_elements (sched : Schedule)
    (split : TensorIterator -> list TensorIterator) (fuel : nat)
    (it : TensorIterator) (f : func_t) (s : State) (idx : Z) :
  fair sched ->
  well_formed it = true ->
  can_use_32bit_indexing it = true ->
  ntensors it = S (arity f) ->
  forallb op_is_cuda (operands it) = true ->
  (needs_dynamic_casting it = false -> dtypes it = static_types f) ->
  (takes_vectorized_path it = true -> same_arg_types f = true) ->
  no_interference f it ->
  0 <= idx < numel it ->
  load (dtype it 0) (mem (snd (gpu_kernel sched split (S fuel) it f s)))
       (operand_addr it 0 idx)
  = static_cast (dtype it 0)
      (call f (map (fun I => static_cast (arg f I)
                               (load (dtype it (S I)) (mem s) (operand_addr it (S I) idx)))
                   (seq 0 (arity f)))).
Proof.
  intros Hfair Hwf Hfit Hn Hcuda Hty Hvec Hni Hidx.
  destruct (gpu_kernel_pointwise sched Hfair split f fuel it s Hwf Hfit Hn Hcuda Hty Hvec Hni)
    as [_ R].
  rewrite (load_ext _ _ (pointwise f (dtypes it) (cells it) (mem s)))
    by (intros x _; apply R).
  apply pointwise_element; assumption.
Qed.

Lemma gpu_kernel_output_elements_witness :
  let it := mkIter [3]
              [mkOperand 256 [4] Int true; mkOperand 512 [4] Int true;
               mkOperand 768 [4] Int true] false in
  let f := mkFunc [Int; Int] Int (fun xs => nth 0%nat xs 0 + nth 1%nat xs 0) in
  let s := mkState (fun a => a mod 7) [] [] in
  load Int (mem (snd (gpu_kernel threads (fun _ => []) 1 it f s))) 260
  = static_cast Int (call f [load Int (mem s) 516; load Int (mem s) 772]).
Proof.
  intros it f s.
  assert (Hfair : fair threads) by (intros g b; apply Permutation_refl).
  assert (Hidx : 0 <= 1 < numel it) by (vm_compute; split; [discriminate | reflexivity]).
  pose proof (gpu_kernel_output_elements threads (fun _ => []) 0 it f s 1 Hfair
                eq_refl eq_refl eq_refl eq_refl (fun _ => eq_refl) (fun _ => eq_refl)
                (no_interferenceb_sound f it eq_refl) Hidx) as H.
  exact H.
Defined.

(** X5. A dispatch writes nothing but output elements: every byte that lies
    in no element of the output operand is, after the dispatch, what it was
    before. No assumption on overlap is needed for this. *)
Theorem gpu_kernel_frame (sched : Schedule)
    (split : TensorIterator -> list TensorIterator) (fuel : nat)
    (it : TensorIterator) (f : func_t) (s : State) (x : Z) :
  fair sched ->
  well_formed it = true ->
  can_use_32bit_indexing it = true ->
  ntensors it = S (arity f) ->
  forallb op_is_cuda (operands it) = true ->
  (needs_dynamic_casting it = false -> dtypes it = static_types f) ->
  (takes_vectorized_path it = true -> same_arg_types f = true) ->
  (forall idx, 0 <= idx < numel it ->
     x < operand_addr it 0 idx
     \/ operand_addr it 0 idx + elementSize (dtype it 0) <= x) ->
  mem (snd (gpu_kernel sched split (S fuel) it f s)) x = mem s x.
Proof.
  intros Hfair Hwf Hfit Hn Hcuda Hty Hvec Hout.
  destruct (gpu_kernel_batches sched Hfair split f fuel it s Hwf Hfit Hn Hcuda Hty Hvec)
    as (P & l & _ & F2 & F3 & _).
  rewrite F2. apply run_batches_frame. intros c Hc.
  apply (Permutation_in _ F3) in Hc. unfold cells in Hc. apply in_map_iff in Hc.
  destruct Hc as (idx & <- & Hidx). apply In_zseq in Hidx.
  rewrite cell_nth by lia. rewrite <- dtype_nth. apply Hout. exact Hidx.
Qed.

Lemma gpu_kernel_frame_witness :
  let it := mkIter [3]
              [mkOperand 256 [4] Int true; mkOperand 512 [4] Int true;
               mkOperand 768 [4] Int true] false in
  let f := mkFunc [Int; Int] Int (fun xs => nth 0%nat xs 0 + nth 1%nat xs 0) in
  let s := mkState (fun a => a mod 7) [] [] in
  mem (snd (gpu_kernel threads (fun _ => []) 1 it f s)) 268 = mem s 268.
Proof.
  intros it f s.
  assert (Hfair : fair threads) by (intros g b; apply Permutation_refl).
  apply (gpu_kernel_frame threads (fun _ => []) 0 it f s 268 Hfair
           eq_refl eq_refl eq_refl eq_refl (fun _ => eq_refl) (fun _ => eq_refl)).
  intros idx Hidx. change (numel it) with 3 in Hidx.
  unfold operand_addr, data_ptr, strides, dtype, operand.
  cbn [it operands shape nth op_data stride_bytes op_dtype byte_offset].
  rewrite Z.mod_small by lia. change (elementSize Int) with 4. lia.
Defined.

(** ** Scalar lifting and residency *)

(** X6. [gpu_kernel_with_scalars] lifts at most one host scalar: whatever is
    left after the first host scalar was dropped must live on the device. If
    it does not (both inputs are host scalars, or the output or a non-scalar
    input is on the host) the dispatch fails, having written nothing and
    launched nothing. *)
Theorem gpu_kernel_with_scalars_residency (sched : Schedule)
    (split : TensorIterator -> list TensorIterator) (fuel : nat)
    (it : TensorIterator) (f : func_t) (s : State) :
  forallb op_is_cuda (operands (lifted it)) = false ->
  fst (gpu_kernel_with_scalars sched split (S fuel) it f s) = None
  /\ quiet s (snd (gpu_kernel_with_scalars sched split (S fuel) it f s)).
Proof.
  intros H.
  assert (R : exists s', gpu_kernel_with_scalars sched split (S fuel) it f s = (None, s')
                         /\ quiet s s').
  { unfold gpu_kernel_with_scalars, lifted in *.
    unfold bind at 1. unfold assert at 1.
    destruct (Nat.eqb (ntensors it) 3); [|exists s; split; [reflexivity | apply quiet_refl]].
    unfold bind at 1. unfold assert at 1.
    destruct (Nat.eqb (arity f) 2); [|exists s; split; [reflexivity | apply quiet_refl]].
    assert (G : forall it' g s', forallb op_is_cuda (operands it') = false ->
              gpu_kernel sched split (S fuel) it' g s' = (None, s')).
    { intros it' g s' Hc.
      cbn [gpu_kernel]. unfold bind. rewrite assert_all_cuda_run, Hc. reflexivity. }
    destruct (is_cpu_scalar it 1).
    - destruct (scalar_value_quiet (arg f 0) it 1 s) as (a & s' & E & Q).
      rewrite (bind_Some _ _ _ _ _ E), G by exact H. exists s'. split; [reflexivity | exact Q].
    - destruct (is_cpu_scalar it 2).
      + destruct (scalar_value_quiet (arg f 1) it 2 s) as (a & s' & E & Q).
        rewrite (bind_Some _ _ _ _ _ E), G by exact H.
        exists s'. split; [reflexivity | exact Q].
      + rewrite G by exact H. exists s. split; [reflexivity | apply quiet_refl]. }
  destruct R as (s' & E & Q). rewrite E. split; [reflexivity | exact Q].
Qed.

Lemma gpu_kernel_with_scalars_residency_witness :
  let it := mkIter [3]
              [mkOperand 256 [4] Int true; mkOperand 64 [0] Int false;
               mkOperand 128 [0] Int false] false in
  let f := mkFunc [Int; Int] Int (fun xs => nth 0%nat xs 0 + nth 1%nat xs 0) in
  let s := mkState (fun a => a mod 7) [] [] in
  (is_cpu_scalar it 1 = true /\ is_cpu_scalar it 2 = true)
  /\ fst (gpu_kernel_with_scalars threads (fun _ => []) 1 it f s) = None.
Proof.
  intros it f s. split; [split; reflexivity|].
  exact (proj1 (gpu_kernel_with_scalars_residency threads (fun _ => []) 0 it f s eq_refl)).
Defined.

(** ** Exact runs: result, memory, accesses and stream of a computation *)

Lemma for_each_run {A} (l : list A) (body : A -> M unit)
    (g : A -> memory -> memory) (e : A -> list Access) :
  (forall a s, In a l ->
     body a s = (Some tt, mkState (g a (mem s)) (trace s ++ e a) (stream s))) ->
  forall s, for_each l body s
    = (Some tt, mkState (fold_left (fun m a => g a m) l (mem s))
                        (trace s ++ flat_map e l) (stream s)).
Proof.
  induction l as [|a l IH]; intros H s.
  - simpl. unfold ret. rewrite app_nil_r. destruct s; reflexivity.
  - cbn [for_each]. unfold bind. rewrite H by (left; reflexivity).
    rewrite IH by (intros a' s' Ha'; apply H; right; exact Ha').
    cbn [mem trace stream fold_left flat_map]. rewrite <- app_assoc. reflexivity.
Qed.

Lemma map_m_run {A B} (l : list A) (body : A -> M B)
    (v : A -> memory -> B) (e : A -> list Access) :
  (forall a s, In a l ->
     body a s = (Some (v a (mem s)), mkState (mem s) (trace s ++ e a) (stream s))) ->
  forall s, map_m l body s
    = (Some (map (fun a => v a (mem s)) l),
       mkState (mem s) (trace s ++ flat_map e l) (stream s)).
Proof.
  induction l as [|a l IH]; intros H s.
  - simpl. unfold ret. rewrite app_nil_r. destruct s; reflexivity.
  - cbn [map_m]. unfold bind. rewrite H by (left; reflexivity).
    rewrite IH by (intros a' s' Ha'; apply H; right; exact Ha').
    cbn [mem trace stream map flat_map]. unfold ret. rewrite <- app_assoc. reflexivity.
Qed.

Lemma flat_map_guard {A B} (p : A -> bool) (e : A -> list B) (l : list A) :
  flat_map (fun a => if p a then e a else []) l = flat_map e (filter p l).
Proof.
  induction l as [|a l IH]; simpl; [reflexivity|].
  destruct (p a); simpl; rewrite IH; reflexivity.
Qed.

Lemma flat_map_singleton {A B} (g : A -> B) (l : list A) :
  flat_map (fun a => [g a]) l = map g l.
Proof. induction l as [|a l IH]; simpl; [reflexivity | rewrite IH; reflexivity]. Qed.

Lemma flat_map_map_arg {A B C} (h : A -> B) (e : B -> list C) (l : list A) :
  flat_map e (map h l) = flat_map (fun a => e (h a)) l.
Proof. induction l as [|a l IH]; simpl; [reflexivity | rewrite IH; reflexivity]. Qed.



(** ** One thread of the vectorized kernel *)

Lemma slots_are_owned (nt vt N b t : Z) :
  0 < nt -> 0 < vt -> 0 <= b -> 0 <= t < nt -> nt * vt * (b + 1) <= 2 ^ 31 ->
  map (fun i => thread_base nt vt b t + to_int32 (i * nt))
      (filter (fun i => slot_index nt (thread_base nt vt b t) i <? N) (zseq vt))
  = owned nt vt N b t.
Proof.
  intros nt_pos vt_pos Hb Ht Hf.
  assert (P31 : 2 ^ 31 = 2147483648) by reflexivity.
  assert (Hnv : 0 <= nt * vt * b) by nia.
  assert (Hlast : nt * vt * b + t + (vt - 1) * nt < 2 ^ 31) by nia.
  assert (Eb : thread_base nt vt b t = nt * vt * b + t).
  { unfold thread_base. rewrite thread_base_exact. apply to_int32_small. nia. }
  unfold owned. fold (thread_base nt vt b t). rewrite Eb.
  rewrite owned_loop_candidates; [| lia | lia | rewrite Z2Nat.id by lia; lia].
  rewrite candidates_map.
  replace (map (fun i => nt * vt * b + t + Z.of_nat i * nt) (seq 0 (Z.to_nat vt)))
    with (map (fun i => nt * vt * b + t + i * nt) (zseq vt))
    by (unfold zseq; rewrite map_map; reflexivity).
  rewrite filter_map_comm.
  assert (Hi : forall i, In i (zseq vt) ->
             to_int32 (i * nt) = i * nt
             /\ slot_index nt (nt * vt * b + t) i = nt * vt * b + t + i * nt).
  { intros i Hi. apply In_zseq in Hi. unfold slot_index.
    assert (0 <= i * nt < 2 ^ 31) by nia.
    rewrite (Z.mul_comm nt i), !to_int32_small by nia. split; reflexivity. }
  rewrite (filter_ext_in _ (fun i => nt * vt * b + t + i * nt <? N))
    by (intros i Hin; rewrite (proj2 (Hi i Hin)); reflexivity).
  apply map_ext_in. intros i Hin. apply filter_In in Hin. destruct Hin as [Hin _].
  rewrite (proj1 (Hi i Hin)). reflexivity.
Qed.

(** What one thread of the vectorized kernel does to the state: it returns,
    leaves the stream alone, and its accesses are first the reads of all
    arguments of all its in-range slots, then the writes of their results. *)
Lemma modern_thread_run (nt vt N : Z) (f : func_t) (data : list Z) (b t : Z) (s : State) :
  let idx := thread_base nt vt b t in
  let slots := filter (fun i => slot_index nt idx i <? N) (zseq vt) in
  let rd := fun i =>
    map (fun j => Rd (nth (S j) data 0 + idx * elementSize (modern.arg_type f)
                      + to_int32 (i * nt) * elementSize (modern.arg_type f))
                     (modern.arg_type f))
        (seq 0 (arity f)) in
  let wr := fun i =>
    Wr (nth 0%nat data 0 + idx * elementSize (result_type f)
        + to_int32 (i * nt) * elementSize (result_type f)) (result_type f) in
  exists m',
    modern.elementwise_kernel nt vt N f data b t s
    = (Some tt, mkState m' (trace s ++ flat_map rd slots ++ map wr slots) (stream s)).
Proof.
  intros idx slots rd wr. unfold modern.elementwise_kernel.
  fold (thread_base nt vt b t). fold idx.
  set (args_base := map (fun i => nth (i + 1) data 0 + idx * elementSize (modern.arg_type f))
                        (seq 0 (arity f))).
  unfold bind.
  rewrite (map_m_run (zseq vt) _
             (fun i m => if to_int32 (idx + to_int32 (nt * i)) <? N
                         then map (fun j => load (modern.arg_type f) m
                                              (nth j args_base 0
                                               + to_int32 (i * nt) * elementSize (modern.arg_type f)))
                                  (seq 0 (arity f))
                         else repeat 0 (arity f))
             (fun i => if slot_index nt idx i <? N then rd i else [])).
  - rewrite (for_each_run _ _
               (fun ir m => if to_int32 (idx + to_int32 (nt * fst ir)) <? N
                            then store (result_type f) m
                                   (nth 0%nat data 0 + idx * elementSize (result_type f)
                                    + to_int32 (fst ir * nt) * elementSize (result_type f))
                                   (snd ir)
                            else m)
               (fun ir => if slot_index nt idx (fst ir) <? N then [wr (fst ir)] else [])).
    + cbn [mem trace stream]. eexists. f_equal. f_equal.
      rewrite <- app_assoc. f_equal. f_equal.
      * apply flat_map_guard.
      * rewrite combine_map_self, map_map, combine_map_self.
        rewrite (flat_map_map_arg _ (fun ir : Z * Z =>
                   if slot_index nt idx (fst ir) <? N then [wr (fst ir)] else [])).
        cbn [fst]. rewrite (flat_map_guard (fun i => slot_index nt idx i <? N)
                              (fun i => [wr i])).
        apply flat_map_singleton.
    + intros [i r] s' _. cbn [fst snd]. unfold slot_index.
      destruct (to_int32 (idx + to_int32 (nt * i)) <? N).
      * reflexivity.
      * unfold ret. rewrite app_nil_r. destruct s'; reflexivity.
  - intros i s' _. unfold slot_index.
    destruct (to_int32 (idx + to_int32 (nt * i)) <? N).
    + rewrite (map_m_reads _ _
                 (fun j m => load (modern.arg_type f) m
                               (nth j args_base 0
                                + to_int32 (i * nt) * elementSize (modern.arg_type f)))
                 (fun j => Rd (nth j args_base 0
                               + to_int32 (i * nt) * elementSize (modern.arg_type f))
                              (modern.arg_type f)))
        by (intros j s''; reflexivity).
      f_equal. f_equal. f_equal. unfold rd. apply map_seq_ext. intros j Hj.
      unfold args_base. rewrite nth_map_seq by exact Hj. rewrite Nat.add_1_r. reflexivity.
    + unfold ret. rewrite app_nil_r. destruct s'; reflexivity.
Qed.

Lemma for_each_trace {A} (l : list A) (body : A -> M unit) (e : A -> list Access) :
  (forall a s, In a l ->
     exists m', body a s = (Some tt, mkState m' (trace s ++ e a) (stream s))) ->
  forall s, exists m',
    for_each l body s = (Some tt, mkState m' (trace s ++ flat_map e l) (stream s)).
Proof.
  induction l as [|a l IH]; intros H s.
  - exists (mem s). simpl. unfold ret. rewrite app_nil_r. destruct s; reflexivity.
  - destruct (H a s (or_introl eq_refl)) as (m1 & E1).
    destruct (IH (fun a' s' Ha' => H a' s' (or_intror Ha'))
                 (mkState m1 (trace s ++ e a) (stream s))) as (m2 & E2).
    exists m2. cbn [for_each]. unfold bind. rewrite E1, E2.
    cbn [mem trace stream flat_map]. rewrite <- app_assoc. reflexivity.
Qed.

Lemma flat_map_ext_on {A B} (g h : A -> list B) (l : list A) :
  (forall a, In a l -> g a = h a) -> flat_map g l = flat_map h l.
Proof.
  induction l as [|a l IH]; intros H; simpl; [reflexivity|].
  rewrite (H a) by (left; reflexivity). rewrite IH; [reflexivity|].
  intros a' Ha'. apply H. right. exact Ha'.
Qed.

Lemma modern_thread_owned (nt vt N : Z) (f : func_t) (data : list Z)
    (b t : Z) (s : State) :
  0 < nt -> 0 < vt -> 0 <= b -> 0 <= t < nt -> nt * vt * (b + 1) <= 2 ^ 31 ->
  exists m',
    modern.elementwise_kernel nt vt N f data b t s
    = (Some tt,
       mkState m'
         (trace s
          ++ flat_map (fun e =>
               map (fun j => Rd (nth (S j) data 0 + e * elementSize (modern.arg_type f))
                                (modern.arg_type f))
                   (seq 0 (arity f)))
               (owned nt vt N b t)
          ++ map (fun e => Wr (nth 0%nat data 0 + e * elementSize (result_type f))
                              (result_type f))
                 (owned nt vt N b t))
         (stream s)).
Proof.
  intros Hnt Hvt Hb Ht Hf.
  destruct (modern_thread_run nt vt N f data b t s) as (m' & E).
  exists m'. rewrite E. f_equal. f_equal. f_equal.
  rewrite <- (slots_are_owned nt vt N b t) by assumption.
  rewrite flat_map_map_arg, map_map. f_equal.
  - apply flat_map_ext_on. intros i _. apply map_ext. intros j. f_equal. lia.
  - apply map_ext. intros i. f_equal. lia.
Qed.

(** X7. One thread of either kernel, access by access. The vectorized kernel
    reads the arguments of all the elements the thread owns before it writes
    the first result, and reads every argument as the type of the first one,
    at a stride of that type's size. The strided kernel handles its elements
    one after another: the reads of an element, then its write. The reads of
    one element are the operands of a single call, and in which order they
    are made is left open. *)
Theorem thread_access_order (nt vt N : Z) (f : func_t) (data strides : list Z)
    (b t : Z) (s : State) :
  0 < nt -> 0 < vt -> 0 <= b -> 0 <= t < nt -> nt * vt * (b + 1) <= 2 ^ 31 ->
  let own := owned nt vt N b t in
  let reads := fun e =>
    map (fun j => Rd (nth (S j) data 0 + e * elementSize (modern.arg_type f))
                     (modern.arg_type f))
        (seq 0 (arity f)) in
  let write := fun e =>
    Wr (nth 0%nat data 0 + e * elementSize (result_type f)) (result_type f) in
  (exists m',
     modern.elementwise_kernel nt vt N f data b t s
     = (Some tt, mkState m' (trace s ++ flat_map reads own ++ map write own) (stream s)))
  /\ (exists m' rs,
        Forall2 (fun e r =>
                   Permutation r
                     (read_events (static_types f)
                        (cell_1d data strides e (S (arity f))) (arity f)))
                own rs
        /\ legacy.elementwise_kernel nt vt N (lambda_1d f data strides) b t s
           = (Some tt,
              mkState m'
                (trace s
                 ++ flat_map
                      (fun er =>
                         snd er
                         ++ [Wr (nth 0%nat (cell_1d data strides (fst er) (S (arity f))) 0)
                                (result_type f)])
                      (combine own rs))
                (stream s))).
Proof.
  intros Hnt Hvt Hb Ht Hf own reads write. split.
  - apply modern_thread_owned; assumption.
  - rewrite legacy_kernel_owned. fold own.
    destruct (for_each_trace own (lambda_1d f data strides)
                (fun e => read_events (static_types f)
                            (cell_1d data strides e (S (arity f))) (arity f)
                          ++ [Wr (nth 0%nat (cell_1d data strides e (S (arity f))) 0)
                                 (result_type f)])
                (fun e s' _ => ex_intro _ _ (lambda_1d_run f data strides e s')) s)
      as (m' & E).
    exists m', (map (fun e => read_events (static_types f)
                                (cell_1d data strides e (S (arity f))) (arity f)) own).
    split.
    + clear E. induction own as [|e own' IH]; constructor;
        [apply Permutation_refl | exact IH].
    + rewrite E, combine_map_self, flat_map_map_arg. reflexivity.
Qed.

Lemma thread_access_order_witness :
  let f := mkFunc [Int; Int] Int (fun xs => nth 0%nat xs 0 + nth 1%nat xs 0) in
  let s := mkState (fun a => a mod 7) [] [] in
  (exists m',
     modern.elementwise_kernel 2 2 3 f [256; 512; 768] 0 0 s
     = (Some tt,
        mkState m' [Rd 512 Int; Rd 768 Int; Rd 520 Int; Rd 776 Int; Wr 256 Int; Wr 264 Int] []))
  /\ (exists m' rs,
        Forall2 (fun e r => Permutation r [Rd (512 + 8 * e) Int; Rd (768 + 8 * e) Int])
                [0; 2] rs
        /\ legacy.elementwise_kernel 2 2 3 (lambda_1d f [256; 512; 768] [8; 8; 8]) 0 0 s
           = (Some tt,
              mkState m'
                (flat_map (fun er => snd er ++ [Wr (256 + 8 * fst er) Int])
                          (combine [0; 2] rs))
                [])).
Proof.
  intros f s.
  assert (H1 : 0 < 2) by lia.
  assert (H2 : 0 <= 0) by lia.
  assert (H3 : 0 <= 0 < 2) by lia.
  assert (H4 : 2 * 2 * (0 + 1) <= 2 ^ 31) by (vm_compute; discriminate).
  destruct (thread_access_order 2 2 3 f [256; 512; 768] [8; 8; 8] 0 0 s H1 H1 H2 H3 H4)
    as [Hm (m' & rs & HF & HE)].
  split; [exact Hm|].
  exists m', rs. split.
  - inversion HF as [|e0 r0 l0 rs0 P0 HF0]; subst.
    inversion HF0 as [|e1 r1 l1 rs1 P1 HF1]; subst.
    inversion HF1; subst.
    constructor; [exact P0|]. constructor; [exact P1|]. constructor.
  - inversion HF as [|e0 r0 l0 rs0 P0 HF0]; subst.
    inversion HF0 as [|e1 r1 l1 rs1 P1 HF1]; subst.
    inversion HF1; subst. exact HE.
Defined.

(** ** The accesses and the launch of one dispatch *)

Lemma legacy_launch_trace (sched : Schedule) (nt vt N : Z) (lam : Z -> M unit)
    (e : Z -> list Access) (s : State) :
  0 < nt -> 0 < vt -> nt * vt < 2 ^ 32 -> 0 < N <= INT32_MAX ->
  (forall idx s', exists m',
      lam idx s' = (Some tt, mkState m' (trace s' ++ e idx) (stream s'))) ->
  exists m',
    legacy.launch_kernel sched nt vt N lam s
    = (Some tt,
       mkState m'
         (trace s ++ flat_map e (flat_map (fun bt => owned nt vt N (fst bt) (snd bt))
                                          (sched (grid_of nt vt N) nt)))
         (stream s ++ [mkLaunch (grid_of nt vt N) nt N])).
Proof.
  intros Hnt Hvt Hnv HN Hlam. rewrite legacy_launch_unfold by assumption.
  unfold bind, enqueue.
  destruct (for_each_trace
              (flat_map (fun bt => owned nt vt N (fst bt) (snd bt))
                        (sched (grid_of nt vt N) nt)) lam e
              (fun a s' _ => Hlam a s')
              (mkState (mem s) (trace s) (stream s ++ [mkLaunch (grid_of nt vt N) nt N])))
    as (m' & E).
  exists m'. exact E.
Qed.



Lemma for_each_stream {A} (l : list A) (body : A -> M unit) :
  (forall a s, stream (snd (body a s)) = stream s) ->
  forall s, stream (snd (for_each l body s)) = stream s.
Proof.
  intros H. induction l as [|a l IH]; intros s; [reflexivity|].
  cbn [for_each]. unfold bind. specialize (H a s).
  destruct (body a s) as [[[]|] s1]; cbn [snd] in *; [rewrite IH|]; exact H.
Qed.

Lemma legacy_launch_stream (sched : Schedule) (nt vt N : Z) (lam : Z -> M unit)
    (s : State) :
  0 < nt -> 0 < vt -> nt * vt < 2 ^ 32 -> 0 < N <= INT32_MAX ->
  (forall idx s', stream (snd (lam idx s')) = stream s') ->
  stream (snd (legacy.launch_kernel sched nt vt N lam s))
  = stream s ++ [mkLaunch (grid_of nt vt N) nt N].
Proof.
  intros Hnt Hvt Hnv HN Hlam. rewrite legacy_launch_unfold by assumption.
  unfold bind, enqueue. rewrite for_each_stream by exact Hlam. reflexivity.
Qed.

Lemma modern_launch_stream (sched : Schedule) (nt vt N : Z) (f : func_t)
    (data : list Z) (s : State) :
  0 < nt -> 0 < vt -> nt * vt < 2 ^ 32 -> 0 < N <= INT32_MAX ->
  stream (snd (modern.launch_kernel sched nt vt N f data s))
  = stream s ++ [mkLaunch (grid_of nt vt N) nt N].
Proof.
  intros Hnt Hvt Hnv HN. unfold modern.launch_kernel.
  assert (A : (0 <=? N) && (N <=? INT32_MAX) = true).
  { apply andb_true_intro. split; apply Z.leb_le; lia. }
  rewrite A. unfold bind at 1, assert at 1.
  destruct (Z.eqb_spec N 0) as [E|_]; [lia|].
  rewrite grid_value by assumption.
  unfold run_grid, bind at 1, enqueue. rewrite for_each_stream; [reflexivity|].
  intros [b t] s'. cbn [fst snd].
  destruct (modern_thread_run nt vt (to_int32 N) f data b t s') as (m' & E).
  rewrite E. reflexivity.
Qed.

(** X8. Every dispatch of a non-empty iterator within the index range
    enqueues exactly one kernel: blocks of 64 threads with 4 elements each
    on the vectorized path, of 512 threads with 1 element each on the other
    one-dimensional paths, of 128 threads with 4 elements each on the
    multi-dimensional paths; and the grid is the least number of such blocks
    that covers the element count. *)
Theorem gpu_kernel_impl_launch_configuration (sched : Schedule)
    (it : TensorIterator) (f : func_t) (s : State) :
  0 < numel it <= INT32_MAX -> ntensors it = S (arity f) ->
  let nt := fst (launch_config it) in
  let vt := snd (launch_config it) in
  let grid := grid_of nt vt (numel it) in
  stream (snd (gpu_kernel_impl sched it f s)) = stream s ++ [mkLaunch grid nt (numel it)]
  /\ (grid - 1) * (nt * vt) < numel it <= grid * (nt * vt).
Proof.
  intros HN Hn nt vt grid.
  assert (Hfit : can_use_32bit_indexing it = true).
  { unfold can_use_32bit_indexing. apply Z.leb_le. lia. }
  assert (HL : length (map (data_ptr it) (seq 0 (S (arity f)))) = S (arity f))
    by (rewrite length_map, length_seq; reflexivity).
  assert (Hcfg : 0 < nt /\ 0 < vt /\ nt * vt < 2 ^ 32).
  { unfold nt, vt, launch_config.
    destruct (is_trivial_1d it); [destruct (needs_dynamic_casting it);
      [|destruct (has_contiguous_first_dim it)]|]; vm_compute; repeat split. }
  destruct Hcfg as (Hnt & Hvt & Hnv).
  split; [|apply grid_least; [assumption | assumption | lia]].
  rewrite gpu_kernel_impl_unfold by assumption.
  unfold grid, nt, vt, launch_config in *.
  destruct (is_trivial_1d it).
  - destruct (needs_dynamic_casting it).
    + cbn [fst snd] in *. apply legacy_launch_stream; try assumption.
      intros idx s'. rewrite lambda_1d_cast_run. reflexivity.
    + destruct (has_contiguous_first_dim it); cbn [fst snd] in *.
      * apply modern_launch_stream; assumption.
      * apply legacy_launch_stream; try assumption.
        intros idx s'. rewrite lambda_1d_run. reflexivity.
  - cbn [fst snd] in *. destruct (needs_dynamic_casting it).
    + apply legacy_launch_stream; try assumption.
      intros idx s'. rewrite lambda_nd_cast_run by exact HL. reflexivity.
    + apply legacy_launch_stream; try assumption.
      intros idx s'. rewrite lambda_nd_run by exact HL. reflexivity.
Qed.

Lemma gpu_kernel_impl_launch_configuration_witness :
  let it := mkIter [1000]
              [mkOperand 0 [4] Int true; mkOperand 4096 [4] Int true] false in
  let f := mkFunc [Int] Int (fun xs => nth 0%nat xs 0 + 1) in
  let s := mkState (fun a => a mod 7) [] [] in
  launch_config it = (64, 4)
  /\ stream (snd (gpu_kernel_impl threads it f s)) = [mkLaunch 4 64 1000].
Proof.
  intros it f s. split; [reflexivity|].
  assert (HN : 0 < numel it <= INT32_MAX) by (vm_compute; split; [reflexivity | discriminate]).
  exact (proj1 (gpu_kernel_impl_launch_configuration threads it f s HN eq_refl)).
Defined.

Lemma legacy_path_accesses (sched : Schedule) (it : TensorIterator) (f : func_t)
    (nt vt q : Z) (lam : Z -> M unit) (dts : list ScalarType) (c : Z -> list Z)
    (s : State) :
  fair sched -> well_formed it = true -> can_use_32bit_indexing it = true ->
  0 < nt -> 0 < vt -> 2 ^ 31 = nt * vt * q ->
  (forall idx s', exists m',
      lam idx s' = (Some tt, mkState m' (trace s' ++ cell_events dts (c idx) (arity f))
                                     (stream s'))) ->
  (forall idx, 0 <= idx < numel it -> c idx = cell it idx) ->
  exists tr,
    trace (snd (legacy.launch_kernel sched nt vt (numel it) lam s)) = trace s ++ tr
    /\ Permutation tr (flat_map (fun idx => cell_events dts (cell it idx) (arity f))
                                (zseq (numel it))).
Proof.
  intros Hfair Hwf Hfit Hnt Hvt Hq Hlam Hc.
  pose proof (numel_pos it Hwf) as Np. pose proof (fits_numel it Hfit) as Nm.
  assert (P31 : 2 ^ 31 = 2147483648) by reflexivity.
  assert (P32 : 2 ^ 32 = 4294967296) by reflexivity.
  assert (Hf : nt * vt * grid_of nt vt (numel it) <= 2 ^ 31).
  { apply (grid_fits nt vt (numel it) q); try assumption. lia. }
  assert (Hq0 : 0 < q) by nia.
  assert (Hnv : nt * vt < 2 ^ 32) by nia.
  destruct (legacy_launch_trace sched nt vt (numel it) lam
              (fun idx => cell_events dts (c idx) (arity f)) s Hnt Hvt Hnv (conj Np Nm) Hlam)
    as (m' & E).
  rewrite E. cbn [snd trace]. eexists. split; [reflexivity|].
  set (L := flat_map (fun bt => owned nt vt (numel it) (fst bt) (snd bt))
                     (sched (grid_of nt vt (numel it)) nt)).
  assert (HL : Permutation L (zseq (numel it))).
  { unfold L. eapply Permutation_trans.
    - apply Permutation_flat_map. apply Hfair.
    - apply owned_partition; try assumption. lia. }
  rewrite (flat_map_ext_on _ (fun idx => cell_events dts (cell it idx) (arity f)))
    by (intros idx Hin; rewrite Hc; [reflexivity|];
        apply In_zseq; apply (Permutation_in _ HL); exact Hin).
  apply Permutation_flat_map. exact HL.
Qed.




(** ** Jobs run one after another *)

Lemma sequential_jobs_gen (t : ScalarType) (out : Z -> Z) (val : Z -> memory -> Z)
    (m0 : memory) (all : list Z) :
  (forall i j, In i all -> In j all -> i <> j ->
     disjoint (out i) (elementSize t) (out j) (elementSize t)) ->
  (forall i m, In i all ->
     (forall x, (forall j, In j all -> j <> i ->
                   x < out j \/ out j + elementSize t <= x) -> m x = m0 x) ->
     val i m = val i m0) ->
  forall todo done m,
    NoDup (done ++ todo) -> (forall i, In i (done ++ todo) -> In i all) ->
    (forall i, In i done -> load t m (out i) = static_cast t (val i m0)) ->
    (forall x, (forall i, In i done -> x < out i \/ out i + elementSize t <= x) ->
               m x = m0 x) ->
    (forall i, In i (done ++ todo) ->
       load t (fold_left (fun m' i' => store t m' (out i') (val i' m')) todo m) (out i)
       = static_cast t (val i m0))
    /\ (forall x, (forall i, In i (done ++ todo) ->
                     x < out i \/ out i + elementSize t <= x) ->
          fold_left (fun m' i' => store t m' (out i') (val i' m')) todo m x = m0 x).
Proof.
  intros Hdis Hloc. induction todo as [|a todo IH]; intros done m ND Hall Ha Hb.
  - rewrite app_nil_r in *. simpl. split; assumption.
  - cbn [fold_left].
    assert (Hain : In a all) by (apply Hall; apply in_or_app; right; left; reflexivity).
    assert (Hnd : ~ In a done).
    { intros Hin. apply (NoDup_app_disjoint done (a :: todo) a ND Hin). left. reflexivity. }
    assert (Hv : val a m = val a m0).
    { apply Hloc; [exact Hain|]. intros x Hx. apply Hb. intros i Hi.
      apply Hx; [apply Hall; apply in_or_app; left; exact Hi|].
      intros ->. contradiction. }
    rewrite Hv.
    assert (E : done ++ a :: todo = (done ++ [a]) ++ todo)
      by (rewrite <- app_assoc; reflexivity).
    rewrite E in *. apply IH; [exact ND | exact Hall | |].
    + intros i Hi. apply in_app_or in Hi. destruct Hi as [Hi|[<-|[]]].
      * rewrite (load_ext _ _ m); [apply Ha; exact Hi|].
        intros x Hx. apply store_out.
        assert (Hne : i <> a) by (intros ->; contradiction).
        specialize (Hdis i a (Hall i (in_or_app _ _ _ (or_introl (in_or_app _ _ _ (or_introl Hi)))))
                      Hain Hne).
        unfold disjoint in Hdis. lia.
      * apply load_store_same.
    + intros x Hx. rewrite store_out by (apply Hx; apply in_or_app; right; left; reflexivity).
      apply Hb. intros i Hi. apply Hx. apply in_or_app. left. exact Hi.
Qed.

Lemma sequential_jobs (t : ScalarType) (out : Z -> Z) (val : Z -> memory -> Z)
    (m0 : memory) (L : list Z) :
  NoDup L ->
  (forall i j, In i L -> In j L -> i <> j ->
     disjoint (out i) (elementSize t) (out j) (elementSize t)) ->
  (forall i m, In i L ->
     (forall x, (forall j, In j L -> j <> i ->
                   x < out j \/ out j + elementSize t <= x) -> m x = m0 x) ->
     val i m = val i m0) ->
  (forall i, In i L ->
     load t (fold_left (fun m' i' => store t m' (out i') (val i' m')) L m0) (out i)
     = static_cast t (val i m0))
  /\ (forall x, (forall i, In i L -> x < out i \/ out i + elementSize t <= x) ->
        fold_left (fun m' i' => store t m' (out i') (val i' m')) L m0 x = m0 x).
Proof.
  intros ND Hdis Hloc.
  apply (sequential_jobs_gen t out val m0 L Hdis Hloc L [] m0); simpl;
    [exact ND | tauto | contradiction | reflexivity].
Qed.

(** ** The adapters with an index argument *)

Lemma length_removelast_pred {A} (l : list A) :
  length (removelast l) = (length l - 1)%nat.
Proof.
  induction l as [|a l IH]; [reflexivity|].
  destruct l as [|b l]; [reflexivity|].
  change (removelast (a :: b :: l)) with (a :: removelast (b :: l)).
  cbn [length] in *. rewrite IH. lia.
Qed.

Lemma nth_removelast {A} (l : list A) (d : A) : forall I,
  (I < length l - 1)%nat -> nth I (removelast l) d = nth I l d.
Proof.
  induction l as [|a l IH]; intros I HI; [reflexivity|].
  destruct l as [|b l]; [simpl in HI; lia|].
  change (removelast (a :: b :: l)) with (a :: removelast (b :: l)).
  destruct I as [|I]; [reflexivity|]. cbn [nth]. apply IH. cbn [length] in *. lia.
Qed.

Lemma arity_bind_index (f : func_t) (idx : Z) :
  arity (bind_index f idx) = (arity f - 1)%nat.
Proof. unfold arity, bind_index. cbn [arg_types]. apply length_removelast_pred. Qed.

Lemma arg_bind_index (f : func_t) (idx : Z) (I : nat) :
  (I < arity f - 1)%nat -> arg (bind_index f idx) I = arg f I.
Proof. intros H. unfold arg, bind_index. cbn [arg_types]. apply nth_removelast. exact H. Qed.

Lemma map_m_ext {A B} (l : list A) (b1 b2 : A -> M B) :
  (forall a s, In a l -> b1 a s = b2 a s) ->
  forall s, map_m l b1 s = map_m l b2 s.
Proof.
  induction l as [|a l IH]; intros H s; [reflexivity|].
  cbn [map_m]. unfold bind. rewrite (H a s) by (left; reflexivity).
  destruct (b2 a s) as [[b|] s1]; [|reflexivity].
  rewrite IH by (intros a' s' Ha'; apply H; right; exact Ha'). reflexivity.
Qed.

(** Calling [f] through [invoke_with_index] is calling the closure over the
    index through [invoke]: the index is not read from memory. *)
Lemma invoke_with_index_bind (ix : index_t) (f : func_t) (data strides : list Z)
    (i idx : Z) (s : State) :
  legacy.invoke_with_index ix f data strides i idx s
  = legacy.invoke ix (bind_index f idx) data strides i s.
Proof.
  unfold legacy.invoke_with_index, legacy.invoke. rewrite arity_bind_index.
  unfold bind.
  rewrite (map_m_ext _ _ (fun I => load_m (arg (bind_index f idx) I)
                                     (nth I data 0 + index_wrap ix (i * nth I strides 0))))
    by (intros I s' HI; apply in_seq in HI; rewrite arg_bind_index by lia; reflexivity).
  reflexivity.
Qed.

Lemma invoke_with_index_cast_bind (ix : index_t) (f : func_t) (data strides : list Z)
    (dts : list ScalarType) (i idx : Z) (s : State) :
  legacy.invoke_with_index_cast ix f data strides dts i idx s
  = legacy.invoke_cast ix (bind_index f idx) data strides dts i s.
Proof.
  unfold legacy.invoke_with_index_cast, legacy.invoke_cast. rewrite arity_bind_index.
  unfold bind.
  rewrite (map_m_ext _ _ (fun I => fetch_and_cast (arg (bind_index f idx) I) (nth I dts Byte)
                                     (nth I data 0 + index_wrap ix (i * nth I strides 0))))
    by (intros I s' HI; apply in_seq in HI; rewrite arg_bind_index by lia; reflexivity).
  reflexivity.
Qed.

(** ** One launch of an index-augmented lambda *)

Lemma indexed_launch (sched : Schedule) (it : TensorIterator) (f : func_t)
    (nt vt q : Z) (lam : Z -> M unit) (dts : list ScalarType) (c : Z -> list Z)
    (s : State) :
  fair sched -> well_formed it = true -> can_use_32bit_indexing it = true ->
  (0 < arity f)%nat -> ntensors it = arity f ->
  0 < nt -> 0 < vt -> 2 ^ 31 = nt * vt * q ->
  (forall idx, transforms (lam idx)
                 (fun m => write_cell (bind_index f idx) dts m m (c idx))) ->
  (forall idx, 0 <= idx < numel it -> c idx = cell it idx) ->
  dts = dtypes it ->
  positions_independent it ->
  fst (legacy.launch_kernel sched nt vt (numel it) lam s) = Some tt
  /\ (forall idx, 0 <= idx < numel it ->
        load (dtype it 0) (mem (snd (legacy.launch_kernel sched nt vt (numel it) lam s)))
             (operand_addr it 0 idx)
        = cell_value (bind_index f idx) (dtypes it) (cell it idx) (mem s))
  /\ (forall x,
        (forall idx, 0 <= idx < numel it ->
           x < operand_addr it 0 idx
           \/ operand_addr it 0 idx + elementSize (dtype it 0) <= x) ->
        mem (snd (legacy.launch_kernel sched nt vt (numel it) lam s)) x = mem s x).
Proof.
  intros Hfair Hwf Hfit Hpos Hn Hnt Hvt Hq Hlam Hc -> Hind.
  pose proof (numel_pos it Hwf) as Np. pose proof (fits_numel it Hfit) as Nm.
  assert (P31 : 2 ^ 31 = 2147483648) by reflexivity.
  assert (P32 : 2 ^ 32 = 4294967296) by reflexivity.
  assert (Hf : nt * vt * grid_of nt vt (numel it) <= 2 ^ 31).
  { apply (grid_fits nt vt (numel it) q); try assumption. lia. }
  assert (Hq0 : 0 < q) by nia.
  assert (Hnv : nt * vt < 2 ^ 32) by nia.
  rewrite legacy_launch_unfold by (try assumption; lia).
  set (L := flat_map (fun bt => owned nt vt (numel it) (fst bt) (snd bt))
                     (sched (grid_of nt vt (numel it)) nt)).
  assert (HL : Permutation L (zseq (numel it))).
  { unfold L. eapply Permutation_trans.
    - apply Permutation_flat_map. apply Hfair.
    - apply owned_partition; try assumption. lia. }
  assert (HLin : forall i, In i L -> 0 <= i < numel it).
  { intros i Hi. apply In_zseq. apply (Permutation_in _ HL). exact Hi. }
  assert (HLall : forall i, 0 <= i < numel it -> In i L).
  { intros i Hi. apply (Permutation_in _ (Permutation_sym HL)). apply In_zseq. exact Hi. }
  unfold bind, enqueue.
  destruct (transforms_for_each L lam
              (fun idx m => write_cell (bind_index f idx) (dtypes it) m m (c idx))
              (fun idx _ => Hlam idx)
              (mkState (mem s) (trace s) (stream s ++ [mkLaunch (grid_of nt vt (numel it)) nt (numel it)])))
    as (F1 & F2 & _).
  split; [exact F1|]. rewrite F2. cbn [mem].
  rewrite (fold_left_ext_in _
             (fun m' i => store (dtype it 0) m' (operand_addr it 0 i)
                            (cell_value (bind_index f i) (dtypes it) (cell it i) m')))
    by (intros m' i Hi; unfold write_cell;
        rewrite (Hc i (HLin i Hi)), cell_nth, <- dtype_nth by lia; reflexivity).
  destruct (sequential_jobs (dtype it 0) (fun i => operand_addr it 0 i)
              (fun i m => cell_value (bind_index f i) (dtypes it) (cell it i) m)
              (mem s) L) as [R1 R2].
  - apply (Permutation_NoDup (Permutation_sym HL)). apply NoDup_zseq.
  - intros i j Hi Hj Hne. apply (Hind i j (HLin i Hi) (HLin j Hj) Hne 0%nat). lia.
  - intros i m Hi Hx. apply cell_value_ext. intros I x HI Hr.
    rewrite arity_bind_index in HI.
    rewrite cell_nth, <- dtype_nth in Hr by lia.
    apply Hx. intros j Hj Hne.
    assert (D := Hind i j (HLin i Hi) (HLin j Hj) (fun E => Hne (eq_sym E)) (S I)).
    unfold disjoint in D. lia.
  - split.
    + intros idx Hidx. rewrite (R1 idx (HLall idx Hidx)).
      unfold cell_value. rewrite <- dtype_nth. apply static_cast_idem.
    + intros x Hx. apply R2. intros i Hi. apply Hx. apply HLin. exact Hi.
Qed.

Lemma cell_value_bind_index (f : func_t) (it : TensorIterator) (idx : Z) (m : memory) :
  ntensors it = arity f ->
  cell_value (bind_index f idx) (dtypes it) (cell it idx) m
  = static_cast (dtype it 0)
      (call f (map (fun I => static_cast (arg f I)
                               (load (dtype it (S I)) m (operand_addr it (S I) idx)))
                   (seq 0 (arity f - 1))
               ++ [static_cast (arg f (arity f - 1)) idx])).
Proof.
  intros Hn. unfold cell_value. rewrite <- dtype_nth. f_equal.
  rewrite arity_bind_index. unfold call at 1. cbn [bind_index result_type body].
  unfold call. f_equal. f_equal. f_equal.
  apply map_seq_ext. intros I HI.
  rewrite arg_bind_index, <- dtype_nth, cell_nth by lia. reflexivity.
Qed.

(** A non-empty index-augmented dispatch within the index range is one
    launch of a device lambda that, at every index, is the lambda of the
    plain dispatch for the closure over that index. *)
Lemma gpu_kernel_with_index_unfold (sched : Schedule) (it : TensorIterator)
    (f : func_t) (s : State) :
  well_formed it = true -> can_use_32bit_indexing it = true ->
  ntensors it = arity f -> forallb op_is_cuda (operands it) = true ->
  gpu_kernel_with_index sched it f s
              = (if is_trivial_1d it then
                   if needs_dynamic_casting it then
                     legacy.launch_kernel sched launch_size_1d 1 (numel it)
                       (fun idx =>
                          lambda_1d_cast (bind_index f idx)
                            (map (data_ptr it) (seq 0 (arity f)))
                            (map (fun i => to_int32 (nth i (get_inner_strides it) 0))
                                 (seq 0 (arity f)))
                            (dtypes it) idx)
                   else
                     legacy.launch_kernel sched launch_size_1d 1 (numel it)
                       (fun idx =>
                          lambda_1d (bind_index f idx)
                            (map (data_ptr it) (seq 0 (arity f)))
                            (map (fun i => to_int32 (nth i (get_inner_strides it) 0))
                                 (seq 0 (arity f)))
                            idx)
                 else
                   if needs_dynamic_casting it then
                     legacy.launch_kernel sched launch_size_nd launch_bound2 (numel it)
                       (fun idx =>
                          lambda_nd_cast (bind_index f idx)
                            (map (data_ptr it) (seq 0 (arity f))) (dtypes it)
                            (mkOffsetCalculator (map to_uint32 (shape it))
                               (map (fun d => map (fun i => to_uint32 (nth d (strides it i) 0))
                                                  (seq 0 (arity f)))
                                    (seq 0 (ndim it))))
                            idx)
                   else
                     legacy.launch_kernel sched launch_size_nd launch_bound2 (numel it)
                       (fun idx =>
                          lambda_nd (bind_index f idx)
                            (map (data_ptr it) (seq 0 (arity f)))
                            (mkOffsetCalculator (map to_uint32 (shape it))
                               (map (fun d => map (fun i => to_uint32 (nth d (strides it i) 0))
                                                  (seq 0 (arity f)))
                                    (seq 0 (ndim it))))
                            idx)) s.
Proof.
  intros Hwf Hfit Hn Hcuda.
  unfold gpu_kernel_with_index, bind at 1. rewrite assert_all_cuda_run, Hcuda.
    pose proof (numel_pos it Hwf).
    destruct (Z.eqb_spec (numel it) 0); [lia|].
    rewrite Hfit. unfold bind at 1, assert at 1.
    unfold gpu_kernel_with_index_impl. rewrite Hn, Nat.eqb_refl.
    unfold bind at 1, assert at 1.
    rewrite (dtypes_array it (arity f) Hn).
    destruct (is_trivial_1d it).
    - destruct (needs_dynamic_casting it).
      + unfold legacy.launch_kernel, bind.
        destruct (assert ((0 <=? numel it) && (numel it <=? INT32_MAX)) s) as [[[]|] s1];
          [|reflexivity].
        destruct (numel it =? 0); [reflexivity|].
        unfold run_grid, bind. destruct (enqueue _ s1) as [[[]|] s2]; [|reflexivity].
        apply for_each_ext. intros bt s3 _. rewrite !legacy_kernel_owned.
        apply for_each_ext. intros idx s4 _.
        unfold lambda_1d_cast, bind. rewrite invoke_with_index_cast_bind. reflexivity.
      + unfold legacy.launch_kernel, bind.
        destruct (assert ((0 <=? numel it) && (numel it <=? INT32_MAX)) s) as [[[]|] s1];
          [|reflexivity].
        destruct (numel it =? 0); [reflexivity|].
        unfold run_grid, bind. destruct (enqueue _ s1) as [[[]|] s2]; [|reflexivity].
        apply for_each_ext. intros bt s3 _. rewrite !legacy_kernel_owned.
        apply for_each_ext. intros idx s4 _.
        unfold lambda_1d, bind. rewrite invoke_with_index_bind. reflexivity.
    - rewrite (bind_Some _ _ _ _ _ (make_offset_calculator_run it (arity f) s Hn)).
      destruct (needs_dynamic_casting it).
      + unfold legacy.launch_kernel, bind.
        destruct (assert ((0 <=? numel it) && (numel it <=? INT32_MAX)) s) as [[[]|] s1];
          [|reflexivity].
        destruct (numel it =? 0); [reflexivity|].
        unfold run_grid, bind. destruct (enqueue _ s1) as [[[]|] s2]; [|reflexivity].
        apply for_each_ext. intros bt s3 _. rewrite !legacy_kernel_owned.
        apply for_each_ext. intros idx s4 _.
        unfold lambda_nd_cast, bind. rewrite invoke_with_index_cast_bind.
        rewrite length_map, length_seq. reflexivity.
      + unfold legacy.launch_kernel, bind.
        destruct (assert ((0 <=? numel it) && (numel it <=? INT32_MAX)) s) as [[[]|] s1];
          [|reflexivity].
        destruct (numel it =? 0); [reflexivity|].
        unfold run_grid, bind. destruct (enqueue _ s1) as [[[]|] s2]; [|reflexivity].
        apply for_each_ext. intros bt s3 _. rewrite !legacy_kernel_owned.
        apply for_each_ext. intros idx s4 _.
        unfold lambda_nd, bind. rewrite invoke_with_index_bind.
        rewrite length_map, length_seq. reflexivity.
Qed.

(** X10. The index-augmented dispatch. On a non-empty iterator within the
    index range whose operand count is the arity of [f] (the inputs, plus
    the output, minus the index), every output element ends up holding [f]
    applied to the input elements of its position, as they were before the
    dispatch, and to the linear index of the position as last argument; and
    no byte outside the output elements changes. This holds on all four
    paths and for every order of the threads. *)
Theorem gpu_kernel_with_index_elements (sched : Schedule)
    (it : TensorIterator) (f : func_t) (s : State) :
  fair sched ->
  well_formed it = true ->
  can_use_32bit_indexing it = true ->
  (0 < arity f)%nat ->
  ntensors it = arity f ->
  forallb op_is_cuda (operands it) = true ->
  (needs_dynamic_casting it = false ->
     dtypes it = result_type f :: removelast (arg_types f)) ->
  positions_independent it ->
  fst (gpu_kernel_with_index sched it f s) = Some tt
  /\ (forall idx, 0 <= idx < numel it ->
        load (dtype it 0) (mem (snd (gpu_kernel_with_index sched it f s)))
             (operand_addr it 0 idx)
        = static_cast (dtype it 0)
            (call f (map (fun I => static_cast (arg f I)
                                     (load (dtype it (S I)) (mem s)
                                           (operand_addr it (S I) idx)))
                         (seq 0 (arity f - 1))
                     ++ [static_cast (arg f (arity f - 1)) idx])))
  /\ (forall x,
        (forall idx, 0 <= idx < numel it ->
           x < operand_addr it 0 idx
           \/ operand_addr it 0 idx + elementSize (dtype it 0) <= x) ->
        mem (snd (gpu_kernel_with_index sched it f s)) x = mem s x).
Proof.
  intros Hfair Hwf Hfit Hpos Hn Hcuda Hty Hind.
  rewrite gpu_kernel_with_index_unfold by assumption.
  assert (HS : forall idx, S (arity (bind_index f idx)) = arity f)
    by (intros idx; rewrite arity_bind_index; lia).
  assert (HLn : forall idx, length (map (data_ptr it) (seq 0 (arity f)))
                            = S (arity (bind_index f idx)))
    by (intros idx; rewrite length_map, length_seq, HS; reflexivity).
  assert (Hst : forall idx, static_types (bind_index f idx)
                            = result_type f :: removelast (arg_types f))
    by reflexivity.
  assert (G : forall l : option unit * State, (forall idx, 0 <= idx < numel it ->
                load (dtype it 0) (mem (snd l)) (operand_addr it 0 idx)
                = cell_value (bind_index f idx) (dtypes it) (cell it idx) (mem s)) ->
              forall idx, 0 <= idx < numel it ->
                load (dtype it 0) (mem (snd l)) (operand_addr it 0 idx)
                = static_cast (dtype it 0)
                    (call f (map (fun I => static_cast (arg f I)
                                             (load (dtype it (S I)) (mem s)
                                                   (operand_addr it (S I) idx)))
                                 (seq 0 (arity f - 1))
                             ++ [static_cast (arg f (arity f - 1)) idx]))).
  { intros l H idx Hidx. rewrite (H idx Hidx). apply cell_value_bind_index. exact Hn. }
  destruct (is_trivial_1d it) eqn:E1.
  - destruct (needs_dynamic_casting it) eqn:Ec.
    + destruct (indexed_launch sched it f launch_size_1d 1 4194304
                  (fun idx => lambda_1d_cast (bind_index f idx)
                     (map (data_ptr it) (seq 0 (arity f)))
                     (map (fun i => to_int32 (nth i (get_inner_strides it) 0))
                          (seq 0 (arity f))) (dtypes it) idx)
                  (dtypes it)
                  (fun idx => cell_1d (map (data_ptr it) (seq 0 (arity f)))
                     (map (fun i => to_int32 (nth i (get_inner_strides it) 0))
                          (seq 0 (arity f))) idx (arity f)) s)
        as (R1 & R2 & R3); try assumption; try reflexivity.
      * intros idx s'. rewrite lambda_1d_cast_run, HS. repeat split.
      * intros idx Hidx. apply cell_1d_exact; assumption.
      * split; [exact R1|]. split; [apply G; exact R2 | exact R3].
    + destruct (indexed_launch sched it f launch_size_1d 1 4194304
                  (fun idx => lambda_1d (bind_index f idx)
                     (map (data_ptr it) (seq 0 (arity f)))
                     (map (fun i => to_int32 (nth i (get_inner_strides it) 0))
                          (seq 0 (arity f))) idx)
                  (result_type f :: removelast (arg_types f))
                  (fun idx => cell_1d (map (data_ptr it) (seq 0 (arity f)))
                     (map (fun i => to_int32 (nth i (get_inner_strides it) 0))
                          (seq 0 (arity f))) idx (arity f)) s)
        as (R1 & R2 & R3); try assumption; try reflexivity.
      * intros idx s'. rewrite lambda_1d_run, HS, Hst. repeat split.
      * intros idx Hidx. apply cell_1d_exact; assumption.
      * symmetry. apply Hty. reflexivity.
      * split; [exact R1|]. split; [apply G; exact R2 | exact R3].
  - destruct (needs_dynamic_casting it) eqn:Ec.
    + destruct (indexed_launch sched it f launch_size_nd launch_bound2 4194304
                  (fun idx => lambda_nd_cast (bind_index f idx)
                     (map (data_ptr it) (seq 0 (arity f))) (dtypes it)
                     (mkOffsetCalculator (map to_uint32 (shape it))
                        (map (fun d => map (fun i => to_uint32 (nth d (strides it i) 0))
                                           (seq 0 (arity f)))
                             (seq 0 (ndim it)))) idx)
                  (dtypes it)
                  (fun idx => cell_nd (map (data_ptr it) (seq 0 (arity f)))
                     (mkOffsetCalculator (map to_uint32 (shape it))
                        (map (fun d => map (fun i => to_uint32 (nth d (strides it i) 0))
                                           (seq 0 (arity f)))
                             (seq 0 (ndim it)))) idx) s)
        as (R1 & R2 & R3); try assumption; try reflexivity.
      * intros idx s'. rewrite lambda_nd_cast_run by apply HLn. repeat split.
      * intros idx Hidx. apply cell_nd_exact; assumption.
      * split; [exact R1|]. split; [apply G; exact R2 | exact R3].
    + destruct (indexed_launch sched it f launch_size_nd launch_bound2 4194304
                  (fun idx => lambda_nd (bind_index f idx)
                     (map (data_ptr it) (seq 0 (arity f)))
                     (mkOffsetCalculator (map to_uint32 (shape it))
                        (map (fun d => map (fun i => to_uint32 (nth d (strides it i) 0))
                                           (seq 0 (arity f)))
                             (seq 0 (ndim it)))) idx)
                  (result_type f :: removelast (arg_types f))
                  (fun idx => cell_nd (map (data_ptr it) (seq 0 (arity f)))
                     (mkOffsetCalculator (map to_uint32 (shape it))
                        (map (fun d => map (fun i => to_uint32 (nth d (strides it i) 0))
                                           (seq 0 (arity f)))
                             (seq 0 (ndim it)))) idx) s)
        as (R1 & R2 & R3); try assumption; try reflexivity.
      * intros idx s'. rewrite lambda_nd_run by apply HLn. rewrite Hst. repeat split.
      * intros idx Hidx. apply cell_nd_exact; assumption.
      * symmetry. apply Hty. reflexivity.
      * split; [exact R1|]. split; [apply G; exact R2 | exact R3].
Qed.

Lemma positions_independentb_sound (it : TensorIterator) :
  positions_independentb it = true -> positions_independent it.
Proof.
  unfold positions_independentb. rewrite forallb_forall. intros H i j Hi Hj Hne k Hk.
  specialize (H i (proj2 (In_zseq _ _) Hi)). rewrite forallb_forall in H.
  specialize (H j (proj2 (In_zseq _ _) Hj)). apply orb_true_iff in H.
  destruct H as [H|H]; [apply Z.eqb_eq in H; contradiction|].
  rewrite forallb_forall in H. apply disjointb_spec. apply H. apply in_seq. lia.
Qed.

Lemma gpu_kernel_with_index_elements_witness :
  let it := mkIter [3]
              [mkOperand 256 [4] Int true; mkOperand 512 [4] Int true] false in
  let f := mkFunc [Int; Int] Int (fun xs => nth 0%nat xs 0 * 10 + nth 1%nat xs 0) in
  let s := mkState (fun a => a mod 7) [] [] in
  fst (gpu_kernel_with_index threads it f s) = Some tt
  /\ load Int (mem (snd (gpu_kernel_with_index threads it f s))) 260
     = static_cast Int (call f [static_cast Int (load Int (mem s) 516); static_cast Int 1]).
Proof.
  intros it f s.
  assert (Hfair : fair threads) by (intros g b; apply Permutation_refl).
  assert (Hpos : (0 < arity f)%nat) by (cbn; lia).
  destruct (gpu_kernel_with_index_elements threads it f s Hfair eq_refl eq_refl Hpos
              eq_refl eq_refl (fun _ => eq_refl)
              (positions_independentb_sound it eq_refl)) as (R1 & R2 & _).
  split; [exact R1|].
  assert (Hidx : 0 <= 1 < numel it) by (vm_compute; split; [discriminate | reflexivity]).
  exact (R2 1 Hidx).
Defined.

(** X11. The accesses of the index-augmented dispatch are, up to order, one
    read of each of the [arity - 1] input elements and one write of the
    output element for every logical position. The index passed as last
    argument costs no access: it is the thread's own linear index. *)
Theorem gpu_kernel_with_index_accesses (sched : Schedule)
    (it : TensorIterator) (f : func_t) (s : State) :
  fair sched ->
  well_formed it = true ->
  can_use_32bit_indexing it = true ->
  (0 < arity f)%nat ->
  ntensors it = arity f ->
  forallb op_is_cuda (operands it) = true ->
  (needs_dynamic_casting it = false ->
     dtypes it = result_type f :: removelast (arg_types f)) ->
  exists tr,
    trace (snd (gpu_kernel_with_index sched it f s)) = trace s ++ tr
    /\ Permutation tr
         (flat_map (fun idx => cell_events (dtypes it) (cell it idx) (arity f - 1))
                   (zseq (numel it))).
Proof.
  intros Hfair Hwf Hfit Hpos Hn Hcuda Hty.
  rewrite gpu_kernel_with_index_unfold by assumption.
  assert (HS : forall idx, S (arity (bind_index f idx)) = arity f)
    by (intros idx; rewrite arity_bind_index; lia).
  assert (HLn : forall idx, length (map (data_ptr it) (seq 0 (arity f)))
                            = S (arity (bind_index f idx)))
    by (intros idx; rewrite length_map, length_seq, HS; reflexivity).
  rewrite <- (arity_bind_index f 0).
  destruct (is_trivial_1d it) eqn:E1.
  - destruct (needs_dynamic_casting it) eqn:Ec.
    + apply (legacy_path_accesses sched it (bind_index f 0) launch_size_1d 1 4194304 _
               (dtypes it)
               (fun idx => cell_1d (map (data_ptr it) (seq 0 (arity f)))
                  (map (fun i => to_int32 (nth i (get_inner_strides it) 0))
                       (seq 0 (arity f))) idx (arity f)));
        try assumption; try reflexivity.
      * intros idx s'. eexists. rewrite lambda_1d_cast_run, HS.
        rewrite !arity_bind_index. reflexivity.
      * intros idx Hidx. apply cell_1d_exact; assumption.
    + rewrite (Hty eq_refl).
      apply (legacy_path_accesses sched it (bind_index f 0) launch_size_1d 1 4194304 _
               (result_type f :: removelast (arg_types f))
               (fun idx => cell_1d (map (data_ptr it) (seq 0 (arity f)))
                  (map (fun i => to_int32 (nth i (get_inner_strides it) 0))
                       (seq 0 (arity f))) idx (arity f)));
        try assumption; try reflexivity.
      * intros idx s'. eexists. rewrite lambda_1d_run, HS.
        rewrite !arity_bind_index. reflexivity.
      * intros idx Hidx. apply cell_1d_exact; assumption.
  - destruct (needs_dynamic_casting it) eqn:Ec.
    + apply (legacy_path_accesses sched it (bind_index f 0) launch_size_nd launch_bound2
               4194304 _ (dtypes it)
               (fun idx => cell_nd (map (data_ptr it) (seq 0 (arity f)))
                  (mkOffsetCalculator (map to_uint32 (shape it))
                     (map (fun d => map (fun i => to_uint32 (nth d (strides it i) 0))
                                        (seq 0 (arity f)))
                          (seq 0 (ndim it)))) idx));
        try assumption; try reflexivity.
      * intros idx s'. eexists. rewrite lambda_nd_cast_run by apply HLn.
        rewrite !arity_bind_index. reflexivity.
      * intros idx Hidx. apply cell_nd_exact; assumption.
    + rewrite (Hty eq_refl).
      apply (legacy_path_accesses sched it (bind_index f 0) launch_size_nd launch_bound2
               4194304 _ (result_type f :: removelast (arg_types f))
               (fun idx => cell_nd (map (data_ptr it) (seq 0 (arity f)))
                  (mkOffsetCalculator (map to_uint32 (shape it))
                     (map (fun d => map (fun i => to_uint32 (nth d (strides it i) 0))
                                        (seq 0 (arity f)))
                          (seq 0 (ndim it)))) idx));
        try assumption; try reflexivity.
      * intros idx s'. eexists. rewrite lambda_nd_run by apply HLn.
        rewrite !arity_bind_index. reflexivity.
      * intros idx Hidx. apply cell_nd_exact; assumption.
Qed.

Lemma gpu_kernel_with_index_accesses_witness :
  let it := mkIter [2]
              [mkOperand 256 [4] Int true; mkOperand 512 [8] Int true] false in
  let f := mkFunc [Int; Int] Int (fun xs => nth 0%nat xs 0 * 10 + nth 1%nat xs 0) in
  let s := mkState (fun a => a mod 7) [] [] in
  exists tr,
    trace (snd (gpu_kernel_with_index threads it f s)) = tr
    /\ Permutation tr [Rd 512 Int; Wr 256 Int; Rd 520 Int; Wr 260 Int].
Proof.
  intros it f s.
  assert (Hfair : fair threads) by (intros g b; apply Permutation_refl).
  assert (Hpos : (0 < arity f)%nat) by (cbn; lia).
  exact (gpu_kernel_with_index_accesses threads it f s Hfair eq_refl eq_refl Hpos
           eq_refl eq_refl (fun _ => eq_refl)).
Defined.

(** ** Casting when the stored types are the static types *)

(** X12. With the stored types equal to the static types of the function,
    the casting adapter and the casting lambdas are the non-casting ones:
    same result, same memory, same accesses. Dynamic casting only makes a
    difference where a stored type differs from the static type. *)
Theorem casting_with_static_types (f : func_t) (data strides : list Z)
    (oc : OffsetCalculator) (ix : index_t) (i idx : Z) (s : State) :
  legacy.invoke_cast ix f (tl data) (tl strides) (arg_types f) i s
  = legacy.invoke ix f (tl data) (tl strides) i s
  /\ lambda_1d_cast f data strides (static_types f) idx s = lambda_1d f data strides idx s
  /\ (length data = S (arity f) ->
      lambda_nd_cast f data (static_types f) oc idx s = lambda_nd f data oc idx s).
Proof.
  split; [|split].
  - change (arg_types f) with (tl (static_types f)).
    rewrite invoke_cast_run, invoke_run. f_equal. f_equal. f_equal.
    apply map_seq_ext. intros I HI. rewrite static_types_nth. apply static_cast_load.
  - rewrite lambda_1d_cast_run, lambda_1d_run. reflexivity.
  - intros HL. rewrite lambda_nd_cast_run, lambda_nd_run by exact HL. reflexivity.
Qed.

(** ** The offset calculator of an iterator *)

(** X13. [make_offset_calculator<N>] fails unless [N] is the operand count
    of the iterator; otherwise it returns, without touching the state, a
    calculator whose offsets (as section 4.1 of the specification defines
    [get]) are, for every operand and every linear index of a well-formed
    iterator within the index range, the exact byte offset of that position:
    the 32-bit arithmetic of the calculator never wraps there. *)
Theorem make_offset_calculator_offsets (it : TensorIterator) (n : nat) (s : State) :
  well_formed it = true -> can_use_32bit_indexing it = true ->
  (ntensors it = n ->
     exists oc,
       legacy.make_offset_calculator n it s = (Some oc, s)
       /\ forall k idx, (k < n)%nat -> 0 <= idx < numel it ->
            nth k (offset_get oc n idx) 0 = byte_offset (shape it) (strides it k) idx)
  /\ (ntensors it <> n -> legacy.make_offset_calculator n it s = (None, s)).
Proof.
  intros Hwf Hfit. split.
  - intros Hn. eexists. split; [apply make_offset_calculator_run; exact Hn|].
    intros k idx Hk Hidx. apply offset_get_exact; assumption.
  - intros Hn. unfold legacy.make_offset_calculator, bind, assert.
    destruct (Nat.eqb_spec n (ntensors it)) as [E|E]; [congruence | reflexivity].
Qed.

Lemma make_offset_calculator_offsets_witness :
  let it := mkIter [3; 2]
              [mkOperand 0 [4; 12] Int true; mkOperand 1024 [0; 2] Short true] false in
  let s := mkState (fun _ => 0) [] [] in
  exists oc,
    legacy.make_offset_calculator 2 it s = (Some oc, s)
    /\ offset_get oc 2 4 = [16; 2].
Proof.
  intros it s.
  destruct (make_offset_calculator_offsets it 2 s eq_refl eq_refl) as [H _].
  destruct (H eq_refl) as (oc & E & _).
  exists oc. split; [exact E|].
  rewrite (make_offset_calculator_run it 2 s eq_refl) in E. inversion E. reflexivity.
Defined.

(** ** Block size and unrolling factor are tuning knobs *)

Lemma legacy_path_in_range (sched : Schedule) (it : TensorIterator) (f : func_t)
    (nt vt q : Z) (lam : Z -> M unit) (dts : list ScalarType) (s : State) :
  fair sched -> well_formed it = true -> can_use_32bit_indexing it = true ->
  0 < nt -> 0 < vt -> 2 ^ 31 = nt * vt * q ->
  (forall idx, 0 <= idx < numel it ->
     transforms (lam idx) (fun m => write_cell f dts m m (cell it idx))) ->
  exists P,
    fst (legacy.launch_kernel sched nt vt (numel it) lam s) = Some tt
    /\ mem (snd (legacy.launch_kernel sched nt vt (numel it) lam s))
       = run_batches f dts P (mem s)
    /\ Permutation (concat P) (cells it).
Proof.
  intros Hfair Hwf Hfit Hnt Hvt Hq Hlam.
  pose proof (numel_pos it Hwf) as Np. pose proof (fits_numel it Hfit) as Nm.
  assert (P31 : 2 ^ 31 = 2147483648) by reflexivity.
  assert (P32 : 2 ^ 32 = 4294967296) by reflexivity.
  assert (Hf : nt * vt * grid_of nt vt (numel it) <= 2 ^ 31).
  { apply (grid_fits nt vt (numel it) q); try assumption. lia. }
  assert (Hq0 : 0 < q) by nia.
  assert (Hnv : nt * vt < 2 ^ 32) by nia.
  rewrite legacy_launch_unfold by (try assumption; lia).
  set (L := flat_map (fun bt => owned nt vt (numel it) (fst bt) (snd bt))
                     (sched (grid_of nt vt (numel it)) nt)).
  assert (HL : Permutation L (zseq (numel it))).
  { unfold L. eapply Permutation_trans.
    - apply Permutation_flat_map. apply Hfair.
    - apply owned_partition; try assumption. lia. }
  unfold bind, enqueue.
  destruct (transforms_for_each L lam
              (fun idx m => write_cell f dts m m (cell it idx))) with
      (s := mkState (mem s) (trace s)
                    (stream s ++ [mkLaunch (grid_of nt vt (numel it)) nt (numel it)]))
    as (F1 & F2 & _).
  { intros idx Hin. apply Hlam. apply In_zseq. apply (Permutation_in _ HL). exact Hin. }
  exists (map (fun idx => [cell it idx]) L). split; [exact F1|]. split.
  - rewrite F2. cbn [mem]. apply run_batches_singletons.
  - replace (concat (map (fun idx => [cell it idx]) L)) with (map (cell it) L)
      by (clear; induction L; simpl; [reflexivity | f_equal; assumption]).
    unfold cells. apply Permutation_map. exact HL.
Qed.

(** X14. The result of a strided launch depends neither on the block size,
    nor on the number of elements per thread, nor on the order in which the
    device runs the threads: for an element function that writes the output
    element of its position from the input elements of that position, any
    two launch geometries (powers of two that keep the index within [int])
    and any two schedules leave the same memory, provided distinct positions
    do not interfere. *)
Theorem strided_launch_geometry_irrelevant (sched1 sched2 : Schedule)
    (it : TensorIterator) (f : func_t) (lam : Z -> M unit)
    (nt1 vt1 q1 nt2 vt2 q2 : Z) (s : State) :
  fair sched1 -> fair sched2 ->
  well_formed it = true -> can_use_32bit_indexing it = true ->
  0 < nt1 -> 0 < vt1 -> 2 ^ 31 = nt1 * vt1 * q1 ->
  0 < nt2 -> 0 < vt2 -> 2 ^ 31 = nt2 * vt2 * q2 ->
  (forall idx, 0 <= idx < numel it ->
     transforms (lam idx) (fun m => write_cell f (dtypes it) m m (cell it idx))) ->
  no_interference f it ->
  fst (legacy.launch_kernel sched1 nt1 vt1 (numel it) lam s) = Some tt
  /\ fst (legacy.launch_kernel sched2 nt2 vt2 (numel it) lam s) = Some tt
  /\ forall x, mem (snd (legacy.launch_kernel sched1 nt1 vt1 (numel it) lam s)) x
               = mem (snd (legacy.launch_kernel sched2 nt2 vt2 (numel it) lam s)) x.
Proof.
  intros Hf1 Hf2 Hwf Hfit Hnt1 Hvt1 Hq1 Hnt2 Hvt2 Hq2 Hlam Hni.
  destruct (legacy_path_in_range sched1 it f nt1 vt1 q1 lam (dtypes it) s
              Hf1 Hwf Hfit Hnt1 Hvt1 Hq1 Hlam) as (P1 & F1 & F2 & F3).
  destruct (legacy_path_in_range sched2 it f nt2 vt2 q2 lam (dtypes it) s
              Hf2 Hwf Hfit Hnt2 Hvt2 Hq2 Hlam) as (P2 & G1 & G2 & G3).
  split; [exact F1|]. split; [exact G1|]. intros x. rewrite F2, G2.
  pose proof (independent_cells f it Hni) as Hind.
  rewrite (run_batches_pointwise f (dtypes it) (mem s) P1 (cells it) F3 Hind).
  rewrite (run_batches_pointwise f (dtypes it) (mem s) P2 (cells it) G3 Hind).
  reflexivity.
Qed.

Lemma strided_launch_geometry_irrelevant_witness :
  let it := mkIter [5]
              [mkOperand 256 [4] Int true; mkOperand 512 [8] Int true] false in
  let f := mkFunc [Int] Int (fun xs => nth 0%nat xs 0 + 1) in
  let s := mkState (fun a => a mod 7) [] [] in
  let lam := lambda_1d f [256; 512] [4; 8] in
  no_interference f it
  /\ forall x,
       mem (snd (legacy.launch_kernel threads 512 1 5 lam s)) x
       = mem (snd (legacy.launch_kernel threads 2 2 5 lam s)) x.
Proof.
  intros it f s lam.
  assert (Hfair : fair threads) by (intros g b; apply Permutation_refl).
  assert (H512 : 0 < 512) by lia.
  assert (H1 : 0 < 1) by lia.
  assert (H2 : 0 < 2) by lia.
  assert (Hlam : forall idx, 0 <= idx < numel it ->
                   transforms (lam idx)
                     (fun m => write_cell f (dtypes it) m m (cell it idx))).
  { intros idx Hidx s'. unfold lam. rewrite lambda_1d_run. cbn [fst snd mem stream].
    rewrite <- (cell_1d_exact it eq_refl 2%nat idx eq_refl eq_refl Hidx).
    repeat split. }
  split; [exact (no_interferenceb_sound f it eq_refl)|].
  exact (proj2 (proj2 (strided_launch_geometry_irrelevant threads threads it f lam
                         512 1 4194304 2 2 536870912 s Hfair Hfair eq_refl eq_refl
                         H512 H1 eq_refl H2 H2 eq_refl Hlam
                         (no_interferenceb_sound f it eq_refl)))).
Defined.

(** ** Scalar lifting, element by element *)






(** ** Residency comes first *)

(** X16. Both entry points check that every operand lives on the device
    before anything else: with one operand on the host they fail, the state
    untouched, whatever the element count (an empty iterator included), the
    operand count and the function. *)
Theorem residency_checked_first (sched : Schedule)
    (split : TensorIterator -> list TensorIterator) (fuel : nat)
    (it : TensorIterator) (f : func_t) (s : State) (k : nat) :
  (k < ntensors it)%nat -> op_is_cuda (operand it k) = false ->
  gpu_kernel sched split (S fuel) it f s = (None, s)
  /\ gpu_kernel_with_index sched it f s = (None, s).
Proof.
  intros Hk Hc.
  assert (H : forallb op_is_cuda (operands it) = false).
  { destruct (forallb op_is_cuda (operands it)) eqn:E; [|reflexivity].
    rewrite forallb_forall in E. rewrite (E _ (operand_In it k Hk)) in Hc. discriminate. }
  split.
  - cbn [gpu_kernel]. unfold bind. rewrite assert_all_cuda_run, H. reflexivity.
  - unfold gpu_kernel_with_index, bind. rewrite assert_all_cuda_run, H. reflexivity.
Qed.

Lemma residency_checked_first_witness :
  let it := mkIter [0] [mkOperand 64 [4] Int true; mkOperand 128 [4] Int false] false in
  let f := mkFunc [Int] Int (fun xs => nth 0%nat xs 0 + 1) in
  let s := mkState (fun _ => 0) [] [] in
  numel it = 0 /\ gpu_kernel threads (fun _ => []) 1 it f s = (None, s).
Proof.
  intros it f s. split; [reflexivity|].
  assert (Hk : (1 < ntensors it)%nat) by (cbn; lia).
  exact (proj1 (residency_checked_first threads (fun _ => []) 0 it f s 1 Hk eq_refl)).
Defined.

(** ** The reader of unpickle *)

Lemma firstn_skipn_middle {A} (pre c rest : list A) :
  firstn (length c) (skipn (length pre) (pre ++ c ++ rest)) = c.
Proof.
  rewrite skipn_app, skipn_all, Nat.sub_diag. cbn [skipn app].
  rewrite firstn_app, firstn_all, Nat.sub_diag. cbn [firstn]. apply app_nil_r.
Qed.

Lemma read_all_chunks (data : Z) (chunks : list (list Byte.byte)) :
  forall pre rest,
    Z.of_nat (length (pre ++ concat chunks ++ rest)) < 2 ^ 64 ->
    jit.read_all (jit.data_reader data) data (pre ++ concat chunks ++ rest)
      (map (fun c => Z.of_nat (length c)) chunks) (Z.of_nat (length pre))
    = (map Some chunks, Z.of_nat (length (pre ++ concat chunks))).
Proof.
  induction chunks as [|c chunks IH]; intros pre rest Hsz.
  - simpl. rewrite app_nil_r. reflexivity.
  - cbn [map concat jit.read_all]. unfold jit.data_reader at 1.
    rewrite !length_app in Hsz. cbn [concat] in Hsz. rewrite length_app in Hsz.
    assert (E : (Z.of_nat (length pre) + Z.of_nat (length c)) mod 2 ^ 64
                = Z.of_nat (length (pre ++ c))).
    { rewrite length_app, Nat2Z.inj_add. apply Z.mod_small. lia. }
    rewrite E.
    replace (pre ++ (c ++ concat chunks) ++ rest)
      with ((pre ++ c) ++ concat chunks ++ rest)
      by (rewrite <- !app_assoc; reflexivity).
    rewrite IH by (rewrite !length_app; lia).
    f_equal.
    + f_equal. unfold jit.bytes_at.
      replace (Z.to_nat (data + Z.of_nat (length pre) - data)) with (length pre) by lia.
      rewrite Nat2Z.id.
      assert (G : (data <=? data + Z.of_nat (length pre)) && (0 <=? Z.of_nat (length c))
                  && (data + Z.of_nat (length pre) + Z.of_nat (length c)
                      <=? data + Z.of_nat (length ((pre ++ c) ++ concat chunks ++ rest)))
                  = true).
      { rewrite !andb_true_iff, !Z.leb_le, !length_app. lia. }
      rewrite G. f_equal. rewrite <- !app_assoc. apply firstn_skipn_middle.
    + rewrite <- app_assoc. reflexivity.
Qed.

(** X18. Round trip at the level of chunks. Let a buffer hold what the
    writer of [pickle] appended chunk by chunk. Reading it through the
    reader of [unpickle] with the lengths of those chunks hands out, one
    after another, pointers to exactly those chunks; before the reads the
    bounds checker reports data (unless the buffer is empty), afterwards it
    reports the end. *)
Theorem unpickle_reads_back_chunks (data : Z) (chunks : list (list Byte.byte)) :
  let buf := fold_left (fun w c => jit.append_writer c w) chunks [] in
  let size := Z.of_nat (length buf) in
  size < 2 ^ 64 ->
  fst (jit.read_all (jit.data_reader data) data buf
         (map (fun c => Z.of_nat (length c)) chunks) 0)
  = map Some chunks
  /\ jit.data_bounds_checker size
       (snd (jit.read_all (jit.data_reader data) data buf
               (map (fun c => Z.of_nat (length c)) chunks) 0)) = false
  /\ (jit.data_bounds_checker size 0 = true <-> buf <> []).
Proof.
  intros buf size Hsz. subst size buf. rewrite emit_append in *.
  cbn [app] in *.
  pose proof (read_all_chunks data chunks [] []) as R.
  cbn [app length] in R. change (Z.of_nat 0) with 0 in R.
  rewrite app_nil_r in R. rewrite R by exact Hsz.
  cbn [fst snd]. split; [reflexivity|]. split.
  - unfold jit.data_bounds_checker. apply Z.ltb_irrefl.
  - unfold jit.data_bounds_checker. rewrite Z.ltb_lt.
    destruct (concat chunks); cbn [length]; split; intros H; try lia; try discriminate.
    contradiction.
Qed.

Lemma unpickle_reads_back_chunks_witness :
  let chunks := [[Byte.x80; Byte.x02]; [Byte.x4b; Byte.x07]; [Byte.x2e]] in
  fst (jit.read_all (jit.data_reader 4096) 4096
         [Byte.x80; Byte.x02; Byte.x4b; Byte.x07; Byte.x2e] [2; 2; 1] 0)
  = map Some chunks.
Proof.
  intros chunks.
  assert (Hsz : Z.of_nat (length (fold_left (fun w c => jit.append_writer c w) chunks []))
                < 2 ^ 64) by (vm_compute; reflexivity).
  exact (proj1 (unpickle_reads_back_chunks 4096 chunks Hsz)).
Defined.

(** X19. The bounds checker does not guard a read. It only tells whether the
    cursor is before the end; the reader itself checks nothing. With fewer
    than [len] bytes left, the bounds checker still reports data, the reader
    hands out a pointer whose [len] bytes run past the end of the buffer,
    and only afterwards does the bounds checker report the end. *)
Theorem unpickle_reader_overrun (data : Z) (buf : list Byte.byte)
    (bytes_read len : Z) :
  let size := Z.of_nat (length buf) in
  0 <= bytes_read < size -> size < bytes_read + len < 2 ^ 64 ->
  jit.data_bounds_checker size bytes_read = true
  /\ fst (jit.data_reader data len bytes_read) = data + bytes_read
  /\ jit.bytes_at data buf (fst (jit.data_reader data len bytes_read)) len = None
  /\ jit.data_bounds_checker size (snd (jit.data_reader data len bytes_read)) = false.
Proof.
  intros size Hr Hl. unfold jit.data_bounds_checker, jit.data_reader. cbn [fst snd].
  split; [apply Z.ltb_lt; lia|]. split; [reflexivity|]. split.
  - unfold jit.bytes_at. fold size.
    destruct (Z.leb_spec (data + bytes_read + len) (data + size)); [lia|].
    rewrite andb_false_r. reflexivity.
  - rewrite Z.mod_small by lia. apply Z.ltb_ge. lia.
Qed.

Lemma unpickle_reader_overrun_witness :
  jit.data_bounds_checker 3 2 = true
  /\ jit.bytes_at 4096 [Byte.x80; Byte.x02; Byte.x2e]
       (fst (jit.data_reader 4096 4 2)) 4 = None.
Proof.
  assert (H1 : 0 <= 2 < Z.of_nat (length [Byte.x80; Byte.x02; Byte.x2e])) by (cbn; lia).
  assert (H2 : Z.of_nat (length [Byte.x80; Byte.x02; Byte.x2e]) < 2 + 4 < 2 ^ 64)
    by (cbn; lia).
  destruct (unpickle_reader_overrun 4096 [Byte.x80; Byte.x02; Byte.x2e] 2 4 H1 H2)
    as (R1 & _ & R2 & _).
  split; [exact R1 | exact R2].
Defined.
